(** * Raw-device image carving and integrity verification

    A shallow embedding of [recovery/main.py] (method
    [RecoveryWorker.raw_recovery]) and of [recovery/verifier.py]
    (class [FileIntegrityVerifier]), with the properties of the carving
    engine, of the progress estimator and of the verifier proved or
    refuted on it.

    Conventions of the embedding:
    - Python [bytes] are [list Byte.byte]; Python [int]s are [Z].
    - Python [float]s are IEEE 754 binary64 numbers, computed with the
      library's [SpecFloat] operations (round to nearest even).
    - The open device, the output directory, the Qt signals and the
      cancellation flag form a [World] threaded through a small
      state-and-exception monad; Python exceptions are [Raise].
    - [while] loops take a fuel argument; [raw_recovery_total] shows that
      the fuel chosen by [raw_recovery] is always enough. *)

From Stdlib Require Import ZArith List String Ascii Bool Lia.
From Stdlib Require Import Floats.SpecFloat.
From Stdlib Require Import DecimalString DecimalZ.
From stdpp Require Import gmap strings.
Import ListNotations.

Local Open Scope string_scope.
Local Open Scope list_scope.
Local Open Scope Z_scope.

(* ================================================================== *)
(** * Byte strings *)
(* ================================================================== *)

Module Bytes.

Abbreviation bytes := (list Byte.byte).

(** [sub] is a prefix of [s]. *)
Fixpoint starts_with (sub s : bytes) : bool :=
  match sub, s with
  | [], _ => true
  | a :: sub', b :: s' => Byte.eqb a b && starts_with sub' s'
  | _ :: _, [] => false
  end.

Fixpoint find_from (sub s : bytes) (i : Z) : Z :=
  if starts_with sub s then i
  else match s with
       | [] => -1
       | _ :: s' => find_from sub s' (i + 1)
       end.

(** [s.find(sub)]: the lowest index at which [sub] occurs in [s],
    or [-1]. *)
Definition find (s sub : bytes) : Z := find_from sub s 0.

(** [s[i:]] and [s[:j]] for non-negative bounds; like Python's slices
    they are clipped to the length of [s]. *)
Definition slice_from (s : bytes) (i : Z) : bytes := skipn (Z.to_nat i) s.
Definition slice_to (s : bytes) (j : Z) : bytes := firstn (Z.to_nat j) s.

Definition len (s : bytes) : Z := Z.of_nat (List.length s).

(** [bool(s)]: a byte string is true when it is not empty. *)
Definition truthy (s : bytes) : bool :=
  match s with [] => false | _ :: _ => true end.

End Bytes.

(* ================================================================== *)
(** * Python floats (binary64) *)
(* ================================================================== *)

Module Float64.

Definition prec : Z := 53.
Definition emax : Z := 1024.

(** [float(z)], correctly rounded. *)
Definition of_int (z : Z) : spec_float := binary_normalize prec emax z 0 false.

Definition div : spec_float -> spec_float -> spec_float := SFdiv prec emax.
Definition mul : spec_float -> spec_float -> spec_float := SFmul prec emax.

(** [int(x)]: truncation toward zero.  Python raises on an infinity or
    a NaN; the engine never produces one (its divisors are positive),
    and the model returns 0 there. *)
Definition to_int (x : spec_float) : Z :=
  match x with
  | S754_finite s m e =>
      let v := if 0 <=? e then Z.pos m * 2 ^ e else Z.pos m / 2 ^ (- e) in
      if s then - v else v
  | _ => 0
  end.

(** The literal [0.90]: 0x1.ccccccccccccdp-1. *)
Definition lit_0_90 : spec_float := S754_finite false 8106479329266893 (-53).

(** [a / b] on two ints (true division). *)
Definition int_div (a b : Z) : spec_float := div (of_int a) (of_int b).

End Float64.

(* ================================================================== *)
(** * Paths and text *)
(* ================================================================== *)

Module Text.

(** [str(z)] for an int. *)
Definition dec (z : Z) : string := NilZero.string_of_int (Z.to_int z).

Definition sep : string := "/".

Fixpoint ends_with_sep (s : string) : bool :=
  match s with
  | EmptyString => false
  | String c EmptyString => Ascii.eqb c "/"
  | String _ s' => ends_with_sep s'
  end.

(** What [os.path.join a b] puts in front of a relative [b]. *)
Definition dir_prefix (a : string) : string :=
  match a with
  | EmptyString => EmptyString
  | _ => if ends_with_sep a then a else a +:+ sep
  end.

(** [os.path.join] (POSIX flavour): an absolute second component
    replaces the first. *)
Definition join (a b : string) : string :=
  match b with
  | String "/" _ => b
  | _ => dir_prefix a +:+ b
  end.

(** [os.path.basename] (POSIX flavour): what follows the last
    separator. *)
Fixpoint basename (p : string) : string :=
  match p with
  | EmptyString => EmptyString
  | String c p' =>
      if Ascii.eqb c "/" then basename p'
      else if existsb (Ascii.eqb "/") (list_ascii_of_string p') then basename p'
      else p
  end.

End Text.

(* ================================================================== *)
(** * File records exchanged between the carver and the verifier *)
(* ================================================================== *)

(** The dictionaries appended to [recovered_files]: keys ['path'],
    ['size'], ['type'], ['status'] and, once verified, ['hash']. *)
Record FileInfo := mkFileInfo {
  path : string;
  size : Z;
  type : string;
  status : string;
  hash : option string
}.

(* ================================================================== *)
(** * The carving engine: [RecoveryWorker.raw_recovery] *)
(* ================================================================== *)

Module Carver.
Import Bytes.

(** ** The world the method runs in *)

(** The Qt signals of [RecoveryWorker]. *)
Inductive signal :=
| progress_updated (percent : Z)
| status_updated (msg : string)
| error_occurred (msg : string).

(** The exceptions the method can meet. *)
Inductive exn :=
| FileNotFoundError (msg : string)   (* a path does not exist *)
| ReadError                          (* [fileD.read] raises *)
| WriteError.                        (* [fileN.write] raises *)

(** [str(e)].  The text of a failed read or write is the operating
    system's; the model puts a fixed text in its place. *)
Definition exn_text (e : exn) : string :=
  match e with
  | FileNotFoundError msg => msg
  | ReadError => "read failed"
  | WriteError => "write failed"
  end.

(** A budget [Some n] allows [n] more operations; [None] is unlimited. *)
Definition spend (b : option nat) : option (option nat) :=
  match b with
  | None => Some None
  | Some O => None
  | Some (S n) => Some (Some n)
  end.

Record World := mkWorld {
  dev_present : bool;          (* [os.path.exists(drive_path)] *)
  dev_size : option Z;         (* [os.path.getsize(drive_path)]; [None]: it raises *)
  dev_data : bytes;            (* the bytes of the device not read yet *)
  read_budget : option nat;    (* successful reads left before [read] raises *)
  write_budget : option nat;   (* successful writes left before [write] raises *)
  run_budget : option nat;     (* times [_is_running] is still seen [True] *)
  files : gmap string bytes;   (* the files of the output directory *)
  signals : list signal        (* the signals emitted so far, oldest first *)
}.

Definition with_dev (w : World) (d : bytes) (rb : option nat) : World :=
  mkWorld (dev_present w) (dev_size w) d rb (write_budget w) (run_budget w)
          (files w) (signals w).
Definition with_files (w : World) (f : gmap string bytes) (wb : option nat) : World :=
  mkWorld (dev_present w) (dev_size w) (dev_data w) (read_budget w) wb (run_budget w)
          f (signals w).
Definition with_run (w : World) (b : option nat) : World :=
  mkWorld (dev_present w) (dev_size w) (dev_data w) (read_budget w) (write_budget w) b
          (files w) (signals w).
Definition with_signals (w : World) (s : list signal) : World :=
  mkWorld (dev_present w) (dev_size w) (dev_data w) (read_budget w) (write_budget w)
          (run_budget w) (files w) s.

(** ** State and exceptions *)

Inductive outcome (A : Type) :=
| Ret (a : A)
| Raise (e : exn)
| OutOfFuel.                     (* a loop of the model ran out of fuel *)
Arguments Ret {A} a.
Arguments Raise {A} e.
Arguments OutOfFuel {A}.

Definition M (A : Type) : Type := World -> outcome A * World.

Definition ret {A} (a : A) : M A := fun w => (Ret a, w).
Definition raise {A} (e : exn) : M A := fun w => (Raise e, w).
Definition out_of_fuel {A} : M A := fun w => (OutOfFuel, w).
Definition bind {A B} (m : M A) (k : A -> M B) : M B :=
  fun w => match m w with
           | (Ret a, w') => k a w'
           | (Raise e, w') => (Raise e, w')
           | (OutOfFuel, w') => (OutOfFuel, w')
           end.

Notation "'let*' x ':=' c1 'in' c2" := (bind c1 (fun x => c2))
  (at level 10, x pattern, c1 at level 100, c2 at level 200).

(** ** Primitive operations *)

(** [fileD.read(n)] *)
Definition fileD_read (n : Z) : M bytes := fun w =>
  match spend (read_budget w) with
  | None => (Raise ReadError, w)
  | Some rb => (Ret (slice_to (dev_data w) n),
                with_dev w (slice_from (dev_data w) n) rb)
  end.

(** [self._is_running] *)
Definition is_running : M bool := fun w =>
  match spend (run_budget w) with
  | None => (Ret false, w)
  | Some b => (Ret true, with_run w b)
  end.

(** [open(file_path, "wb")] *)
Definition fileN_open (file_path : string) : M unit := fun w =>
  (Ret tt, with_files w (<[file_path := []]> (files w)) (write_budget w)).

(** [fileN.write(data)] *)
Definition fileN_write (file_path : string) (data : bytes) : M unit := fun w =>
  match spend (write_budget w) with
  | None => (Raise WriteError, w)
  | Some wb =>
      (Ret tt, with_files w (<[file_path := default [] (files w !! file_path) ++ data]> (files w)) wb)
  end.

(** [os.path.getsize(file_path)] on an output file *)
Definition getsize (file_path : string) : M Z := fun w =>
  match files w !! file_path with
  | Some c => (Ret (len c), w)
  | None => (Raise (FileNotFoundError file_path), w)
  end.

(** [self.<signal>.emit(...)] *)
Definition emit (s : signal) : M unit := fun w =>
  (Ret tt, with_signals w (signals w ++ [s])).

Definition path_exists : M bool := fun w => (Ret (dev_present w), w).

(** ** Signatures (lines 82-91, 157-160) *)

Inductive FileType := jpg | png.

Definition ext (t : FileType) : string :=
  match t with jpg => "jpg" | png => "png" end.
Definition upper (t : FileType) : string :=
  match t with jpg => "JPG" | png => "PNG" end.

Import Byte.

Definition jpg_signatures : list bytes :=
  [ [xff; xd8; xff; xe0; x00; x10; x4a; x46];
    [xff; xd8; xff; xe1];
    [xff; xd8; xff; xdb];
    [xff; xd8; xff; xe0];
    [xff; xd8; xff; xee];
    [xff; xd8; xff; xc0];
    [xff; xd8; xff; xc4] ].

Definition png_signature : bytes := [x89; x50; x4e; x47; x0d; x0a; x1a; x0a].

Definition end_signature (t : FileType) : bytes :=
  match t with
  | jpg => [xff; xd9]
  | png => [x49; x45; x4e; x44; xae; x42; x60; x82]
  end.

(** What is added to [bfind] in the slice written at the end of a file
    (lines 203-207). *)
Definition end_marker_length (t : FileType) : Z :=
  match t with jpg => 2 | png => 12 end.

(** The [for sig in jpg_signatures] loop: the position of the first
    signature of the list that occurs in the block. *)
Fixpoint first_signature (sigs : list bytes) (byte : bytes) : Z :=
  match sigs with
  | [] => -1
  | sig :: sigs' =>
      let found := find byte sig in
      if 0 <=? found then found else first_signature sigs' byte
  end.

(** Lines 123-140: [(file_type, found_pos)], [None] when [found_pos]
    stays [-1]. *)
Definition scan_signatures (byte : bytes) : option (FileType * Z) :=
  let found_pos := first_signature jpg_signatures byte in
  if 0 <=? found_pos then Some (jpg, found_pos)
  else
    let found := find byte png_signature in
    if 0 <=? found then Some (png, found) else None.

(** ** Progress arithmetic *)

(** The local [size]: the length of a block. *)
Definition block_size : Z := 512.
Definition scan_progress_weight : spec_float := Float64.lit_0_90.

(** [min(100, int((processed_sectors / total_sectors) * 100))] *)
Definition scan_progress (processed_sectors total_sectors : Z) : Z :=
  Z.min 100 (Float64.to_int
               (Float64.mul (Float64.int_div processed_sectors total_sectors)
                            (Float64.of_int 100))).

(** Lines 176-177.  [file_sectors > estimated_file_size / 2] compares an
    int with a float by value; the quotient is exact (the estimate is
    even and far below 2^53), so the test is [estimated < 2 * file]. *)
Definition adjust_estimate (file_sectors estimated_file_size : Z) : Z :=
  if estimated_file_size <? 2 * file_sectors then file_sectors * 2
  else estimated_file_size.

(** [min(100, int((file_sectors / estimated_file_size) * 100))] *)
Definition file_progress (file_sectors estimated_file_size : Z) : Z :=
  Z.min 100 (Float64.to_int
               (Float64.mul (Float64.int_div file_sectors estimated_file_size)
                            (Float64.of_int 100))).

(** [int(scan_progress * scan_progress_weight)] *)
Definition combined_progress (scan_progress : Z) : Z :=
  Float64.to_int (Float64.mul (Float64.of_int scan_progress) scan_progress_weight).

(** [min(95, int((processed_sectors / total_sectors) * scan_progress_weight * 100))] *)
Definition periodic_progress (processed_sectors total_sectors : Z) : Z :=
  Z.min 95 (Float64.to_int
              (Float64.mul
                 (Float64.mul (Float64.int_div processed_sectors total_sectors)
                              scan_progress_weight)
                 (Float64.of_int 100))).

(** Lines 101-107. *)
Definition total_sectors_of (drive_size : option Z) : Z :=
  match drive_size with
  | Some drive_size =>
      let total_sectors := drive_size / block_size in
      if total_sectors <=? 0 then 1000000 else total_sectors
  | None => 1000000
  end.

Definition read_total_sectors : M Z := fun w =>
  (Ret (total_sectors_of (dev_size w)), w).

(** ** The local variables of the scan *)

Record Vars := mkVars {
  byte : bytes;                        (* the block read last *)
  offs : Z;
  processed_sectors : Z;
  prev_progress : Z;
  rcvd : Z;
  recovered_files : list FileInfo
}.

Definition read_into (v : Vars) (b : bytes) : Vars :=
  mkVars b (offs v + 1) (processed_sectors v + 1) (prev_progress v) (rcvd v)
         (recovered_files v).
Definition with_prev (v : Vars) (p : Z) : Vars :=
  mkVars (byte v) (offs v) (processed_sectors v) p (rcvd v) (recovered_files v).

Definition recovering_msg (t : FileType) (file_progress : Z) : string :=
  "Recovering " +:+ upper t +:+ " file (" +:+ Text.dec file_progress +:+ "% complete)".

(** ** The inner loop (lines 164-211)

    [drec] is [True] on entry; the iterations that set it to [False]
    are those that return.  [while drec and self._is_running] reads the
    flag only while [drec] holds. *)
Fixpoint inner_loop (fuel : nat) (total_sectors : Z) (file_type : FileType)
    (file_path : string) (file_sectors estimated_file_size : Z) (v : Vars)
    : M Vars :=
  let* running := is_running in
  if negb running then ret v else
  match fuel with
  | O => out_of_fuel
  | S fuel' =>
      let* b := fileD_read block_size in
      let v := read_into v b in
      let file_sectors := file_sectors + 1 in
      let scan_progress := scan_progress (processed_sectors v) total_sectors in
      let estimated_file_size := adjust_estimate file_sectors estimated_file_size in
      let file_progress := file_progress file_sectors estimated_file_size in
      let combined_progress := combined_progress scan_progress in
      let current_progress := Z.max (prev_progress v) combined_progress in
      let current_progress := Z.min 95 current_progress in
      let* v :=
        if prev_progress v <? current_progress then
          let* _ := emit (progress_updated current_progress) in
          let* _ := emit (status_updated (recovering_msg file_type file_progress)) in
          ret (with_prev v current_progress)
        else ret v in
      if negb (truthy b) then ret v
      else
        let bfind := find b (end_signature file_type) in
        if 0 <=? bfind then
          let* _ := fileN_write file_path
                      (slice_to b (bfind + end_marker_length file_type)) in
          ret v
        else
          let* _ := fileN_write file_path b in
          inner_loop fuel' total_sectors file_type file_path
                     file_sectors estimated_file_size v
  end.

(** Lines 213-221, after the [with] block has closed the carved file. *)
Definition carve_epilogue (file_type : FileType) (file_path : string) (v : Vars)
    : M Vars :=
  let rcvd := rcvd v + 1 in
  let* _ := emit (status_updated
                    ("Recovered file " +:+ Text.dec rcvd +:+ ": "
                     +:+ Text.basename file_path)) in
  let* sz := getsize file_path in
  ret (mkVars (byte v) (offs v) (processed_sectors v) (prev_progress v) rcvd
              (recovered_files v
               ++ [mkFileInfo file_path sz (ext file_type) "Recovered" None])).

Definition recovered_path (output_dir : string) (rcvd : Z) (t : FileType) : string :=
  Text.join output_dir ("recovered_" +:+ Text.dec rcvd +:+ "." +:+ ext t).

(** Lines 143-221: the body of [if found_pos >= 0]. *)
Definition carve_file (fuel : nat) (total_sectors : Z) (output_dir : string)
    (file_type : FileType) (found_pos : Z) (v : Vars) : M Vars :=
  let file_path := recovered_path output_dir (rcvd v) file_type in
  let* _ := fileN_open file_path in
  let* _ := fileN_write file_path (slice_from (byte v) found_pos) in
  let* v := inner_loop fuel total_sectors file_type file_path 0 1000 v in
  carve_epilogue file_type file_path v.

(** Lines 223-232: the read that ends every iteration of the outer
    loop, and the periodic progress update. *)
Definition outer_advance (total_sectors : Z) (v : Vars) : M Vars :=
  let* b := fileD_read block_size in
  let v := read_into v b in
  if processed_sectors v mod 1000 =? 0 then
    let current_progress := periodic_progress (processed_sectors v) total_sectors in
    if prev_progress v <? current_progress then
      let* _ := emit (progress_updated current_progress) in
      ret (with_prev v current_progress)
    else ret v
  else ret v.

(** ** The outer loop (lines 121-232) *)
Fixpoint outer_loop (fuel : nat) (total_sectors : Z) (output_dir : string)
    (v : Vars) : M Vars :=
  if negb (truthy (byte v)) then ret v else
  let* running := is_running in
  if negb running then ret v else
  match fuel with
  | O => out_of_fuel
  | S fuel' =>
      let* v :=
        match scan_signatures (byte v) with
        | Some (file_type, found_pos) =>
            carve_file fuel' total_sectors output_dir file_type found_pos v
        | None => ret v
        end in
      let* v := outer_advance total_sectors v in
      outer_loop fuel' total_sectors output_dir v
  end.

(** ** [raw_recovery] *)

(** The [try] block (lines 94-236) and the final [return]. *)
Definition raw_recovery_body (fuel : nat) (drive_path output_dir : string)
    : M (list FileInfo) :=
  let* _ := emit (status_updated "Scanning drive sectors for image files...") in
  let* present := path_exists in
  if negb present
  then raise (FileNotFoundError ("Drive path not found: " +:+ drive_path)) else
  let* total_sectors := read_total_sectors in
  let* b := fileD_read block_size in
  let* v := outer_loop fuel total_sectors output_dir (mkVars b 0 0 0 0 []) in
  let* _ := emit (progress_updated 98) in
  let* _ := emit (status_updated
                    ("Scan complete. Found " +:+ Text.dec (rcvd v) +:+ " files.")) in
  ret (recovered_files v).

(** The whole method with its [except Exception] handler (lines 238-240). *)
Definition raw_recovery_fuel (fuel : nat) (drive_path output_dir : string)
    : M (list FileInfo) :=
  fun w =>
    match raw_recovery_body fuel drive_path output_dir w with
    | (Raise e, w') =>
        (let* _ := emit (error_occurred
                           ("Error during raw recovery: " +:+ exn_text e)) in
         ret []) w'
    | r => r
    end.

(** Every iteration of either loop reads from the device, so the number
    of unread bytes bounds the number of iterations. *)
Definition enough_fuel (w : World) : nat := List.length (dev_data w) + 2.

Definition raw_recovery (drive_path output_dir : string) : M (list FileInfo) :=
  fun w => raw_recovery_fuel (enough_fuel w) drive_path output_dir w.

End Carver.

(* ================================================================== *)
(** * The integrity verifier: [FileIntegrityVerifier] *)
(* ================================================================== *)

Module Verifier.
Import Bytes.

(** The file system as the verifier meets it.  [move_ok src dst] tells
    whether [shutil.move(src, dst)] succeeds; [makedirs_ok] whether
    [os.makedirs(corrupted_dir, exist_ok=True)] does.  A file is known
    by its path: two paths are two files, which holds of paths written
    in one normal form and not of two spellings of one file. *)
Record Disk := mkDisk {
  files : gmap string bytes;
  makedirs_ok : bool;
  move_ok : string -> string -> bool
}.

Definition with_files (d : Disk) (f : gmap string bytes) : Disk :=
  mkDisk f (makedirs_ok d) (move_ok d).

Definition set_status (fi : FileInfo) (s : string) : FileInfo :=
  mkFileInfo (path fi) (size fi) (type fi) s (hash fi).
Definition set_hash (fi : FileInfo) (h : string) : FileInfo :=
  mkFileInfo (path fi) (size fi) (type fi) (status fi) (Some h).
Definition set_path (fi : FileInfo) (p : string) : FileInfo :=
  mkFileInfo p (size fi) (type fi) (status fi) (hash fi).

(** [f"corrupted_{self.corrupted_count}_{os.path.basename(file_path)}"]
    joined to the quarantine directory (lines 56-57). *)
Definition corrupted_path (corrupted_dir : string) (corrupted_count : Z)
    (file_path : string) : string :=
  Text.join corrupted_dir
    ("corrupted_" +:+ Text.dec corrupted_count +:+ "_" +:+ Text.basename file_path).

(** A successful [shutil.move(src, dst)]. *)
Definition move (src dst : string) (f : gmap string bytes) : gmap string bytes :=
  match f !! src with
  | Some c => <[dst := c]> (delete src f)
  | None => f
  end.

Section WithLibraries.

(** The two libraries the verifier calls: [hashlib.sha256] (the hex
    digest of a content) and PIL ([Image.open] followed by
    [verify()]: the format and the size of the image, [None] when
    either raises). *)
Variable sha256_hex : bytes -> string.
Variable image_probe : bytes -> option (string * Z * Z).

(** [_calculate_file_hash]: reading in chunks of 4096 bytes feeds the
    whole content to the digest; any exception gives ["hash_error"]. *)
Definition calculate_file_hash (d : Disk) (file_path : string) : string :=
  match files d !! file_path with
  | Some c => sha256_hex c
  | None => "hash_error"
  end.

(** [_verify_image_integrity] *)
Definition verify_image_integrity (d : Disk) (file_path file_type : string) : bool :=
  match files d !! file_path with
  | None => false
  | Some c =>
      if len c =? 0 then false
      else match image_probe c with
           | None => false
           | Some (format, width, height) =>
               if (width <=? 0) || (height <=? 0)
                  || (10000 <? width) || (10000 <? height) then false
               else if String.eqb file_type "jpg"
                       && negb (String.eqb format "JPEG" || String.eqb format "JPG")
               then false
               else if String.eqb file_type "png" && negb (String.eqb format "PNG")
               then false
               else true
           end
  end.

(** One iteration of [for file_info in file_list] (lines 36-68):
    the new counter, the new disk and the record appended to
    [verified_files]. *)
Definition verify_one (corrupted_dir : string) (corrupted_count : Z) (d : Disk)
    (file_info : FileInfo) : Z * Disk * FileInfo :=
  let file_path := path file_info in
  match files d !! file_path with
  | None => (corrupted_count, d, set_status file_info "Missing")
  | Some _ =>
      let file_info := set_hash file_info (calculate_file_hash d file_path) in
      if verify_image_integrity d file_path (type file_info) then
        (corrupted_count, d, set_status file_info "OK")
      else
        let corrupted_count := corrupted_count + 1 in
        let corrupted_path := corrupted_path corrupted_dir corrupted_count file_path in
        if move_ok d file_path corrupted_path then
          (corrupted_count,
           with_files d (move file_path corrupted_path (files d)),
           set_status (set_path file_info corrupted_path) "Corrupted")
        else
          (corrupted_count, d, set_status file_info "Corrupted (not moved)")
  end.

Fixpoint verify_loop (corrupted_dir : string) (corrupted_count : Z) (d : Disk)
    (file_list verified_files : list FileInfo) : list FileInfo * Disk :=
  match file_list with
  | [] => (verified_files, d)
  | file_info :: rest =>
      let '(corrupted_count, d, file_info) :=
        verify_one corrupted_dir corrupted_count d file_info in
      verify_loop corrupted_dir corrupted_count d rest (verified_files ++ [file_info])
  end.

(** [verify_files]: the counter is reset, the quarantine directory is
    created; when that raises, the handler returns [file_list] as it
    was given. *)
Definition verify_files (file_list : list FileInfo) (corrupted_dir : string)
    (d : Disk) : list FileInfo * Disk :=
  if makedirs_ok d then verify_loop corrupted_dir 0 d file_list []
  else (file_list, d).

End WithLibraries.

End Verifier.

(* ================================================================== *)
(** * Vocabulary of the statements *)
(* ================================================================== *)

Module Vocabulary.
Import Bytes Carver.

(** The percentages carried by the [progress_updated] signals. *)
Fixpoint progress_of (s : list signal) : list Z :=
  match s with
  | [] => []
  | progress_updated p :: s' => p :: progress_of s'
  | _ :: s' => progress_of s'
  end.

(** [l] is strictly increasing and starts above [lo]. *)
Fixpoint increasing_from (lo : Z) (l : list Z) : Prop :=
  match l with
  | [] => True
  | x :: l' => lo < x /\ increasing_from x l'
  end.

(** The records of a result ([[]] when there is none). *)
Definition records {A} (r : outcome (list A) * World) : list A :=
  match fst r with Ret l => l | _ => [] end.

(** The device cut in blocks of [n] bytes, as successive reads return
    them. *)
Fixpoint blocks_fuel (fuel : nat) (n : nat) (data : bytes) : list bytes :=
  match fuel, data with
  | _, [] => []
  | O, _ => []
  | S fuel', _ => firstn n data :: blocks_fuel fuel' n (skipn n data)
  end.
Definition blocks (data : bytes) : list bytes :=
  blocks_fuel (List.length data) (Z.to_nat block_size) data.

(** [sig] occurs in [s] at offset [k]. *)
Definition occurs_at (sig s : bytes) (k : Z) : Prop :=
  0 <= k /\ firstn (List.length sig) (skipn (Z.to_nat k) s) = sig.

Definition start_signatures : list bytes := jpg_signatures ++ [png_signature].

(** The way of the engine from an iteration of the inner loop to the next
    test of the outer loop: the inner loop, the lines that follow the
    [with] block of the carved file, and the read that closes the
    iteration of the outer loop. *)
Definition file_tail (fuel : nat) (total_sectors : Z) (file_type : FileType)
    (file_path : string) (file_sectors estimated_file_size : Z) (v : Vars)
    : M Vars :=
  let* v := inner_loop fuel total_sectors file_type file_path
              file_sectors estimated_file_size v in
  let* v := carve_epilogue file_type file_path v in
  outer_advance total_sectors v.

(** [estimated_file_size] after [n] iterations of the inner loop that
    started with [file_sectors] and [est]. *)
Fixpoint estimate_from (n : nat) (file_sectors est : Z) : Z :=
  match n with
  | O => est
  | S n' => estimate_from n' (file_sectors + 1) (adjust_estimate (file_sectors + 1) est)
  end.

(** Two worlds that differ at most in the text of their status messages. *)
Definition same_bar (w w' : World) : Prop :=
  with_signals w [] = with_signals w' []
  /\ progress_of (signals w) = progress_of (signals w').

Definition agree {A} (r r' : outcome A * World) : Prop :=
  fst r = fst r' /\ same_bar (snd r) (snd r').

Definition sim {A} (m m' : M A) : Prop :=
  forall w w', same_bar w w' -> agree (m w) (m' w').


(** [wp m Q w]: running [m] from [w] ends in an outcome and a world
    that satisfy [Q]. *)
Definition wp {A} (m : M A) (Q : outcome A -> World -> Prop) (w : World) : Prop :=
  Q (fst (m w)) (snd (m w)).

(** Every record has the status ['Recovered']. *)
Definition recovered_only (l : list FileInfo) : Prop :=
  Forall (fun r => status r = "Recovered") l.

(** The invariant of the scan for a property [P prev s] of the value of
    [prev_progress] and of the signals emitted so far: [P] holds and
    every record has the status ['Recovered']. *)
Definition scan_inv (P : Z -> list signal -> Prop) (v : Vars) (w : World) : Prop :=
  P (prev_progress v) (signals w) /\ recovered_only (recovered_files v).

Definition scan_post (P : Z -> list signal -> Prop) (o : outcome Vars) (w : World)
    : Prop :=
  match o with
  | Ret v => scan_inv P v w
  | _ => exists prev, P prev (signals w)
  end.

(** The percentages emitted so far increase strictly from 0 and stay
    below [prev], the value of [prev_progress], itself at most 95. *)
Definition progress_ok (prev : Z) (s : list signal) : Prop :=
  increasing_from 0 (progress_of s)
  /\ Forall (fun y => y <= prev) (progress_of s)
  /\ 0 <= prev <= 95.

(** What the percentages of a finished scan look like: a strictly
    increasing run of values in (0, 95], closed by 98 when the scan
    loop was left normally. *)
Definition scan_percentages (completed : bool) (ps : list Z) : Prop :=
  exists l, ps = (if completed then l ++ [98] else l)
            /\ increasing_from 0 l /\ Forall (fun p => p <= 95) l.

(** The outcome is not a lack of fuel, and at most [bound] bytes of the
    device are left. *)
Definition terminates {A} (bound : nat) (o : outcome A) (w : World) : Prop :=
  o <> OutOfFuel /\ (List.length (dev_data w) <= bound)%nat.

(** No start signature is detected in the block. *)
Definition no_signature (b : bytes) : Prop := scan_signatures b = None.

(** The character [c] does not occur in [s]. *)
Fixpoint lacks (c : ascii) (s : string) : bool :=
  match s with
  | EmptyString => true
  | String c' s' => negb (Ascii.eqb c' c) && lacks c s'
  end.

(** The records [l] were appended one by one while [rcvd] went from 0 to
    [n], each under the path made from the value of [rcvd] at its time. *)
Inductive numbered (output_dir : string) : Z -> list FileInfo -> Prop :=
| numbered_nil : numbered output_dir 0 []
| numbered_snoc n l r t :
    numbered output_dir n l -> 0 <= n ->
    path r = recovered_path output_dir n t ->
    numbered output_dir (n + 1) (l ++ [r]).

(** The outcome leaves [rcvd] and the records as they are in [v]. *)
Definition keeps_records (v : Vars) (o : outcome Vars) (w : World) : Prop :=
  match o with
  | Ret v' => rcvd v' = rcvd v /\ recovered_files v' = recovered_files v
  | _ => True
  end.

(** The records of the outcome are [numbered]. *)
Definition numbered_post (dir : string) (o : outcome Vars) (w : World) : Prop :=
  match o with
  | Ret v => 0 <= rcvd v /\ numbered dir (rcvd v) (recovered_files v)
  | _ => True
  end.

(** The signals of the inner loop for the blocks of a file that follow
    its [n]-th block.  For each block, [ps] tells whether the bar moved,
    and to which percentage; the bar is then followed by the percentage
    of the file, computed from an estimate that is the larger of 1000 and
    twice the number of blocks read for the file. *)
Fixpoint block_signals (t : FileType) (n : Z) (ps : list (option Z)) : list signal :=
  match ps with
  | [] => []
  | p :: ps' =>
      match p with
      | Some x =>
          [progress_updated x;
           status_updated
             (recovering_msg t (file_progress (n + 1) (Z.max 1000 (2 * (n + 1)))))]
      | None => []
      end ++ block_signals t (n + 1) ps'
  end.

(** What a run of the inner loop that started after [n] blocks of the
    file has emitted and read. *)
Definition blocks_post (t : FileType) (n : Z) (w : World) (tail : list signal)
    (w' : World) : Prop :=
  exists ps,
    signals w' = signals w ++ block_signals t n ps ++ tail
    /\ dev_data w' = slice_from (dev_data w) (block_size * Z.of_nat (List.length ps)).

(** ** Faults of the device and of the output directory *)

(** The world [w] with [n] successful reads, or writes, left. *)
Definition with_reads (w : World) (n : nat) : World :=
  with_dev w (dev_data w) (Some n).
Definition with_writes (w : World) (n : nat) : World :=
  with_files w (files w) (Some n).

(** The number of reads of the device, and of writes to the carved
    files, that [raw_recovery] makes from [w] when [limit] of them are
    allowed. *)
Definition reads_made (limit : nat) (drive_path output_dir : string) (w : World)
    : nat :=
  match read_budget (snd (raw_recovery drive_path output_dir (with_reads w limit))) with
  | Some rest => limit - rest
  | None => 0
  end.
Definition writes_made (limit : nat) (drive_path output_dir : string) (w : World)
    : nat :=
  match write_budget (snd (raw_recovery drive_path output_dir (with_writes w limit))) with
  | Some rest => limit - rest
  | None => 0
  end.

(** [w] is [w'] with [k] more reads, or writes, left. *)
Definition more_reads (k : nat) (w w' : World) : Prop :=
  exists n, read_budget w' = Some n /\ w = with_reads w' (k + n).
Definition more_writes (k : nat) (w w' : World) : Prop :=
  exists n, write_budget w' = Some n /\ w = with_writes w' (k + n).

(** Two runs of [m], from worlds related by [R], go the same way until
    the second raises [fault], in a world where [spent] holds. *)
Definition lockstep (R : World -> World -> Prop) (fault : exn)
    (spent : World -> Prop) {A} (m : M A) : Prop :=
  forall w w', R w w' ->
    (fst (m w') = Raise fault /\ spent (snd (m w')))
    \/ (fst (m w) = fst (m w') /\ R (snd (m w)) (snd (m w'))).

(** All the reads, or writes, allowed are made. *)
Definition reads_spent (w : World) : Prop := read_budget w = Some 0%nat.
Definition writes_spent (w : World) : Prop := write_budget w = Some 0%nat.

End Vocabulary.

(* ================================================================== *)
(** * Example devices and disks *)
(* ================================================================== *)

Module Examples.
Import Bytes Carver Vocabulary Byte.

(** A present device holding [data], no fault, no cancellation, an
    empty output directory and no signal yet. *)
Definition fresh_world (data : bytes) : World :=
  mkWorld true None data None None None ∅ [].

(** The raw path of a volume, as [run_recovery] builds it. *)
Definition raw_drive : string := "\\.\E:".

Definition jfif : bytes := [xff; xd8; xff; xe0; x00; x10; x4a; x46].

(** A JPEG of 110 bytes whose start signature begins at offset 510:
    two of its bytes end block 0, the others open block 1. *)
Definition straddling_stream : bytes :=
  repeat x00 510 ++ jfif ++ repeat x41 100 ++ [xff; xd9].

(** The same JPEG starting at offset 500, inside block 0. *)
Definition aligned_stream : bytes :=
  repeat x00 500 ++ jfif ++ repeat x41 100 ++ [xff; xd9].

(** Block 0 opens a JPEG; block 1 holds its end marker at offset 0 and,
    from offset 10 on, a PNG signature. *)
Definition jpeg_then_png_stream : bytes :=
  (jfif ++ repeat x41 504)
  ++ ([xff; xd9] ++ repeat x00 8 ++ png_signature ++ repeat x42 100
      ++ end_signature png).

(** A JPEG closed in block 1, then a block of zeroes and more. *)
Definition three_block_stream : bytes :=
  (jfif ++ repeat x41 504) ++ ([xff; xd9] ++ repeat x00 510) ++ repeat x00 600.

(** The device fails at its fourth read. *)
Definition failing_read_world : World :=
  mkWorld true None three_block_stream (Some 3%nat) None None ∅ [].

(** A JPEG spread over three blocks, then a second JPEG. *)
Definition two_jpeg_stream : bytes :=
  (jfif ++ repeat x41 504) ++ repeat x41 512 ++ ([xff; xd9] ++ repeat x00 510)
  ++ (jfif ++ repeat x41 100 ++ [xff; xd9]).

(** The second write to the output directory fails. *)
Definition failing_write_world : World :=
  mkWorld true None two_jpeg_stream None (Some 1%nat) None ∅ [].

(** A PNG whose [IEND] pattern sits at offset 504 of block 1, so that
    only 8 bytes of the block are left from there. *)
Definition late_iend_stream : bytes :=
  (png_signature ++ repeat x41 504)
  ++ (repeat x00 504 ++ end_signature png)
  ++ [x01; x02; x03; x04] ++ repeat x00 96.

(** A file in progress: [out/recovered_0.jpg] holds the first block of a
    JPEG and the device is about to deliver the block with its end. *)
Definition file_in_progress_world : World :=
  mkWorld true None
          (([xff; xd9] ++ repeat x00 510) ++ repeat x00 600)
          None None None
          {[ "out/recovered_0.jpg" := jfif ++ repeat x41 504 ]} [].

(** A JPEG of 502 blocks with no end marker, on a device of 1002
    blocks. *)
Definition long_jpeg_stream : bytes :=
  jfif ++ repeat x41 (504 + 512 * 501).
Definition long_jpeg_world : World :=
  mkWorld true (Some (512 * 1002)) long_jpeg_stream None None None ∅ [].

Definition scan_vars (b : bytes) : Vars := mkVars b 0 0 0 0 [].

End Examples.

(* ================================================================== *)
(** * Vocabulary of the statements about the verifier *)
(* ================================================================== *)

Module VerifierVocabulary.
Import Bytes Verifier.

Section WithLibraries.

Variable sha256_hex : bytes -> string.
Variable image_probe : bytes -> option (string * Z * Z).

(** The loop of [verify_files] on [file_list], from the counter
    [corrupted_count] and the disk [d]: the final counter, the final disk
    and the records appended to [verified_files]. *)
Fixpoint verify_pass (corrupted_dir : string) (corrupted_count : Z) (d : Disk)
    (file_list : list FileInfo) : Z * Disk * list FileInfo :=
  match file_list with
  | [] => (corrupted_count, d, [])
  | file_info :: rest =>
      let '(corrupted_count, d, file_info) :=
        verify_one sha256_hex image_probe corrupted_dir corrupted_count d file_info in
      let '(n, d, verified) := verify_pass corrupted_dir corrupted_count d rest in
      (n, d, file_info :: verified)
  end.

(** What [verify_one] returns, case by case. *)
Inductive verified (dir : string) (n : Z) (d : Disk) (fi : FileInfo)
  : Z * Disk * FileInfo -> Prop :=
| verified_missing :
    files d !! path fi = None ->
    verified dir n d fi (n, d, set_status fi "Missing")
| verified_ok c :
    files d !! path fi = Some c ->
    verify_image_integrity image_probe d (path fi) (type fi) = true ->
    verified dir n d fi (n, d, set_status (set_hash fi (sha256_hex c)) "OK")
| verified_moved c :
    files d !! path fi = Some c ->
    verify_image_integrity image_probe d (path fi) (type fi) = false ->
    move_ok d (path fi) (corrupted_path dir (n + 1) (path fi)) = true ->
    verified dir n d fi
      (n + 1,
       with_files d (<[corrupted_path dir (n + 1) (path fi) := c]>
                       (delete (path fi) (files d))),
       set_status (set_path (set_hash fi (sha256_hex c))
                            (corrupted_path dir (n + 1) (path fi)))
                  "Corrupted")
| verified_not_moved c :
    files d !! path fi = Some c ->
    verify_image_integrity image_probe d (path fi) (type fi) = false ->
    move_ok d (path fi) (corrupted_path dir (n + 1) (path fi)) = false ->
    verified dir n d fi
      (n + 1, d, set_status (set_hash fi (sha256_hex c)) "Corrupted (not moved)").

End WithLibraries.

(** [p] lies in the directory [dir]: it is [os.path.join(dir, name)] for
    a relative [name]. *)
Definition in_dir (dir p : string) : bool := String.prefix (Text.dir_prefix dir) p.

(** The pieces of a path between its separators; [cur] is the piece
    being read. *)
Fixpoint split_sep (cur p : string) : list string :=
  match p with
  | EmptyString => [cur]
  | String c p' =>
      if Ascii.eqb c "/" then cur :: split_sep EmptyString p'
      else split_sep (cur +:+ String c EmptyString) p'
  end.

Definition plain (c : string) : bool :=
  negb (String.eqb c EmptyString) && negb (String.eqb c ".")
  && negb (String.eqb c "..").

(** [p] is written in normal form, as [os.path.normpath] leaves a path:
    no empty piece but a leading one, no [.] and no [..].  Such paths
    name one file each. *)
Definition normalized (p : string) : bool :=
  match split_sep EmptyString p with
  | [] => false
  | c :: cs =>
      (String.eqb c EmptyString || plain c) && forallb plain cs
      && negb (String.eqb p EmptyString)
  end.

(** [p] is written the way [dir] is, from the root or from the working
    directory, and in normal form: of two such paths that differ, none
    is another spelling of the other. *)
Definition canonical (dir p : string) : bool :=
  normalized p && Bool.eqb (String.prefix "/" p) (String.prefix "/" dir).

(** The disk a later verification meets: the files as [d] has them, and
    oracles of its own for [os.makedirs] and [shutil.move]. *)
Definition later_disk (d : Disk) (makedirs_ok : bool)
    (move_ok : string -> string -> bool) : Disk :=
  mkDisk (files d) makedirs_ok move_ok.

(** The statuses the verifier writes. *)
Definition verifier_statuses : list string :=
  ["Missing"; "OK"; "Corrupted"; "Corrupted (not moved)"].

(** Paths outside the quarantine directory, or quarantine names above
    the counter [n]. *)
Definition above (dir : string) (n : Z) (r : FileInfo) : Prop :=
  in_dir dir (path r) = false
  \/ exists k p, n < k /\ path r = corrupted_path dir k p.

Section Replay.

Variable sha256_hex : bytes -> string.
Variable image_probe : bytes -> option (string * Z * Z).

(** The records [out] replay on the disk [d1] from the counter [n]:
    verifying each of them again gives its status and its hash. *)
Fixpoint settled (dir : string) (d1 : Disk) (n : Z) (out : list FileInfo) : Prop :=
  match out with
  | [] => True
  | r :: rest =>
      status (snd (verify_one sha256_hex image_probe dir n d1 r)) = status r
      /\ hash (snd (verify_one sha256_hex image_probe dir n d1 r)) = hash r
      /\ Forall (above dir (fst (fst (verify_one sha256_hex image_probe dir n d1 r)))) rest
      /\ settled dir d1 (fst (fst (verify_one sha256_hex image_probe dir n d1 r))) rest
  end.

End Replay.

End VerifierVocabulary.

Module VerifierExamples.
Import Bytes Verifier VerifierVocabulary Byte.

(** Stand-ins for the two libraries, for the examples: a digest that
    tells contents of different lengths apart, and a decoder that accepts
    what starts like a JFIF file as a JPEG of 1 x 1 pixels.  PIL asks
    for a whole image: [good_jpeg] below stands for a file it accepts. *)
Definition toy_sha256_hex (c : bytes) : string := "sha256-of-" +:+ Text.dec (len c).
Definition toy_image_probe (c : bytes) : option (string * Z * Z) :=
  if starts_with [xff; xd8; xff; xe0] c then Some ("JPEG", 1, 1) else None.

Definition recovered (p t : string) (n : Z) : FileInfo :=
  mkFileInfo p n t "Recovered" None.

Definition quarantine : string := "out/corrupted".

(** A disk where every move succeeds. *)
Definition easy_disk (f : gmap string bytes) : Disk := mkDisk f true (fun _ _ => true).

(** A disk whose paths are limited to 45 characters: a move to a longer
    destination fails. *)
Definition short_paths_disk (f : gmap string bytes) : Disk :=
  mkDisk f true (fun _ dst => Nat.leb (String.length dst) 45).

(** A disk where no file can be moved. *)
Definition locked_disk (f : gmap string bytes) : Disk := mkDisk f true (fun _ _ => false).

Definition good_jpeg : bytes := [xff; xd8; xff; xe0; x00; x10; x4a; x46; xff; xd9].
Definition bad_jpeg : bytes := [xff; xd8; x00; x00].

(** Three carved files: a sound JPEG, a broken one, and a PNG deleted
    before the verification. *)
Definition carved_records : list FileInfo :=
  [recovered "out/recovered_0.jpg" "jpg" 10;
   recovered "out/recovered_1.jpg" "jpg" 4;
   recovered "out/recovered_2.png" "png" 4].

Definition carved_disk : Disk :=
  easy_disk {[ "out/recovered_0.jpg" := good_jpeg;
               "out/recovered_1.jpg" := bad_jpeg ]}.

(** Three carved files no decoder accepts: a broken JPEG, an empty file
    whose name is too long to be moved on this disk, and a PNG deleted
    before the verification. *)
Definition broken_records : list FileInfo :=
  [recovered "out/recovered_0.jpg" "jpg" 4;
   recovered "out/recovered_000000000001.jpg" "jpg" 0;
   recovered "out/recovered_2.png" "png" 4].

Definition broken_disk : Disk :=
  short_paths_disk {[ "out/recovered_0.jpg" := bad_jpeg;
                      "out/recovered_000000000001.jpg" := [] ]}.

Definition verify_twice (recs : list FileInfo) (d : Disk)
    : list FileInfo * list FileInfo :=
  let '(out1, d1) := verify_files toy_sha256_hex toy_image_probe recs quarantine d in
  let '(out2, _) := verify_files toy_sha256_hex toy_image_probe out1 quarantine d1 in
  (out1, out2).

End VerifierExamples.

(* ================================================================== *)
(** * Vocabulary of the statements about the carved files *)
(* ================================================================== *)

Module CarvingVocabulary.
Import Bytes Carver Vocabulary.

(** [c] is a run of consecutive bytes of [data]. *)
Definition slice_of (c data : bytes) : Prop :=
  exists pre post, data = pre ++ c ++ post.

(** The start signatures that give a file its type (lines 123-140). *)
Definition signatures_of (t : FileType) : list bytes :=
  match t with jpg => jpg_signatures | png => [png_signature] end.

(** The content [c] starts at a detection of the type [t]: it begins
    with what a block of the device holds from the position where the
    scan of that block found a signature of [t]. *)
Definition detected_at (data : bytes) (t : FileType) (c : bytes) : Prop :=
  exists b pos c',
    In b (blocks data) /\ scan_signatures b = Some (t, pos)
    /\ c = slice_from b pos ++ c'.

(** The record [r] describes a file carved from the device [data] into
    the directory [output_dir], as the file system [f] holds it: its path
    was made from a value of [rcvd] below [bound], its type is the one of
    the detection its content starts at, its size is the length of its
    content, and its content is a run of consecutive bytes of the
    device. *)
Definition carved (output_dir : string) (data : bytes) (f : gmap string bytes)
    (bound : Z) (r : FileInfo) : Prop :=
  exists n t c,
    0 <= n < bound
    /\ path r = recovered_path output_dir n t /\ type r = ext t
    /\ f !! path r = Some c /\ size r = len c
    /\ detected_at data t c
    /\ slice_of c data.

(** The paths of the files a scan creates in [output_dir]. *)
Definition output_name (output_dir p : string) : Prop :=
  exists n t, p = recovered_path output_dir n t.

(** [f'] holds what [f] holds at every path that is not the name of a
    carved file. *)
Definition untouched (output_dir : string) (f f' : gmap string bytes) : Prop :=
  forall p, ~ output_name output_dir p -> f' !! p = f !! p.

(** The block read last is a block of the device, followed by the
    blocks of what is not read yet; once a read has returned nothing,
    nothing is left. *)
Definition aligned (data : bytes) (v : Vars) (w : World) : Prop :=
  if truthy (byte v)
  then exists bs, blocks data = bs ++ byte v :: blocks (dev_data w)
  else dev_data w = [].

(** The block read last is followed on the device by the bytes not read
    yet. *)
Definition consumed (data : bytes) (v : Vars) (w : World) : Prop :=
  (exists pre, data = pre ++ byte v ++ dev_data w) /\ aligned data v w.

(** The invariant of the scan of the device [data] from the file system
    [f0]. *)
Definition carve_inv (output_dir : string) (data : bytes) (f0 : gmap string bytes)
    (v : Vars) (w : World) : Prop :=
  rcvd v = Z.of_nat (List.length (recovered_files v))
  /\ Forall (carved output_dir data (files w) (rcvd v)) (recovered_files v)
  /\ consumed data v w.

Definition carve_post (output_dir : string) (data : bytes) (f0 : gmap string bytes)
    (o : outcome Vars) (w : World) : Prop :=
  untouched output_dir f0 (files w)
  /\ match o with
     | Ret v => carve_inv output_dir data f0 v w
     | _ => True
     end.

(** What the inner loop leaves of a file [fp] that held [c]: more bytes
    after [c], the whole being a run of bytes of the device; the other
    files, [rcvd] and the records are as they were. *)
Definition inner_post (data : bytes) (fp : string) (c : bytes) (v : Vars) (w : World)
    (o : outcome Vars) (w' : World) : Prop :=
  (forall p, p <> fp -> files w' !! p = files w !! p)
  /\ match o with
     | Ret v' =>
         rcvd v' = rcvd v /\ recovered_files v' = recovered_files v
         /\ consumed data v' w'
         /\ exists c', files w' !! fp = Some (c ++ c') /\ slice_of (c ++ c') data
     | _ => True
     end.

(** The closing message of a scan that returned [n] records. *)
Definition scan_complete_msg (n : nat) : string :=
  "Scan complete. Found " +:+ Text.dec (Z.of_nat n) +:+ " files.".

End CarvingVocabulary.

(* ================================================================== *)
(** * Vocabulary of the statements about the quarantine *)
(* ================================================================== *)

Module QuarantineVocabulary.
Import Bytes Verifier VerifierVocabulary.

Section WithLibraries.

Variable sha256_hex : bytes -> string.
Variable image_probe : bytes -> option (string * Z * Z).

(** What a verification makes of the record [fi], judged on the disk
    [d0], as the disk [d1] shows it afterwards. *)
Inductive accounted (dir : string) (d0 d1 : Disk) (fi : FileInfo) : FileInfo -> Prop :=
| accounted_missing :
    files d0 !! path fi = None ->
    files d1 !! path fi = None ->
    accounted dir d0 d1 fi (set_status fi "Missing")
| accounted_ok c :
    files d0 !! path fi = Some c ->
    verify_image_integrity image_probe d0 (path fi) (type fi) = true ->
    files d1 !! path fi = Some c ->
    accounted dir d0 d1 fi (set_status (set_hash fi (sha256_hex c)) "OK")
| accounted_moved c k :
    files d0 !! path fi = Some c ->
    verify_image_integrity image_probe d0 (path fi) (type fi) = false ->
    0 < k ->
    files d1 !! path fi = None ->
    files d1 !! corrupted_path dir k (path fi) = Some c ->
    accounted dir d0 d1 fi
      (set_status (set_path (set_hash fi (sha256_hex c))
                            (corrupted_path dir k (path fi)))
                  "Corrupted")
| accounted_not_moved c :
    files d0 !! path fi = Some c ->
    verify_image_integrity image_probe d0 (path fi) (type fi) = false ->
    files d1 !! path fi = Some c ->
    accounted dir d0 d1 fi
      (set_status (set_hash fi (sha256_hex c)) "Corrupted (not moved)").

End WithLibraries.

(** The records the verification has moved to the quarantine. *)
Definition quarantined (l : list FileInfo) : list FileInfo :=
  List.filter (fun r => String.eqb (status r) "Corrupted") l.

End QuarantineVocabulary.

(* ================================================================== *)
(** * Text operations of the run *)
(* ================================================================== *)

Module Strings.

(** The double quote and the line feed. *)
Definition dq : string := String (ascii_of_nat 34) EmptyString.
Definition nl : string := String (ascii_of_nat 10) EmptyString.

(** [s.lstrip(c)] and [s.rstrip(c)] for a single character [c]. *)
Fixpoint lstrip (c : ascii) (s : string) : string :=
  match s with
  | EmptyString => EmptyString
  | String a s' => if Ascii.eqb a c then lstrip c s' else s
  end.

Fixpoint rstrip (c : ascii) (s : string) : string :=
  match s with
  | EmptyString => EmptyString
  | String a s' =>
      match rstrip c s' with
      | EmptyString => if Ascii.eqb a c then EmptyString else String a EmptyString
      | r => String a r
      end
  end.

(** [s.strip(c)] *)
Definition strip (c : ascii) (s : string) : string := rstrip c (lstrip c s).

(** [sub in s] *)
Fixpoint contains (sub s : string) : bool :=
  String.prefix sub s
  || match s with
     | EmptyString => false
     | String _ s' => contains sub s'
     end.

(** [s.lower()], on the letters A to Z: no other character becomes a
    letter of the extensions the extractor looks for. *)
Definition lower_ascii (c : ascii) : ascii :=
  let n := nat_of_ascii c in
  if Nat.leb 65 n && Nat.leb n 90 then ascii_of_nat (n + 32) else c.

Fixpoint lower (s : string) : string :=
  match s with
  | EmptyString => EmptyString
  | String c s' => String (lower_ascii c) (lower s')
  end.

(** [os.path.splitext] (POSIX flavour).  The characters are read from
    the end: the extension starts at the last dot, when that dot comes
    after the last separator. *)
Fixpoint split_last_dot (r acc : list ascii) : option (list ascii * list ascii) :=
  match r with
  | [] => None
  | c :: r' =>
      if Ascii.eqb c "/" then None
      else if Ascii.eqb c "." then Some (r', c :: acc)
      else split_last_dot r' (c :: acc)
  end.

(** Leading dots do not open an extension: some character of the name,
    before the last dot, must be no dot. *)
Fixpoint has_name_char (r : list ascii) : bool :=
  match r with
  | [] => false
  | c :: r' =>
      if Ascii.eqb c "/" then false
      else if Ascii.eqb c "." then has_name_char r'
      else true
  end.

Definition splitext (p : string) : string * string :=
  match split_last_dot (rev (list_ascii_of_string p)) [] with
  | Some (r, e) =>
      if has_name_char r
      then (string_of_list_ascii (rev r), string_of_list_ascii e)
      else (p, EmptyString)
  | None => (p, EmptyString)
  end.

End Strings.

(* ================================================================== *)
(** * The host of a run *)
(* ================================================================== *)

Module Host.
Import Bytes.

(** What [shutil.copy2] does: it copies, or it raises, and then the
    destination is left alone or holds what was written of it. *)
Inductive copy_result :=
| Copied
| CopyFailed (left : option bytes).

(** What a run finds besides the device and the files: the listing of
    the tree it walks, the outcome of the operations on directories and
    whole files, the clock, the platform. *)
Record Host := mkHost {
  walk : string -> list (string * list string);
                                     (* [(root, files)] as [os.walk(top)] yields them *)
  makedirs_ok : string -> bool;      (* [os.makedirs(path, exist_ok=True)] succeeds *)
  copy : string -> string -> copy_result;
  move_ok : string -> string -> bool;  (* [shutil.move(src, dst)] succeeds *)
  open_ok : string -> bool;          (* [open(path, 'w')] succeeds *)
  report_time : string;              (* the clock, read for the HTML report *)
  fallback_time : string;            (* the clock, read for the text report *)
  system : string;                   (* [platform.system()] *)
  release : string;
  machine : string;
  processor : string;
  total_ram : Z                      (* [psutil.virtual_memory().total] *)
}.

End Host.

(* ================================================================== *)
(** * The report (report_generator.py) *)
(* ================================================================== *)

Module Report.
Import Bytes Carver Strings Host.

(** ** [_format_size] *)

(** [f"{x:.2f}"]: the decimal numeral with two decimals nearest to the
    value of the float, ties going to the even one. *)
Definition round_half_even (a b : Z) : Z :=
  let q := a / b in
  let r := a mod b in
  if 2 * r <? b then q
  else if b <? 2 * r then q + 1
  else if Z.even q then q else q + 1.

Definition two_digits (z : Z) : string :=
  if z <? 10 then "0" +:+ Text.dec z else Text.dec z.

Definition fixed2 (x : spec_float) : string :=
  match x with
  | S754_zero s => (if s then "-" else EmptyString) +:+ "0.00"
  | S754_infinity s => if s then "-inf" else "inf"
  | S754_nan => "nan"
  | S754_finite s m e =>
      let hundredths :=
        if 0 <=? e then Z.pos m * 100 * 2 ^ e
        else round_half_even (Z.pos m * 100) (2 ^ (- e)) in
      (if s then "-" else EmptyString)
      +:+ Text.dec (hundredths / 100) +:+ "." +:+ two_digits (hundredths mod 100)
  end.

Definition size_names : list string := ["B"; "KB"; "MB"; "GB"; "TB"].

(** The [while] loop, once [size_bytes] is a float: at most
    [len(size_names) - 1] divisions in all. *)
Fixpoint scale (fuel : nat) (size_bytes : spec_float) (i : nat) : spec_float * nat :=
  match fuel with
  | O => (size_bytes, i)
  | S fuel' =>
      if SFleb (Float64.of_int 1024) size_bytes
         && Nat.ltb i (List.length size_names - 1)
      then scale fuel' (Float64.div size_bytes (Float64.of_int 1024)) (i + 1)
      else (size_bytes, i)
  end.

(** [_format_size(size_bytes)] for an int.  The first test of the loop
    compares ints; the first division gives the float nearest to the
    quotient. *)
Definition format_size (size_bytes : Z) : string :=
  if size_bytes =? 0 then "0 B"
  else
    let '(x, i) :=
      if 1024 <=? size_bytes
      then scale (List.length size_names - 1)
                 (Float64.div (Float64.of_int size_bytes) (Float64.of_int 1024)) 1
      else (Float64.of_int size_bytes, 0%nat) in
    fixed2 x +:+ " " +:+ nth i size_names EmptyString.

(** ** The statistics (lines 34-40) *)

Definition count (p : FileInfo -> bool) (file_list : list FileInfo) : Z :=
  Z.of_nat (List.length (List.filter p file_list)).

Definition total_files (file_list : list FileInfo) : Z :=
  Z.of_nat (List.length file_list).
Definition ok_files (file_list : list FileInfo) : Z :=
  count (fun f => String.eqb (status f) "OK") file_list.
Definition corrupted_files (file_list : list FileInfo) : Z :=
  count (fun f => contains "Corrupted" (status f)) file_list.
Definition copied_files (file_list : list FileInfo) : Z :=
  count (fun f => String.eqb (status f) "Copied") file_list.
Definition total_size (file_list : list FileInfo) : Z :=
  fold_right (fun f acc => size f + acc) 0 file_list.

(** ** The text of the reports *)

(** Lines 148-154. *)
Definition status_class (status : string) : string :=
  if String.eqb status "OK" then "status-ok"
  else if contains "Corrupted" status then "status-corrupted"
  else if String.eqb status "Copied" then "status-copied"
  else EmptyString.

(** [file_info.get('hash', 'N/A')] *)
Definition hash_text (file_info : FileInfo) : string :=
  match hash file_info with
  | Some h => h
  | None => "N/A"
  end.

(** The first [f.write] of the HTML report (lines 44-144). *)
Definition html_head (h : Host) (file_list : list FileInfo)
    (scan_type target_path : string) : string :=
  "<!DOCTYPE html>
<html lang="
  +:+ dq
  +:+ "en"
  +:+ dq
  +:+ ">
<head>
    <meta charset="
  +:+ dq
  +:+ "UTF-8"
  +:+ dq
  +:+ ">
    <meta name="
  +:+ dq
  +:+ "viewport"
  +:+ dq
  +:+ " content="
  +:+ dq
  +:+ "width=device-width, initial-scale=1.0"
  +:+ dq
  +:+ ">
    <title>Image Recovery Report</title>
    <style>
        body {
            font-family: Arial, sans-serif;
            line-height: 1.6;
            color: #333;
            max-width: 1200px;
            margin: 0 auto;
            padding: 20px;
        }
        h1, h2, h3 {
            color: #2c3e50;
        }
        table {
            width: 100%;
            border-collapse: collapse;
            margin-bottom: 20px;
        }
        th, td {
            border: 1px solid #ddd;
            padding: 8px;
            text-align: left;
        }
        th {
            background-color: #f2f2f2;
        }
        tr:nth-child(even) {
            background-color: #f9f9f9;
        }
        .summary {
            background-color: #f8f9fa;
            padding: 15px;
            border-radius: 5px;
            margin-bottom: 20px;
        }
        .status-ok {
            color: green;
        }
        .status-corrupted {
            color: red;
        }
        .status-copied {
            color: blue;
        }
    </style>
</head>
<body>
    <h1>Image Recovery Report</h1>
    
    <div class="
  +:+ dq
  +:+ "summary"
  +:+ dq
  +:+ ">
        <h2>Summary</h2>
        <p><strong>Date/Time:</strong> "
  +:+ report_time h
  +:+ "</p>
        <p><strong>Scan Type:</strong> "
  +:+ scan_type
  +:+ "</p>
        <p><strong>Target Path:</strong> "
  +:+ target_path
  +:+ "</p>
        <p><strong>Total Files:</strong> "
  +:+ Text.dec (total_files file_list)
  +:+ "</p>
        <p><strong>Successfully Recovered:</strong> "
  +:+ Text.dec (ok_files file_list)
  +:+ "</p>
        <p><strong>Corrupted Files:</strong> "
  +:+ Text.dec (corrupted_files file_list)
  +:+ "</p>
        <p><strong>Existing Files Copied:</strong> "
  +:+ Text.dec (copied_files file_list)
  +:+ "</p>
        <p><strong>Total Data Size:</strong> "
  +:+ format_size (total_size file_list)
  +:+ "</p>
    </div>
    
    <h2>System Information</h2>
    <table>
        <tr>
            <th>Item</th>
            <th>Value</th>
        </tr>
        <tr>
            <td>Operating System</td>
            <td>"
  +:+ system h
  +:+ " "
  +:+ release h
  +:+ "</td>
        </tr>
        <tr>
            <td>Machine</td>
            <td>"
  +:+ machine h
  +:+ "</td>
        </tr>
        <tr>
            <td>Processor</td>
            <td>"
  +:+ processor h
  +:+ "</td>
        </tr>
        <tr>
            <td>Total RAM</td>
            <td>"
  +:+ format_size (total_ram h)
  +:+ "</td>
        </tr>
    </table>
    
    <h2>Recovered Files</h2>
    <table>
        <tr>
            <th>#</th>
            <th>File Name</th>
            <th>Type</th>
            <th>Size</th>
            <th>Status</th>
            <th>Hash</th>
        </tr>
".

(** One row of the table (lines 156-164). *)
Definition html_row (i : Z) (file_info : FileInfo) : string :=
  "
        <tr>
            <td>"
  +:+ Text.dec i
  +:+ "</td>
            <td>"
  +:+ Text.basename (path file_info)
  +:+ "</td>
            <td>"
  +:+ type file_info
  +:+ "</td>
            <td>"
  +:+ format_size (size file_info)
  +:+ "</td>
            <td class="
  +:+ dq
  +:+ status_class (status file_info)
  +:+ dq
  +:+ ">"
  +:+ status file_info
  +:+ "</td>
            <td>"
  +:+ hash_text file_info
  +:+ "</td>
        </tr>".

(** Lines 167-173. *)
Definition html_tail : string :=
  "
    </table>
    
    <p><em>Report generated by Image Recovery Tool</em></p>
</body>
</html>
".

(** The header of the text report (lines 185-194), one [f.write] each. *)
Definition text_head (h : Host) (file_list : list FileInfo)
    (scan_type target_path : string) : list string :=
  [ "Image Recovery Report" +:+ nl;
    "Date/Time: " +:+ fallback_time h +:+ nl;
    "Scan Type: " +:+ scan_type +:+ nl;
    "Target Path: " +:+ target_path +:+ nl;
    "Total Files: " +:+ Text.dec (total_files file_list) +:+ nl;
    "Successfully Recovered: " +:+ Text.dec (ok_files file_list) +:+ nl;
    "Corrupted Files: " +:+ Text.dec (corrupted_files file_list) +:+ nl;
    "Total Data Size: " +:+ format_size (total_size file_list) +:+ nl +:+ nl;
    "File List:" +:+ nl ].

(** One line of the list of files (lines 196-199). *)
Definition text_row (i : Z) (file_info : FileInfo) : string :=
  Text.dec i +:+ ". " +:+ Text.basename (path file_info) +:+ " - " +:+ type file_info +:+ " - " +:+ format_size (size file_info) +:+ " - " +:+ status file_info +:+ nl.

(** ** Writing *)

(** [open(path, 'w')]: the file is created or emptied, or the call
    raises. *)
Definition report_open (h : Host) (path : string) : M unit := fun w =>
  if open_ok h path
  then (Ret tt, with_files w (<[path := []]> (files w)) (write_budget w))
  else (Raise (FileNotFoundError path), w).

(** [f.write(text)] *)
Definition report_write (path text : string) : M unit :=
  fileN_write path (list_byte_of_string text).

Fixpoint write_all (path : string) (texts : list string) : M unit :=
  match texts with
  | [] => ret tt
  | text :: rest => let* _ := report_write path text in write_all path rest
  end.

(** [for i, file_info in enumerate(file_list, 1): f.write(row)] *)
Fixpoint write_rows (row : Z -> FileInfo -> string) (path : string) (i : Z)
    (file_list : list FileInfo) : M unit :=
  match file_list with
  | [] => ret tt
  | file_info :: rest =>
      let* _ := report_write path (row i file_info) in
      write_rows row path (i + 1) rest
  end.

(** The [try] block (lines 33-176). *)
Definition write_html (h : Host) (file_list : list FileInfo)
    (report_path scan_type target_path : string) : M string :=
  let* _ := report_open h report_path in
  let* _ := report_write report_path (html_head h file_list scan_type target_path) in
  let* _ := write_rows html_row report_path 1 file_list in
  let* _ := report_write report_path html_tail in
  ret report_path.

(** The fallback (lines 183-201). *)
Definition write_text (h : Host) (file_list : list FileInfo)
    (report_path scan_type target_path : string) : M string :=
  let text_report_path := fst (splitext report_path) +:+ ".txt" in
  let* _ := report_open h text_report_path in
  let* _ := write_all text_report_path (text_head h file_list scan_type target_path) in
  let* _ := write_rows text_row text_report_path 1 file_list in
  ret text_report_path.

(** [generate_report]: the path of the report written, [None] when
    neither report could be written. *)
Definition generate_report (h : Host) (file_list : list FileInfo)
    (report_path scan_type target_path : string) : M (option string) := fun w =>
  match write_html h file_list report_path scan_type target_path w with
  | (Ret p, w1) => (Ret (Some p), w1)
  | (OutOfFuel, w1) => (OutOfFuel, w1)
  | (Raise _, w1) =>
      match write_text h file_list report_path scan_type target_path w1 with
      | (Ret p, w2) => (Ret (Some p), w2)
      | (OutOfFuel, w2) => (OutOfFuel, w2)
      | (Raise _, w2) => (Ret None, w2)
      end
  end.

End Report.

(* ================================================================== *)
(** * Copying existing images (existing.py) *)
(* ================================================================== *)

Module Existing.
Import Bytes Carver Strings Host.

(** The dictionaries of [extracted_files]: those of the carver, and the
    key ['original_path']. *)
Record ExtractedInfo := mkExtractedInfo {
  info : FileInfo;
  original_path : string
}.

Definition supported_extensions : list string := [".jpg"; ".jpeg"; ".png"].

Definition supported (file_extension : string) : bool :=
  existsb (String.eqb file_extension) supported_extensions.

(** [file_extension[1:]] *)
Definition without_dot (file_extension : string) : string :=
  match file_extension with
  | EmptyString => EmptyString
  | String _ s => s
  end.

Definition image_path (output_path : string) (file_count : Z) (file_extension : string)
    : string :=
  Text.join output_path ("image_" +:+ Text.dec file_count +:+ file_extension).

(** The body of [for file in files] (lines 38-67), on the counter and
    the list: a file that cannot be measured or copied is skipped, the
    second after it has taken a number. *)
Definition extract_one (h : Host) (output_path root file : string)
    (st : Z * list ExtractedInfo) : M (Z * list ExtractedInfo) := fun w =>
  let '(file_count, extracted_files) := st in
  let file_path := Text.join root file in
  let file_extension := lower (snd (splitext file)) in
  if negb (supported file_extension) then (Ret st, w)
  else
    match files w !! file_path with
    | None => (Ret st, w)
    | Some c =>
        let file_size := len c in
        let file_count := file_count + 1 in
        let output_file_path := image_path output_path file_count file_extension in
        match copy h file_path output_file_path with
        | Copied =>
            (Ret (file_count,
                  extracted_files
                  ++ [mkExtractedInfo
                        (mkFileInfo output_file_path file_size
                                    (without_dot file_extension) "Copied" None)
                        file_path]),
             with_files w (<[output_file_path := c]> (files w)) (write_budget w))
        | CopyFailed None => (Ret (file_count, extracted_files), w)
        | CopyFailed (Some part) =>
            (Ret (file_count, extracted_files),
             with_files w (<[output_file_path := part]> (files w)) (write_budget w))
        end
    end.

Fixpoint extract_files (h : Host) (output_path root : string) (files : list string)
    (st : Z * list ExtractedInfo) : M (Z * list ExtractedInfo) :=
  match files with
  | [] => ret st
  | file :: rest =>
      let* st := extract_one h output_path root file st in
      extract_files h output_path root rest st
  end.

(** [for root, dirs, files in os.walk(source_path)] *)
Fixpoint extract_tree (h : Host) (output_path : string)
    (listing : list (string * list string)) (st : Z * list ExtractedInfo)
    : M (Z * list ExtractedInfo) :=
  match listing with
  | [] => ret st
  | (root, files) :: rest =>
      let* st := extract_files h output_path root files st in
      extract_tree h output_path rest st
  end.

(** [extract_images]: when the output directory cannot be made, the
    handler returns the list, still empty. *)
Definition extract_images (h : Host) (source_path output_path : string)
    : M (list ExtractedInfo) :=
  if negb (makedirs_ok h output_path) then ret []
  else
    let* st := extract_tree h output_path (walk h source_path) (0, []) in
    ret (snd st).

End Existing.

(* ================================================================== *)
(** * The worker (main.py, run_recovery and stop) *)
(* ================================================================== *)

Module Worker.
Import Bytes Carver Strings Host.

(** A dictionary handed to [recovery_complete]: a record of the carver
    or of the extractor. *)
Record Entry := mkEntry {
  entry_info : FileInfo;
  entry_original_path : option string
}.

Definition carved_entry (fi : FileInfo) : Entry := mkEntry fi None.
Definition extracted_entry (e : Existing.ExtractedInfo) : Entry :=
  mkEntry (Existing.info e) (Some (Existing.original_path e)).

(** The arguments of [recovery_complete.emit]. *)
Record Completion := mkCompletion {
  all_files : list Entry;
  output_dir : string;
  report_path : string
}.

(** Lines 37-41. *)
Definition raw_path_of (target_path : string) : string :=
  if String.prefix "\\.\" target_path then target_path
  else
    let drive_letter := String.substring 0 2 (strip "\" target_path) in
    "\\.\" +:+ drive_letter.

Section WithLibraries.

Variable sha256_hex : bytes -> string.
Variable image_probe : bytes -> option (string * Z * Z).

(** [FileIntegrityVerifier().verify_files(all_files, corrupted_dir)] on
    the files of the world. *)
Definition verify (h : Host) (file_list : list FileInfo) (corrupted_dir : string)
    : M (list FileInfo) := fun w =>
  let '(verified_files, d) :=
    Verifier.verify_files sha256_hex image_probe file_list corrupted_dir
      (Verifier.mkDisk (files w) (makedirs_ok h corrupted_dir) (move_ok h)) in
  (Ret verified_files, with_files w (Verifier.files d) (write_budget w)).

(** The [try] block of [run_recovery] (lines 34-70): what it hands to
    [recovery_complete], [None] when it does not emit that signal. *)
Definition run_recovery_body (h : Host) (scan_type target_path output_dir : string)
    : M (option Completion) :=
  let* _ := emit (status_updated
                    ("Initializing " +:+ scan_type +:+ " on " +:+ target_path +:+ "...")) in
  let raw_path := raw_path_of target_path in
  let* _ := emit (progress_updated 0) in
  let* all_files :=
    if String.eqb scan_type "Existing Images" then
      let* _ := emit (status_updated "Scanning for existing images...") in
      let* extracted := Existing.extract_images h target_path output_dir in
      ret (map extracted_entry extracted)
    else
      let* _ := emit (status_updated "Performing raw recovery...") in
      let* recovered := raw_recovery raw_path output_dir in
      let* _ := emit (status_updated "Verifying recovered files...") in
      let corrupted_dir := Text.join output_dir "corrupted" in
      let* verified := verify h recovered corrupted_dir in
      ret (map carved_entry verified) in
  let* _ := emit (status_updated "Generating recovery report...") in
  let report_path := Text.join output_dir "recovery_report.html" in
  let* _ := Report.generate_report h (map entry_info all_files) report_path
              scan_type target_path in
  let* _ := emit (progress_updated 100) in
  let* running := is_running in
  if running then ret (Some (mkCompletion all_files output_dir report_path))
  else ret None.

(** [run_recovery], with its handler (lines 72-73). *)
Definition run_recovery (h : Host) (scan_type target_path output_dir : string)
    : M (option Completion) := fun w =>
  match run_recovery_body h scan_type target_path output_dir w with
  | (Raise e, w') =>
      (let* _ := emit (error_occurred ("Error during recovery: " +:+ exn_text e)) in
       ret None) w'
  | r => r
  end.

End WithLibraries.

(** [stop]: from now on [_is_running] is seen [False]. *)
Definition stop : M unit := fun w =>
  (Ret tt,
   with_signals (with_run w (Some 0%nat))
     (signals w ++ [status_updated "Recovery process stopping..."])).

End Worker.

(* ================================================================== *)
(** * Vocabulary of the statements about a run *)
(* ================================================================== *)

Module RunVocabulary.
Import Bytes Carver Vocabulary Strings Host.

(** The percentages [l] were emitted after the signals [before], they
    increase strictly from 0 and stay below [prev], itself at most 95. *)
Definition appended_progress (before : list signal) (prev : Z) (s : list signal)
    : Prop :=
  exists l, progress_of s = progress_of before ++ l
            /\ increasing_from 0 l /\ Forall (fun y => y <= prev) l
            /\ 0 <= prev <= 95.

(** [w'] is [w] but for its files and its budget of writes. *)
Definition only_files_changed (w w' : World) : Prop :=
  w' = with_files w (files w') (write_budget w').

(** The operation [m] returns a value and changes nothing but files. *)
Definition file_operation {A} (m : M A) : Prop :=
  forall w, (exists a, fst (m w) = Ret a) /\ only_files_changed w (snd (m w)).

(** The operation [m] returns or raises, and changes nothing but files. *)
Definition file_attempt {A} (m : M A) : Prop :=
  forall w, fst (m w) <> OutOfFuel /\ only_files_changed w (snd (m w)).

(** The flag [_is_running] as the run sees it from now on: never
    cleared, or cleared already. *)
Definition never_stopped (w : World) : Prop := run_budget w = None.
Definition stopped (w : World) : Prop := run_budget w = Some 0%nat.

(** A host with an empty tree, where every operation on files succeeds. *)
Definition quiet_host : Host :=
  mkHost (fun _ => []) (fun _ => true) (fun _ _ => Copied) (fun _ _ => true)
         (fun _ => true) EmptyString EmptyString EmptyString EmptyString
         EmptyString EmptyString 0.

End RunVocabulary.

(* ================================================================== *)
(** * Vocabulary of the statements about the reads of a scan *)
(* ================================================================== *)

Module ReadsVocabulary.
Import Bytes Carver Vocabulary.




End ReadsVocabulary.

(* ================================================================== *)
(** * Reasoning about the monad *)
(* ================================================================== *)

Module Logic.
Import Bytes Carver Vocabulary.

Lemma wp_ret {A} (a : A) Q w : Q (Ret a) w -> wp (ret a) Q w.
Proof. exact (fun H => H). Qed.

Lemma wp_raise {A} e (Q : outcome A -> World -> Prop) w :
  Q (Raise e) w -> wp (raise e) Q w.
Proof. exact (fun H => H). Qed.

Lemma wp_out_of_fuel {A} (Q : outcome A -> World -> Prop) w :
  Q OutOfFuel w -> wp out_of_fuel Q w.
Proof. exact (fun H => H). Qed.

Lemma wp_bind {A B} (m : M A) (k : A -> M B) Q w :
  wp m (fun o w' =>
          match o with
          | Ret a => wp (k a) Q w'
          | Raise e => Q (Raise e) w'
          | OutOfFuel => Q OutOfFuel w'
          end) w ->
  wp (bind m k) Q w.
Proof.
  unfold wp, bind. destruct (m w) as [[a | e |] w']; simpl; auto.
Qed.

Lemma wp_mono {A} (m : M A) (Q Q' : outcome A -> World -> Prop) w :
  wp m Q w -> (forall o w', Q o w' -> Q' o w') -> wp m Q' w.
Proof. unfold wp. auto. Qed.

Lemma wp_emit s Q w :
  Q (Ret tt) (with_signals w (signals w ++ [s])) -> wp (emit s) Q w.
Proof. exact (fun H => H). Qed.

Lemma wp_fileD_read n Q w :
  (spend (read_budget w) = None -> Q (Raise ReadError) w) ->
  (forall rb, spend (read_budget w) = Some rb ->
     Q (Ret (slice_to (dev_data w) n)) (with_dev w (slice_from (dev_data w) n) rb)) ->
  wp (fileD_read n) Q w.
Proof.
  unfold wp, fileD_read. destruct (spend (read_budget w)); simpl; auto.
Qed.

Lemma wp_is_running Q w :
  (spend (run_budget w) = None -> Q (Ret false) w) ->
  (forall b, spend (run_budget w) = Some b -> Q (Ret true) (with_run w b)) ->
  wp is_running Q w.
Proof.
  unfold wp, is_running. destruct (spend (run_budget w)); simpl; auto.
Qed.

Lemma wp_fileN_open p Q w :
  Q (Ret tt) (with_files w (<[p := []]> (files w)) (write_budget w)) ->
  wp (fileN_open p) Q w.
Proof. exact (fun H => H). Qed.

Lemma wp_fileN_write p data Q w :
  (spend (write_budget w) = None -> Q (Raise WriteError) w) ->
  (forall wb, spend (write_budget w) = Some wb ->
     Q (Ret tt)
       (with_files w (<[p := default [] (files w !! p) ++ data]> (files w)) wb)) ->
  wp (fileN_write p data) Q w.
Proof.
  unfold wp, fileN_write. destruct (spend (write_budget w)); simpl; auto.
Qed.

Lemma wp_getsize p Q w :
  (files w !! p = None -> Q (Raise (FileNotFoundError p)) w) ->
  (forall c, files w !! p = Some c -> Q (Ret (len c)) w) ->
  wp (getsize p) Q w.
Proof.
  unfold wp, getsize. destruct (files w !! p); simpl; auto.
Qed.

Lemma wp_path_exists Q w :
  Q (Ret (dev_present w)) w -> wp path_exists Q w.
Proof. exact (fun H => H). Qed.

Lemma wp_read_total_sectors Q w :
  Q (Ret (total_sectors_of (dev_size w))) w -> wp read_total_sectors Q w.
Proof. exact (fun H => H). Qed.

(** One backward step through the next operation of a program. *)
Ltac wp_step :=
  lazymatch goal with
  | |- wp (bind _ _) _ _ => apply wp_bind
  | |- wp (ret _) _ _ => apply wp_ret
  | |- wp (raise _) _ _ => apply wp_raise
  | |- wp out_of_fuel _ _ => apply wp_out_of_fuel
  | |- wp (emit _) _ _ => apply wp_emit
  | |- wp (fileD_read _) _ _ => apply wp_fileD_read; [intros ? | intros ? ?]
  | |- wp is_running _ _ => apply wp_is_running; [intros ? | intros ? ?]
  | |- wp (fileN_open _) _ _ => apply wp_fileN_open
  | |- wp (fileN_write _ _) _ _ => apply wp_fileN_write; [intros ? | intros ? ?]
  | |- wp (getsize _) _ _ => apply wp_getsize; [intros ? | intros ? ?]
  | |- wp path_exists _ _ => apply wp_path_exists
  | |- wp read_total_sectors _ _ => apply wp_read_total_sectors
  | |- wp (if ?c then _ else _) _ _ => destruct c eqn:?
  | |- wp (match ?c with _ => _ end) _ _ => destruct c eqn:?
  end.

End Logic.

(* ================================================================== *)
(** * Facts about byte strings *)
(* ================================================================== *)

Module BytesFacts.
Import Bytes.

Lemma byte_eqb_eq (a b : Byte.byte) : Byte.eqb a b = true <-> a = b.
Proof.
  split; [apply Byte.byte_dec_bl | apply Byte.byte_dec_lb].
Qed.

Lemma starts_with_firstn sub : forall s,
  starts_with sub s = true <-> firstn (List.length sub) s = sub.
Proof.
  induction sub as [| a sub IH]; intros s; simpl.
  - tauto.
  - destruct s as [| b s]; simpl.
    + split; discriminate.
    + rewrite andb_true_iff, byte_eqb_eq, IH. split.
      * intros [-> ->]. reflexivity.
      * intros H. injection H as -> H. tauto.
Qed.

Lemma starts_with_length sub s :
  starts_with sub s = true -> (List.length sub <= List.length s)%nat.
Proof.
  rewrite starts_with_firstn. intros H.
  rewrite <- H at 1. rewrite length_firstn. lia.
Qed.

(** [find_from] returns either [-1], and then [sub] occurs nowhere, or
    the offset of its first occurrence. *)
Lemma find_from_spec sub : forall s i,
  (find_from sub s i = -1
   /\ forall j, starts_with sub (skipn j s) = false)
  \/ (exists j : nat,
        find_from sub s i = i + Z.of_nat j
        /\ starts_with sub (skipn j s) = true
        /\ forall j' : nat, (j' < j)%nat -> starts_with sub (skipn j' s) = false).
Proof.
  induction s as [| b s IH]; intros i; simpl.
  - destruct (starts_with sub []) eqn:E.
    + right. exists 0%nat. simpl. rewrite E. repeat split; [lia | lia].
    + left. split; [reflexivity |]. intros j. now rewrite skipn_nil.
  - destruct (starts_with sub (b :: s)) eqn:E.
    + right. exists 0%nat. simpl. rewrite E. repeat split; [lia | lia].
    + destruct (IH (i + 1)) as [[H1 H2] | (j & H1 & H2 & H3)].
      * left. split; [exact H1 |]. intros [| j]; simpl; auto.
      * right. exists (S j). simpl. repeat split; [lia | exact H2 |].
        intros [| j'] Hj'; simpl; [exact E | apply H3; lia].
Qed.

Lemma find_found s sub k :
  find s sub = k -> 0 <= k ->
  starts_with sub (skipn (Z.to_nat k) s) = true
  /\ k + len sub <= len s.
Proof.
  unfold find. intros Hk Hpos.
  destruct (find_from_spec sub s 0) as [[H1 _] | (j & H1 & H2 & H3)]; [lia |].
  rewrite H1 in Hk. rewrite Z.add_0_l in Hk. subst k. rewrite Nat2Z.id.
  split; [exact H2 |].
  destruct (Nat.le_gt_cases j (List.length s)) as [Hle | Hgt].
  - apply starts_with_length in H2. rewrite length_skipn in H2.
    unfold len. lia.
  - specialize (H3 (List.length s) Hgt).
    rewrite skipn_all in H3. rewrite skipn_all2 in H2 by lia. congruence.
Qed.

Lemma find_not_found s sub :
  find s sub < 0 -> forall j, starts_with sub (skipn j s) = false.
Proof.
  unfold find. intros Hk.
  destruct (find_from_spec sub s 0) as [[_ H2] | (j & H1 & _)]; [exact H2 | lia].
Qed.

Lemma find_occurs s sub j :
  starts_with sub (skipn j s) = true -> 0 <= find s sub.
Proof.
  intros H. destruct (Z.le_gt_cases 0 (find s sub)) as [Hle | Hgt]; [exact Hle |].
  rewrite find_not_found in H by lia. discriminate.
Qed.

End BytesFacts.

(* ================================================================== *)
(** * Facts about paths *)
(* ================================================================== *)

Module TextFacts.
Import Carver Verifier Vocabulary VerifierVocabulary.

Lemma append_inv_head s : forall x y, s +:+ x = s +:+ y -> x = y.
Proof.
  induction s as [| c s IH]; simpl; intros x y H; [exact H |].
  injection H as H. now apply IH.
Qed.

Lemma prefix_append a : forall b, String.prefix a (a +:+ b) = true.
Proof.
  induction a as [| c a IH]; intros b; simpl.
  - now destruct b.
  - destruct (ascii_dec c c) as [_ | Hne]; [apply IH | now elim Hne].
Qed.

Lemma uint_lacks c d :
  c = "_"%char \/ c = "."%char -> lacks c (NilEmpty.string_of_uint d) = true.
Proof. intros [-> | ->]; induction d; simpl; auto. Qed.

(** A decimal numeral holds neither an underscore nor a dot. *)
Lemma dec_lacks c z : c = "_"%char \/ c = "."%char -> lacks c (Text.dec z) = true.
Proof.
  intros Hc. unfold Text.dec, NilZero.string_of_int, NilZero.string_of_uint.
  destruct (Z.to_int z) as [d | d]; destruct d;
    try (apply (uint_lacks c _ Hc));
    destruct Hc as [-> | ->]; simpl; auto;
    try (apply (uint_lacks "_" _ (or_introl eq_refl)));
    try (apply (uint_lacks "." _ (or_intror eq_refl))).
Qed.

Lemma dec_inj k k' : Text.dec k = Text.dec k' -> k = k'.
Proof.
  unfold Text.dec. intros H. apply to_int_inj.
  assert (Hnn : forall z, Z.to_int z <> Decimal.Pos Decimal.Nil
                          /\ Z.to_int z <> Decimal.Neg Decimal.Nil).
  { intros [| q | q]; simpl; split; try discriminate;
      intros [= Hq]; now apply DecimalPos.Unsigned.to_uint_nonnil in Hq. }
  destruct (Hnn k) as [H1 H2], (Hnn k') as [H1' H2'].
  pose proof (NilZero.isi _ H1 H2) as E. pose proof (NilZero.isi _ H1' H2') as E'.
  rewrite H in E. congruence.
Qed.

(** Two runs of characters other than [c], each followed by [c], that
    start equal strings are equal. *)
Lemma separator_inj c u : forall u' x x',
  lacks c u = true -> lacks c u' = true ->
  u +:+ String c x = u' +:+ String c x' -> u = u'.
Proof.
  induction u as [| a u IH]; intros [| a' u'] x x' Hu Hu' H; simpl in *.
  - reflexivity.
  - injection H as <- _. now rewrite Ascii.eqb_refl in Hu'.
  - injection H as -> _. now rewrite Ascii.eqb_refl in Hu.
  - injection H as -> H.
    apply andb_true_iff in Hu, Hu'. f_equal. eapply IH; eauto; tauto.
Qed.

Lemma corrupted_path_eq dir k p :
  corrupted_path dir k p
  = Text.dir_prefix dir +:+ "corrupted_" +:+ Text.dec k +:+ "_" +:+ Text.basename p.
Proof. reflexivity. Qed.

(** The quarantine name tells the counter it was made from. *)
Lemma corrupted_path_counter dir k p k' p' :
  corrupted_path dir k p = corrupted_path dir k' p' -> k = k'.
Proof.
  rewrite !corrupted_path_eq. intros H. apply append_inv_head in H.
  apply (append_inv_head "corrupted_") in H.
  apply dec_inj. eapply (separator_inj "_"); eauto using dec_lacks.
Qed.

Lemma corrupted_path_in_dir dir k p : in_dir dir (corrupted_path dir k p) = true.
Proof. unfold in_dir. rewrite corrupted_path_eq. apply prefix_append. Qed.

Lemma recovered_path_eq dir n t :
  recovered_path dir n t
  = Text.dir_prefix dir +:+ "recovered_" +:+ Text.dec n +:+ "." +:+ ext t.
Proof. reflexivity. Qed.

(** The name of a carved file tells the value of [rcvd] it was made
    from. *)
Lemma recovered_path_counter dir n t n' t' :
  recovered_path dir n t = recovered_path dir n' t' -> n = n'.
Proof.
  rewrite !recovered_path_eq. intros H. apply append_inv_head in H.
  apply (append_inv_head "recovered_") in H.
  apply dec_inj. eapply (separator_inj "."); eauto using dec_lacks.
Qed.

End TextFacts.

(* ================================================================== *)
(** * Facts about the carving engine *)
(* ================================================================== *)

Module CarverFacts.
Import Bytes Carver Vocabulary Logic.

(** ** Unfolding the loops *)

Lemma inner_loop_eq fuel total t fp fs est v :
  inner_loop fuel total t fp fs est v =
  let* running := is_running in
  if negb running then ret v else
  match fuel with
  | O => out_of_fuel
  | S fuel' =>
      let* b := fileD_read block_size in
      let v := read_into v b in
      let file_sectors := fs + 1 in
      let scan_progress := scan_progress (processed_sectors v) total in
      let estimated_file_size := adjust_estimate file_sectors est in
      let file_progress := file_progress file_sectors estimated_file_size in
      let combined_progress := combined_progress scan_progress in
      let current_progress := Z.max (prev_progress v) combined_progress in
      let current_progress := Z.min 95 current_progress in
      let* v :=
        if prev_progress v <? current_progress then
          let* _ := emit (progress_updated current_progress) in
          let* _ := emit (status_updated (recovering_msg t file_progress)) in
          ret (with_prev v current_progress)
        else ret v in
      if negb (truthy b) then ret v
      else
        let bfind := find b (end_signature t) in
        if 0 <=? bfind then
          let* _ := fileN_write fp (slice_to b (bfind + end_marker_length t)) in
          ret v
        else
          let* _ := fileN_write fp b in
          inner_loop fuel' total t fp file_sectors estimated_file_size v
  end.
Proof. destruct fuel; reflexivity. Qed.

Lemma outer_loop_eq fuel total dir v :
  outer_loop fuel total dir v =
  if negb (truthy (byte v)) then ret v else
  let* running := is_running in
  if negb running then ret v else
  match fuel with
  | O => out_of_fuel
  | S fuel' =>
      let* v :=
        match scan_signatures (byte v) with
        | Some (file_type, found_pos) =>
            carve_file fuel' total dir file_type found_pos v
        | None => ret v
        end in
      let* v := outer_advance total v in
      outer_loop fuel' total dir v
  end.
Proof. destruct fuel; reflexivity. Qed.

(** ** The progress signals and the records: an invariant of the scan *)

Lemma progress_of_app s t :
  progress_of (s ++ t) = progress_of s ++ progress_of t.
Proof.
  induction s as [| [p | m | m] s IH]; simpl; auto. now rewrite IH.
Qed.

Lemma increasing_from_snoc lo l p x :
  increasing_from lo l -> Forall (fun y => y <= p) l -> lo <= p -> p < x ->
  increasing_from lo (l ++ [x]).
Proof.
  revert lo. induction l as [| y l IH]; simpl; intros lo Hinc Hall Hlo Hx.
  - split; [lia | exact I].
  - destruct Hinc as [Hy Hinc]. inversion Hall as [| ? ? Hyp Hall']; subst.
    split; [exact Hy |]. apply IH; auto.
Qed.

Lemma increasing_from_weaken lo lo' l :
  lo' <= lo -> increasing_from lo l -> increasing_from lo' l.
Proof. destruct l; simpl; intros; [exact I | intuition lia]. Qed.

Lemma increasing_from_lower lo l :
  increasing_from lo l -> Forall (fun y => lo < y) l.
Proof.
  revert lo. induction l as [| y l IH]; simpl; intros lo H; constructor.
  - tauto.
  - destruct H as [Hy H]. apply IH in H.
    eapply Forall_impl; [exact H |]. simpl. intros; lia.
Qed.

Lemma recovered_only_snoc l r :
  recovered_only l -> status r = "Recovered" -> recovered_only (l ++ [r]).
Proof.
  intros Hl Hr. apply Forall_app. split; [exact Hl | constructor; [exact Hr | constructor]].
Qed.

(** Projections of worlds and variables after updates. *)
Ltac wsimpl :=
  cbn [signals files dev_data read_budget write_budget run_budget dev_present
       dev_size with_signals with_files with_dev with_run
       byte offs processed_sectors prev_progress rcvd recovered_files
       read_into with_prev] in *.

Ltac step := wp_step; lazy beta iota zeta delta [negb]; wsimpl.

(** The invariant of the scan, for any property [P prev s] of the value
    of [prev_progress] and of the signals emitted so far that survives
    a status message and a percentage above [prev] and at most 95:
    [P] holds and every record has status ['Recovered']. *)
Section ScanInvariant.

Variable P : Z -> list signal -> Prop.
Hypothesis P_status : forall prev s m,
  P prev s -> P prev (s ++ [status_updated m]).
Hypothesis P_progress : forall prev s x,
  P prev s -> prev < x -> x <= 95 -> P x (s ++ [progress_updated x]).

Local Ltac close_inv Hp Hr :=
  unfold scan_post, scan_inv; wsimpl;
  first [ split; [| exact Hr] | eexists ];
  first [ exact Hp
        | apply P_status; eapply P_progress;
          [exact Hp | lia | unfold periodic_progress; lia]
        | eapply P_progress;
          [exact Hp | lia | unfold periodic_progress; lia] ].

Local Ltac ltb_hyps :=
  repeat match goal with H : (_ <? _) = true |- _ => apply Z.ltb_lt in H end.

Lemma inner_loop_inv fuel total t fp : forall fs est v w,
  scan_inv P v w ->
  wp (inner_loop fuel total t fp fs est v) (scan_post P) w.
Proof.
  induction fuel as [| fuel IH]; intros fs est v w [Hp Hr];
    rewrite inner_loop_eq.
  - repeat step; close_inv Hp Hr.
  - repeat step; ltb_hyps; try apply IH; close_inv Hp Hr.
Qed.

Lemma carve_epilogue_inv t fp v w :
  scan_inv P v w -> wp (carve_epilogue t fp v) (scan_post P) w.
Proof.
  intros [Hp Hr]. unfold carve_epilogue. repeat step.
  - exists (prev_progress v). now apply P_status.
  - split; wsimpl.
    + now apply P_status.
    + now apply recovered_only_snoc.
Qed.

Lemma carve_file_inv fuel total dir t pos v w :
  scan_inv P v w -> wp (carve_file fuel total dir t pos v) (scan_post P) w.
Proof.
  intros [Hp Hr]. unfold carve_file. do 4 step.
  - exists (prev_progress v). exact Hp.
  - step. eapply wp_mono; [apply inner_loop_inv; split; [exact Hp | exact Hr] |].
    intros [v' | e |] w' Hpost; auto.
    now apply carve_epilogue_inv.
Qed.

Lemma outer_advance_inv total v w :
  scan_inv P v w -> wp (outer_advance total v) (scan_post P) w.
Proof.
  intros [Hp Hr]. unfold outer_advance.
  repeat step; ltb_hyps; close_inv Hp Hr.
Qed.

Lemma outer_loop_inv fuel total dir : forall v w,
  scan_inv P v w -> wp (outer_loop fuel total dir v) (scan_post P) w.
Proof.
  induction fuel as [| fuel IH]; intros v w Hinv; rewrite outer_loop_eq.
  - repeat step; try exact Hinv.
    destruct Hinv as [Hp _]. simpl. exists (prev_progress v). exact Hp.
  - step; [step; exact Hinv |].
    step. step; [step; exact Hinv |].
    step.
    assert (H1 : wp (match scan_signatures (byte v) with
                     | Some (file_type, found_pos) =>
                         carve_file fuel total dir file_type found_pos v
                     | None => ret v
                     end) (scan_post P) (with_run w b)).
    { destruct (scan_signatures (byte v)) as [[t pos] |].
      - apply carve_file_inv. exact Hinv.
      - step. exact Hinv. }
    eapply wp_mono; [exact H1 |].
    intros [v1 | e |] w1 Hpost; auto.
    step. eapply wp_mono; [apply outer_advance_inv; exact Hpost |].
    intros [v2 | e |] w2 Hpost2; auto.
Qed.

(** The [try] block: when it returns, the records are all
    ['Recovered'] and [P] held of the signals before the closing 98
    and message; otherwise [P] holds of the signals. *)
Lemma raw_recovery_body_inv fuel drive dir w :
  (forall m, P 0 (signals w ++ [status_updated m])) ->
  wp (raw_recovery_body fuel drive dir)
     (fun o w' =>
        match o with
        | Ret l =>
            recovered_only l
            /\ exists prev s m,
                 signals w' = s ++ [progress_updated 98; status_updated m]
                 /\ P prev s
        | _ => exists prev, P prev (signals w')
        end) w.
Proof.
  intros H0.
  unfold raw_recovery_body. do 5 step.
  { step. exists 0. apply H0. }
  do 4 step.
  { exists 0. apply H0. }
  step. eapply wp_mono.
  { apply outer_loop_inv. split; wsimpl; [apply H0 | constructor]. }
  intros [v | e |] w1 Hpost; simpl in Hpost; auto.
  destruct Hpost as [Hp Hr]. repeat step. split; [exact Hr |].
  exists (prev_progress v), (signals w1). eexists. split; [| exact Hp].
  now rewrite <- app_assoc.
Qed.

End ScanInvariant.

Lemma progress_ok_status prev s m :
  progress_ok prev s -> progress_ok prev (s ++ [status_updated m]).
Proof.
  unfold progress_ok. rewrite progress_of_app. simpl. now rewrite app_nil_r.
Qed.

Lemma progress_ok_progress prev s x :
  progress_ok prev s -> prev < x -> x <= 95 ->
  progress_ok x (s ++ [progress_updated x]).
Proof.
  unfold progress_ok. rewrite progress_of_app. simpl.
  intros (Hinc & Hall & Hprev) Hx Hx95. split; [| split].
  - eapply increasing_from_snoc; eauto. lia.
  - apply Forall_app. split.
    + eapply Forall_impl; [exact Hall |]. simpl. intros; lia.
    + constructor; [lia | constructor].
  - lia.
Qed.

Lemma progress_ok_percentages prev s :
  progress_ok prev s -> scan_percentages false (progress_of s).
Proof.
  intros (Hinc & Hall & Hprev). exists (progress_of s). repeat split; auto.
  eapply Forall_impl; [exact Hall |]. simpl. intros; lia.
Qed.

Lemma raw_recovery_fuel_percentages fuel drive dir w :
  progress_of (signals w) = [] ->
  exists completed,
    scan_percentages completed
      (progress_of (signals (snd (raw_recovery_fuel fuel drive dir w)))).
Proof.
  intros Hw.
  pose proof (raw_recovery_body_inv progress_ok progress_ok_status
                progress_ok_progress fuel drive dir w) as H.
  unfold wp in H. unfold raw_recovery_fuel.
  destruct (raw_recovery_body fuel drive dir w) as [[l | e |] w1]; simpl in *.
  - destruct H as [_ (prev & s & m & Hs & Hp)].
    { intros m. apply progress_ok_status. unfold progress_ok. rewrite Hw.
      repeat split; simpl; auto; lia. }
    exists true. rewrite Hs, progress_of_app. simpl.
    destruct Hp as (Hinc & Hall & Hprev).
    exists (progress_of s). repeat split; auto.
    eapply Forall_impl; [exact Hall |]. simpl. intros; lia.
  - destruct H as [prev Hp].
    { intros m. apply progress_ok_status. unfold progress_ok. rewrite Hw.
      repeat split; simpl; auto; lia. }
    exists false. rewrite progress_of_app. simpl. rewrite app_nil_r.
    eapply progress_ok_percentages; eauto.
  - destruct H as [prev Hp].
    { intros m. apply progress_ok_status. unfold progress_ok. rewrite Hw.
      repeat split; simpl; auto; lia. }
    exists false. eapply progress_ok_percentages; eauto.
Qed.

Lemma raw_recovery_fuel_recovered fuel drive dir w :
  recovered_only (records (raw_recovery_fuel fuel drive dir w)).
Proof.
  pose proof (raw_recovery_body_inv (fun _ _ => True) (fun _ _ _ _ => I)
                (fun _ _ _ _ _ _ => I) fuel drive dir w (fun _ => I)) as H.
  unfold wp in H. unfold records, raw_recovery_fuel.
  destruct (raw_recovery_body fuel drive dir w) as [[l | e |] w1]; simpl in *.
  - tauto.
  - constructor.
  - constructor.
Qed.

(** ** Termination: the fuel of [raw_recovery] is enough *)

Lemma slice_from_length_le d n :
  (List.length (slice_from d n) <= List.length d)%nat.
Proof. unfold slice_from. rewrite length_skipn. lia. Qed.

Lemma slice_from_length_lt d :
  truthy (slice_to d block_size) = true ->
  (List.length (slice_from d block_size) < List.length d)%nat.
Proof.
  unfold slice_from, slice_to. rewrite length_skipn.
  destruct d as [| x d]; [now rewrite firstn_nil |].
  intros _. simpl List.length.
  assert (0 < Z.to_nat block_size)%nat by (unfold block_size; lia). lia.
Qed.

Lemma negb_if_false (b : bool) : (if b then false else true) = false -> b = true.
Proof. now destruct b. Qed.

Lemma inner_loop_total fuel total t fp : forall fs est v w,
  (List.length (dev_data w) < fuel)%nat ->
  wp (inner_loop fuel total t fp fs est v)
     (terminates (List.length (dev_data w))) w.
Proof.
  induction fuel as [| fuel IH]; intros fs est v w Hfuel; [lia |].
  rewrite inner_loop_eq.
  repeat step;
    try match goal with H : (if truthy _ then false else true) = false |- _ =>
          apply negb_if_false, slice_from_length_lt in H end;
    try (eapply wp_mono;
         [apply IH; wsimpl; lia
         | intros o w' [Ho Hlen]; wsimpl; split; [exact Ho | lia] ]);
    try (split; [discriminate | wsimpl;
                 try pose proof (slice_from_length_le (dev_data w) block_size); lia]).
Qed.

Lemma carve_epilogue_total t fp v w :
  wp (carve_epilogue t fp v) (terminates (List.length (dev_data w))) w.
Proof.
  unfold carve_epilogue. repeat step; (split; [discriminate | wsimpl; lia]).
Qed.

Lemma carve_file_total fuel total dir t pos v w :
  (List.length (dev_data w) < fuel)%nat ->
  wp (carve_file fuel total dir t pos v) (terminates (List.length (dev_data w))) w.
Proof.
  intros Hfuel. unfold carve_file. do 4 step.
  - split; [discriminate | wsimpl; lia].
  - step. eapply wp_mono; [apply inner_loop_total; wsimpl; exact Hfuel |].
    wsimpl. intros [v' | e |] w' [Ho Hlen]; try (split; [exact Ho | exact Hlen]).
    eapply wp_mono; [apply carve_epilogue_total |].
    intros o w'' [Ho' Hlen']. split; [exact Ho' | lia].
Qed.

(** After the read that closes an iteration, either the block is empty
    or the device has shrunk. *)
Lemma outer_advance_total total v w :
  wp (outer_advance total v)
     (fun o w' =>
        o <> OutOfFuel
        /\ match o with
           | Ret v' => truthy (byte v') = true ->
                       (List.length (dev_data w') < List.length (dev_data w))%nat
           | _ => True
           end) w.
Proof.
  unfold outer_advance. repeat step;
    (split; [discriminate | try exact I; wsimpl; apply slice_from_length_lt]).
Qed.

Lemma outer_loop_total fuel total dir : forall v w,
  (truthy (byte v) = true -> (List.length (dev_data w) + 1 < fuel)%nat) ->
  wp (outer_loop fuel total dir v) (fun o _ => o <> OutOfFuel) w.
Proof.
  induction fuel as [| fuel IH]; intros v w Hfuel; rewrite outer_loop_eq.
  - step; [step; discriminate |].
    apply negb_if_false in Heqb. specialize (Hfuel Heqb). lia.
  - step; [step; discriminate |].
    apply negb_if_false in Heqb. specialize (Hfuel Heqb).
    step. step; [step; discriminate |].
    step.
    assert (H1 : wp (match scan_signatures (byte v) with
                     | Some (file_type, found_pos) =>
                         carve_file fuel total dir file_type found_pos v
                     | None => ret v
                     end) (terminates (List.length (dev_data w))) (with_run w b)).
    { destruct (scan_signatures (byte v)) as [[t pos] |].
      - apply (carve_file_total fuel total dir t pos v (with_run w b)). wsimpl. lia.
      - step. split; [discriminate | wsimpl; lia]. }
    eapply wp_mono; [exact H1 |].
    intros [v1 | e |] w1 [Ho Hlen]; try exact Ho.
    step. eapply wp_mono; [apply outer_advance_total |].
    intros [v2 | e |] w2 [Ho2 Hlen2]; try exact Ho2.
    apply IH. intros Hb. specialize (Hlen2 Hb). lia.
Qed.

Lemma raw_recovery_body_total drive dir w :
  wp (raw_recovery_body (enough_fuel w) drive dir) (fun o _ => o <> OutOfFuel) w.
Proof.
  unfold raw_recovery_body. do 5 step; [step; discriminate |].
  do 4 step; [discriminate |].
  step. eapply wp_mono.
  { apply outer_loop_total. wsimpl. intros Hb.
    apply slice_from_length_lt in Hb. unfold enough_fuel. lia. }
  intros [v | e |] w1 Ho; [| discriminate | now elim Ho].
  repeat step; discriminate.
Qed.

(** [raw_recovery] always returns: the fuel it gives to its loops is
    never exhausted. *)
Lemma raw_recovery_total drive dir w : fst (raw_recovery drive dir w) <> OutOfFuel.
Proof.
  pose proof (raw_recovery_body_total drive dir w) as H.
  unfold raw_recovery, raw_recovery_fuel, wp in *.
  destruct (raw_recovery_body (enough_fuel w) drive dir w) as [[l | e |] w1];
    simpl in *; try discriminate. now elim H.
Qed.

(** ** Detection looks at one block at a time *)

Lemma occurs_at_starts_with sig s k :
  occurs_at sig s k <-> 0 <= k /\ starts_with sig (skipn (Z.to_nat k) s) = true.
Proof. unfold occurs_at. now rewrite BytesFacts.starts_with_firstn. Qed.

Lemma first_signature_found sigs b :
  0 <= first_signature sigs b ->
  exists sig, In sig sigs /\ find b sig = first_signature sigs b.
Proof.
  induction sigs as [| sig sigs IH]; simpl; [lia |].
  destruct (0 <=? find b sig) eqn:E.
  - intros _. exists sig. auto.
  - intros H. destruct (IH H) as (sig' & Hin & Hf). exists sig'. auto.
Qed.

Lemma first_signature_none sigs b :
  first_signature sigs b < 0 -> forall sig, In sig sigs -> find b sig < 0.
Proof.
  induction sigs as [| sig sigs IH]; simpl; [tauto |].
  destruct (0 <=? find b sig) eqn:E.
  - apply Z.leb_le in E. lia.
  - apply Z.leb_gt in E. intros H sig' [<- | Hin]; auto.
Qed.

(** A detection at [k] means that a whole start signature lies in the
    block, from offset [k] on. *)
Lemma scan_signatures_found b t k :
  scan_signatures b = Some (t, k) ->
  exists sig, In sig start_signatures /\ occurs_at sig b k /\ k + len sig <= len b.
Proof.
  unfold scan_signatures, start_signatures.
  destruct (0 <=? first_signature jpg_signatures b) eqn:E1.
  - intros H. injection H as <- <-. apply Z.leb_le in E1.
    destruct (first_signature_found _ _ E1) as (sig & Hin & Hf).
    destruct (BytesFacts.find_found _ _ _ Hf E1) as [Hs Hlen].
    exists sig. split; [apply in_or_app; auto |].
    split; [apply occurs_at_starts_with; auto | exact Hlen].
  - destruct (0 <=? find b png_signature) eqn:E2; [| discriminate].
    intros H. injection H as <- <-. apply Z.leb_le in E2.
    destruct (BytesFacts.find_found _ _ _ eq_refl E2) as [Hs Hlen].
    exists png_signature. split; [apply in_or_app; simpl; auto |].
    split; [apply occurs_at_starts_with; auto | exact Hlen].
Qed.

(** Nothing is detected exactly when no start signature lies in the
    block. *)
Lemma scan_signatures_none b :
  scan_signatures b = None <->
  (forall sig k, In sig start_signatures -> ~ occurs_at sig b k).
Proof.
  split.
  - unfold scan_signatures, start_signatures.
    destruct (0 <=? first_signature jpg_signatures b) eqn:E1; [discriminate |].
    destruct (0 <=? find b png_signature) eqn:E2; [discriminate |].
    apply Z.leb_gt in E1, E2. intros _ sig k Hin Hocc.
    apply occurs_at_starts_with in Hocc. destruct Hocc as [_ Hocc].
    assert (Hneg : find b sig < 0).
    { apply in_app_or in Hin. destruct Hin as [Hin | [<- | []]]; auto.
      eapply first_signature_none; eauto. }
    rewrite BytesFacts.find_not_found in Hocc by exact Hneg. discriminate.
  - intros H. destruct (scan_signatures b) as [[t k] |] eqn:E; [| reflexivity].
    destruct (scan_signatures_found _ _ _ E) as (sig & Hin & Hocc & _).
    elim (H sig k Hin Hocc).
Qed.

Lemma blocks_fuel_enough n : forall f f' d,
  (List.length d <= f)%nat -> (List.length d <= f')%nat -> (0 < n)%nat ->
  blocks_fuel f n d = blocks_fuel f' n d.
Proof.
  induction f as [| f IH]; intros f' d Hf Hf' Hn.
  - destruct d; [| simpl in Hf; lia]. now destruct f'.
  - destruct d as [| x d]; [now destruct f' |].
    destruct f' as [| f']; [simpl in Hf'; lia |].
    simpl blocks_fuel. f_equal.
    assert (List.length (skipn n (x :: d)) <= List.length d)%nat.
    { rewrite length_skipn. simpl. lia. }
    simpl in Hf, Hf'. apply IH; lia.
Qed.

Lemma blocks_unfold d :
  truthy (slice_to d block_size) = true ->
  blocks d = slice_to d block_size :: blocks (slice_from d block_size).
Proof.
  intros Hb. pose proof (slice_from_length_lt d Hb) as Hlt.
  unfold blocks. destruct d as [| x d]; [discriminate |].
  cbn [List.length blocks_fuel]. f_equal.
  apply blocks_fuel_enough.
  - unfold slice_from in *. cbn [List.length] in Hlt. lia.
  - lia.
  - unfold block_size. lia.
Qed.

Lemma no_signature_empty : no_signature [].
Proof. reflexivity. Qed.

Lemma slice_to_empty d :
  truthy (slice_to d block_size) = false -> slice_to d block_size = [].
Proof. destruct (slice_to d block_size); [reflexivity | discriminate]. Qed.

Lemma outer_advance_no_signature total v w :
  Forall no_signature (blocks (dev_data w)) ->
  wp (outer_advance total v)
     (fun o w' =>
        files w' = files w
        /\ match o with
           | Ret v' => recovered_files v' = recovered_files v
                       /\ no_signature (byte v')
                       /\ Forall no_signature (blocks (dev_data w'))
           | _ => True
           end) w.
Proof.
  intros Hall. unfold outer_advance.
  assert (Hb : no_signature (slice_to (dev_data w) block_size)
               /\ Forall no_signature (blocks (slice_from (dev_data w) block_size))).
  { destruct (truthy (slice_to (dev_data w) block_size)) eqn:Hb.
    - rewrite (blocks_unfold _ Hb) in Hall. inversion Hall; subst. auto.
    - rewrite (slice_to_empty _ Hb). split; [apply no_signature_empty |].
      unfold slice_to, slice_from in *.
      destruct (dev_data w) as [| x d]; [rewrite skipn_nil; constructor |].
      unfold block_size in Hb. discriminate. }
  repeat step; (split; [reflexivity | try exact I; tauto]).
Qed.

Lemma outer_loop_no_signature fuel total dir : forall v w,
  no_signature (byte v) ->
  Forall no_signature (blocks (dev_data w)) ->
  wp (outer_loop fuel total dir v)
     (fun o w' =>
        files w' = files w
        /\ match o with
           | Ret v' => recovered_files v' = recovered_files v
           | _ => True
           end) w.
Proof.
  induction fuel as [| fuel IH]; intros v w Hv Hall; rewrite outer_loop_eq.
  - repeat step; auto.
  - step; [step; auto |].
    step. step; [step; auto |].
    step. rewrite Hv. step. step.
    eapply wp_mono; [apply outer_advance_no_signature; exact Hall |].
    intros [v1 | e |] w1 [Hf H1]; wsimpl; auto.
    destruct H1 as (Hr & Hv1 & Hall1).
    eapply wp_mono; [apply IH; assumption |].
    intros [v2 | e |] w2 [Hf2 H2]; wsimpl; split; congruence.
Qed.

End CarverFacts.


(* ================================================================== *)
(** * Properties of the carving engine *)
(* ================================================================== *)

Module CarverClaims.
Import Bytes Carver Vocabulary Logic CarverFacts Examples.

(** ** Block boundaries *)

(** C1, as the specification states it, fails: the engine keeps no
    rolling buffer.  The JPEG of [straddling_stream] starts at offset
    510 and is not detected, while the same JPEG at offset 500 is. *)
Lemma straddling_signature_is_missed :
  occurs_at jfif straddling_stream 510
  /\ records (raw_recovery raw_drive "out" (fresh_world straddling_stream)) = []
  /\ occurs_at jfif aligned_stream 500
  /\ records (raw_recovery raw_drive "out" (fresh_world aligned_stream))
     = [mkFileInfo "out/recovered_0.jpg" 110 "jpg" "Recovered" None].
Proof.
  repeat split; try (vm_compute; congruence); vm_compute; reflexivity.
Qed.

Lemma raw_recovery_no_signature drive dir w :
  Forall no_signature (blocks (dev_data w)) ->
  records (raw_recovery drive dir w) = [] /\ files (snd (raw_recovery drive dir w)) = files w.
Proof.
  intros Hall.
  assert (H : wp (raw_recovery_body (enough_fuel w) drive dir)
                 (fun o w' => files w' = files w
                              /\ match o with Ret l => l = [] | _ => True end) w).
  { unfold raw_recovery_body. do 5 step; [step; auto |].
    do 4 step; [auto |]. step.
    assert (Hb : no_signature (slice_to (dev_data w) block_size)
                 /\ Forall no_signature (blocks (slice_from (dev_data w) block_size))).
    { destruct (truthy (slice_to (dev_data w) block_size)) eqn:Hb.
      - rewrite (blocks_unfold _ Hb) in Hall. inversion Hall; subst. auto.
      - rewrite (slice_to_empty _ Hb). split; [apply no_signature_empty |].
        unfold slice_to, slice_from in *.
        destruct (dev_data w) as [| x d]; [rewrite skipn_nil; constructor |].
        unfold block_size in Hb. discriminate. }
    eapply wp_mono; [apply outer_loop_no_signature; wsimpl; tauto |].
    intros [v | e |] w1 [Hf Hr]; wsimpl; auto.
    repeat step. auto. }
  unfold wp in H. unfold records, raw_recovery, raw_recovery_fuel.
  destruct (raw_recovery_body (enough_fuel w) drive dir w) as [[l | e |] w1];
    simpl in *; tauto.
Qed.

(** C1 (amended).  Every block of 512 bytes is searched on its own: when
    no block of the device holds a whole start signature, whatever
    straddles the boundaries, the scan returns no record and writes no
    file. *)
Theorem signatures_are_searched_block_by_block drive dir w :
  (forall b sig k,
      In b (blocks (dev_data w)) -> In sig start_signatures -> ~ occurs_at sig b k) ->
  records (raw_recovery drive dir w) = []
  /\ files (snd (raw_recovery drive dir w)) = files w.
Proof.
  intros H. apply raw_recovery_no_signature.
  apply List.Forall_forall. intros b Hb. apply scan_signatures_none.
  intros sig k. apply H. exact Hb.
Qed.

Lemma signatures_are_searched_block_by_block_witness :
  records (raw_recovery raw_drive "out" (fresh_world straddling_stream)) = []
  /\ files (snd (raw_recovery raw_drive "out" (fresh_world straddling_stream))) = ∅.
Proof.
  apply (signatures_are_searched_block_by_block raw_drive "out" (fresh_world straddling_stream)).
  intros b sig k Hb. revert sig k. apply scan_signatures_none.
  revert b Hb. apply List.Forall_forall. vm_compute. repeat constructor.
Defined.

(** ** Progress *)

(** C5.  The percentages emitted by one scan increase strictly from 0
    (so each is emitted only when it exceeds the one before), and all
    of them are at most 95, except the 98 that closes a scan whose loop
    was left normally. *)
Theorem progress_percentages_increase_and_stay_capped drive dir w :
  let ps := progress_of (signals (snd (raw_recovery drive dir (with_signals w [])))) in
  increasing_from 0 ps
  /\ exists l, (ps = l ++ [98] \/ ps = l) /\ Forall (fun p => p <= 95) l.
Proof.
  intros ps. subst ps. unfold raw_recovery.
  destruct (raw_recovery_fuel_percentages (enough_fuel (with_signals w [])) drive dir
              (with_signals w []) eq_refl) as [completed (l & Hl & Hinc & Hall)].
  rewrite Hl. destruct completed.
  - split; [| exists l; auto].
    eapply increasing_from_snoc; eauto; lia.
  - split; [exact Hinc | exists l; auto].
Qed.

(** ** What happens at the end signature *)

(** What [carve_file] and the end of the outer iteration do after the
    first write is [file_tail], started with no sector read and the
    estimate 1000. *)
Lemma carve_file_then_advance fuel total dir t pos v w :
  (let* v' := carve_file fuel total dir t pos v in outer_advance total v') w
  = (let* _ := fileN_open (recovered_path dir (rcvd v) t) in
     let* _ := fileN_write (recovered_path dir (rcvd v) t) (slice_from (byte v) pos) in
     file_tail fuel total t (recovered_path dir (rcvd v) t) 0 1000 v) w.
Proof.
  unfold carve_file, file_tail, bind. simpl.
  destruct (fileN_write _ _ _) as [[[] | e |] w1]; try reflexivity.
  destruct (inner_loop _ _ _ _ _ _ _ w1) as [[v1 | e |] w2]; try reflexivity.
Qed.

Lemma firstn_split_at (b : bytes) (k n : Z) :
  0 <= k -> 0 <= n ->
  slice_to b (k + n) = slice_to b k ++ firstn (Z.to_nat n) (slice_from b k).
Proof.
  intros Hk Hn. unfold slice_to, slice_from.
  rewrite Z2Nat.inj_add by lia. symmetry. apply take_take_drop.
Qed.

(** One iteration of the inner loop on a block that holds the end
    signature: the slice is written and the loop is left. *)
Lemma inner_loop_end_found fuel total t fp fs est v w rn rb wb old k :
  spend (run_budget w) = Some rn ->
  spend (read_budget w) = Some rb ->
  spend (write_budget w) = Some wb ->
  files w !! fp = Some old ->
  truthy (slice_to (dev_data w) block_size) = true ->
  find (slice_to (dev_data w) block_size) (end_signature t) = k ->
  0 <= k ->
  wp (inner_loop (S fuel) total t fp fs est v)
     (fun o w' =>
        exists v', o = Ret v'
          /\ files w' = <[fp := old ++ slice_to (slice_to (dev_data w) block_size)
                                          (k + end_marker_length t)]> (files w)
          /\ dev_data w' = slice_from (dev_data w) block_size
          /\ read_budget w' = rb
          /\ recovered_files v' = recovered_files v
          /\ rcvd v' = rcvd v) w.
Proof.
  intros Hrun Hread Hwrite Hold Hb Hk Hpos.
  rewrite inner_loop_eq.
  step. step; [congruence |]. step. step; [congruence |].
  step; (repeat step; try congruence;
         try (rewrite Hb in *; discriminate);
         try (match goal with H : (0 <=? _) = false |- _ =>
                apply Z.leb_gt in H; rewrite Hk in H; lia end);
         refine (ex_intro _ _ (conj eq_refl _)); wsimpl;
         rewrite Hold, Hk; simpl default; repeat split; congruence).
Qed.

(** C2, as the specification states it, fails: after the end marker the
    engine reads the next block.  In [jpeg_then_png_stream] the PNG
    signature that follows the JPEG end marker in block 1 is never
    detected, and no second file is written. *)
Lemma rest_of_the_block_is_not_rescanned :
  let block1 := slice_to (slice_from jpeg_then_png_stream block_size) block_size in
  find block1 (end_signature jpg) = 0
  /\ occurs_at png_signature block1 10
  /\ records (raw_recovery raw_drive "out" (fresh_world jpeg_then_png_stream))
     = [mkFileInfo "out/recovered_0.jpg" 514 "jpg" "Recovered" None]
  /\ files (snd (raw_recovery raw_drive "out" (fresh_world jpeg_then_png_stream)))
       !! "out/recovered_1.png" = None.
Proof.
  repeat split; try (vm_compute; congruence); vm_compute; reflexivity.
Qed.

(** C2 (amended).  When a file is in progress and the block just read
    holds the end signature at offset [k], the engine appends the bytes
    [[0, k + end_marker_length)] of the block (clipped to the block) to
    the file, appends a record of status ['Recovered'] whose size is the
    length of the file, and reads the next block of the device into
    [byte]: the bytes of the block after the end marker are dropped, not
    scanned. *)
Theorem end_signature_closes_the_file_and_drops_the_rest
    fuel total t fp fs est v w rn rb rb' wb old k :
  spend (run_budget w) = Some rn ->
  spend (read_budget w) = Some rb ->
  spend rb = Some rb' ->
  spend (write_budget w) = Some wb ->
  files w !! fp = Some old ->
  truthy (slice_to (dev_data w) block_size) = true ->
  find (slice_to (dev_data w) block_size) (end_signature t) = k ->
  0 <= k ->
  exists v' w',
    file_tail (S fuel) total t fp fs est v w = (Ret v', w')
    /\ files w' !! fp
       = Some (old ++ slice_to (slice_to (dev_data w) block_size)
                               (k + end_marker_length t))
    /\ recovered_files v'
       = recovered_files v
         ++ [mkFileInfo fp
               (len (old ++ slice_to (slice_to (dev_data w) block_size)
                                     (k + end_marker_length t)))
               (ext t) "Recovered" None]
    /\ byte v' = slice_to (slice_from (dev_data w) block_size) block_size
    /\ dev_data w' = slice_from (slice_from (dev_data w) block_size) block_size.
Proof.
  intros Hrun Hread Hread' Hwrite Hold Hb Hk Hpos.
  assert (H : wp (file_tail (S fuel) total t fp fs est v)
                 (fun o w' =>
                    exists v', o = Ret v'
                      /\ files w' !! fp
                         = Some (old ++ slice_to (slice_to (dev_data w) block_size)
                                                 (k + end_marker_length t))
                      /\ recovered_files v'
                         = recovered_files v
                           ++ [mkFileInfo fp
                                 (len (old ++ slice_to (slice_to (dev_data w) block_size)
                                                       (k + end_marker_length t)))
                                 (ext t) "Recovered" None]
                      /\ byte v' = slice_to (slice_from (dev_data w) block_size) block_size
                      /\ dev_data w'
                         = slice_from (slice_from (dev_data w) block_size) block_size) w).
  { unfold file_tail. step.
    eapply wp_mono; [eapply inner_loop_end_found; eassumption |].
    intros o w1 (v1 & -> & Hf1 & Hd1 & Hr1 & Hrec1 & Hrcvd1).
    step. unfold carve_epilogue. step. step. step. step.
    { wsimpl. rewrite Hf1, lookup_insert_eq in H. discriminate. }
    wsimpl. rewrite Hf1, lookup_insert_eq in H. injection H as <-.
    step. unfold outer_advance. step. step.
    { wsimpl. congruence. }
    wsimpl.
    repeat step; (eexists; split; [reflexivity |]; wsimpl;
                  rewrite Hf1, lookup_insert_eq, Hrec1, Hd1; repeat split). }
  unfold wp in H. destruct (file_tail _ _ _ _ _ _ _ w) as [o w'].
  simpl in H. destruct H as (v' & -> & H). eauto.
Qed.

Lemma end_signature_closes_the_file_and_drops_the_rest_witness :
  exists v' w',
    file_tail 1 1000000 jpg "out/recovered_0.jpg" 0 1000
              (scan_vars (jfif ++ repeat Byte.x41 504)) file_in_progress_world
    = (Ret v', w')
    /\ files w' !! "out/recovered_0.jpg"
       = Some ((jfif ++ repeat Byte.x41 504) ++ [Byte.xff; Byte.xd9])
    /\ recovered_files v'
       = [mkFileInfo "out/recovered_0.jpg" 514 "jpg" "Recovered" None]
    /\ byte v' = repeat Byte.x00 512
    /\ dev_data w' = repeat Byte.x00 88.
Proof.
  destruct (end_signature_closes_the_file_and_drops_the_rest
              0 1000000 jpg "out/recovered_0.jpg" 0 1000
              (scan_vars (jfif ++ repeat Byte.x41 504)) file_in_progress_world
              None None None None (jfif ++ repeat Byte.x41 504) 0)
    as (v' & w' & H1 & H2 & H3 & H4 & H5);
    try (vm_compute; reflexivity); try lia.
  exists v', w'. repeat split;
    [exact H1 | rewrite H2 | rewrite H3 | rewrite H4 | rewrite H5];
    vm_compute; reflexivity.
Defined.

(** ** Failures *)

(** C3, as the specification states it, fails.  The device of
    [failing_read_world] fails at its fourth read, after one JPEG was
    carved, closed and announced: the scan returns no record at all,
    where the same device without the fault returns one. *)
Lemma read_failure_drops_the_records :
  fst (raw_recovery raw_drive "out" failing_read_world) = Ret []
  /\ signals (snd (raw_recovery raw_drive "out" failing_read_world))
     = [status_updated "Scanning drive sectors for image files...";
        status_updated "Recovered file 1: recovered_0.jpg";
        error_occurred "Error during raw recovery: read failed"]
  /\ option_map len (files (snd (raw_recovery raw_drive "out" failing_read_world))
                       !! "out/recovered_0.jpg") = Some 514
  /\ records (raw_recovery raw_drive "out" (fresh_world three_block_stream))
     = [mkFileInfo "out/recovered_0.jpg" 514 "jpg" "Recovered" None].
Proof.
  repeat split; vm_compute; reflexivity.
Qed.

Lemma raw_recovery_handler drive dir w e w1 :
  raw_recovery_body (enough_fuel w) drive dir w = (Raise e, w1) ->
  raw_recovery drive dir w
  = (Ret [], with_signals w1
               (signals w1
                ++ [error_occurred ("Error during raw recovery: " +:+ exn_text e)])).
Proof.
  intros H. unfold raw_recovery, raw_recovery_fuel. rewrite H. reflexivity.
Qed.

(** ** Lockstep runs *)

Section Lockstep.

Variable R : World -> World -> Prop.
Variable fault : exn.
Variable spent : World -> Prop.

Local Abbreviation locked := (lockstep R fault spent).

Hypothesis R_emit : forall s, locked (emit s).
Hypothesis R_path_exists : locked path_exists.
Hypothesis R_read_total_sectors : locked read_total_sectors.
Hypothesis R_is_running : locked is_running.
Hypothesis R_fileD_read : forall n, locked (fileD_read n).
Hypothesis R_fileN_open : forall p, locked (fileN_open p).
Hypothesis R_fileN_write : forall p data, locked (fileN_write p data).
Hypothesis R_getsize : forall p, locked (getsize p).

Lemma lockstep_ret {A} (a : A) : locked (ret a).
Proof. intros w w' H. right. split; [reflexivity | exact H]. Qed.

Lemma lockstep_raise {A} e : locked (@raise A e).
Proof. intros w w' H. right. split; [reflexivity | exact H]. Qed.

Lemma lockstep_out_of_fuel {A} : locked (@out_of_fuel A).
Proof. intros w w' H. right. split; [reflexivity | exact H]. Qed.

Lemma lockstep_bind {A B} (m : M A) (k : A -> M B) :
  locked m -> (forall a, locked (k a)) -> locked (bind m k).
Proof.
  intros Hm Hk w w' Hw.
  destruct (Hm w w' Hw) as [[Ho Hs] | [Ho Hw1]]; unfold bind.
  - left. destruct (m w') as [[a' | e' |] w1']; simpl in *;
      try discriminate.
    injection Ho as ->. split; [reflexivity | assumption].
  - destruct (m w) as [[a | e |] w1], (m w') as [[a' | e' |] w1'];
      simpl in *; try discriminate.
    + injection Ho as <-. apply Hk. exact Hw1.
    + injection Ho as ->. right. split; [reflexivity | assumption].
    + right. split; [reflexivity | assumption].
Qed.

Ltac lock_step :=
  lazy beta zeta;
  first [ apply lockstep_ret
        | apply lockstep_raise
        | apply lockstep_out_of_fuel
        | apply R_emit
        | apply R_path_exists
        | apply R_read_total_sectors
        | apply R_is_running
        | apply R_fileD_read
        | apply R_fileN_open
        | apply R_fileN_write
        | apply R_getsize
        | apply lockstep_bind; [| intros ?]
        | match goal with
          | |- lockstep _ _ _ (if ?c then _ else _) => destruct c
          | |- lockstep _ _ _ (match ?c with _ => _ end) => destruct c
          end ].

Lemma inner_loop_lockstep fuel total t fp : forall fs est v,
  locked (inner_loop fuel total t fp fs est v).
Proof.
  induction fuel as [| fuel IH]; intros fs est v; rewrite inner_loop_eq.
  - repeat lock_step.
  - repeat lock_step. apply IH.
Qed.

Lemma carve_file_lockstep fuel total dir t pos v :
  locked (carve_file fuel total dir t pos v).
Proof.
  unfold carve_file, carve_epilogue.
  repeat first [apply inner_loop_lockstep | lock_step].
Qed.

Lemma outer_advance_lockstep total v : locked (outer_advance total v).
Proof. unfold outer_advance. repeat lock_step. Qed.

Lemma outer_loop_lockstep fuel total dir : forall v,
  locked (outer_loop fuel total dir v).
Proof.
  induction fuel as [| fuel IH]; intros v; rewrite outer_loop_eq.
  - repeat lock_step.
  - repeat first [apply carve_file_lockstep | apply outer_advance_lockstep
                  | apply IH | lock_step].
Qed.

Lemma raw_recovery_body_lockstep fuel drive dir :
  locked (raw_recovery_body fuel drive dir).
Proof.
  unfold raw_recovery_body.
  repeat first [apply outer_loop_lockstep | lock_step].
Qed.

End Lockstep.

(** The handler leaves the budgets as the [try] block left them. *)
Lemma raw_recovery_budgets drive dir w :
  read_budget (snd (raw_recovery drive dir w))
  = read_budget (snd (raw_recovery_body (enough_fuel w) drive dir w))
  /\ write_budget (snd (raw_recovery drive dir w))
     = write_budget (snd (raw_recovery_body (enough_fuel w) drive dir w)).
Proof.
  unfold raw_recovery, raw_recovery_fuel.
  destruct (raw_recovery_body (enough_fuel w) drive dir w) as [[l | e |] w1];
    split; reflexivity.
Qed.

(** *** Reads *)

Local Ltac same_way n Hn :=
  right; split; [reflexivity | exists n; split; [exact Hn | reflexivity]].

Lemma more_reads_emit k s : lockstep (more_reads k) ReadError reads_spent (emit s).
Proof. intros w w' (n & Hn & ->). same_way n Hn. Qed.

Lemma more_reads_path_exists k :
  lockstep (more_reads k) ReadError reads_spent path_exists.
Proof. intros w w' (n & Hn & ->). same_way n Hn. Qed.

Lemma more_reads_read_total_sectors k :
  lockstep (more_reads k) ReadError reads_spent read_total_sectors.
Proof. intros w w' (n & Hn & ->). same_way n Hn. Qed.

Lemma more_reads_is_running k :
  lockstep (more_reads k) ReadError reads_spent is_running.
Proof.
  intros w w' (n & Hn & ->). unfold is_running, with_reads. wsimpl.
  destruct (spend (run_budget w')); same_way n Hn.
Qed.

Lemma more_reads_fileD_read k z :
  lockstep (more_reads k) ReadError reads_spent (fileD_read z).
Proof.
  intros w w' (n & Hn & ->). unfold fileD_read, with_reads. wsimpl. rewrite Hn.
  destruct n as [| n].
  - left. split; [reflexivity | exact Hn].
  - replace (k + S n)%nat with (S (k + n)) by lia. cbn [spend].
    right. split; [reflexivity |]. exists n. split; reflexivity.
Qed.

Lemma more_reads_fileN_open k p :
  lockstep (more_reads k) ReadError reads_spent (fileN_open p).
Proof. intros w w' (n & Hn & ->). same_way n Hn. Qed.

Lemma more_reads_fileN_write k p data :
  lockstep (more_reads k) ReadError reads_spent (fileN_write p data).
Proof.
  intros w w' (n & Hn & ->). unfold fileN_write, with_reads. wsimpl.
  destruct (spend (write_budget w')); same_way n Hn.
Qed.

Lemma more_reads_getsize k p :
  lockstep (more_reads k) ReadError reads_spent (getsize p).
Proof.
  intros w w' (n & Hn & ->). unfold getsize, with_reads. wsimpl.
  destruct (files w' !! p); same_way n Hn.
Qed.

(** With fewer reads allowed, the [try] block goes the same way until
    a read is refused. *)
Lemma raw_recovery_body_more_reads k fuel drive dir :
  lockstep (more_reads k) ReadError reads_spent (raw_recovery_body fuel drive dir).
Proof.
  apply raw_recovery_body_lockstep;
    auto using more_reads_emit, more_reads_path_exists,
      more_reads_read_total_sectors, more_reads_is_running, more_reads_fileD_read,
      more_reads_fileN_open, more_reads_fileN_write, more_reads_getsize.
Qed.

Lemma read_fault_is_fatal drive dir w n limit :
  read_budget w = Some n ->
  (n < reads_made limit drive dir w)%nat ->
  exists w1,
    raw_recovery_body (enough_fuel w) drive dir w = (Raise ReadError, w1)
    /\ read_budget w1 = Some 0%nat.
Proof.
  intros Hn Hlt. unfold reads_made in Hlt.
  rewrite (proj1 (raw_recovery_budgets drive dir (with_reads w limit))) in Hlt.
  change (enough_fuel (with_reads w limit)) with (enough_fuel w) in Hlt.
  assert (Hle : (n < limit)%nat).
  { destruct (read_budget _) in Hlt; lia. }
  destruct (raw_recovery_body_more_reads (limit - n) (enough_fuel w) drive dir
              (with_reads w limit) w) as [[Ho Hs] | [Ho (n2 & Hn2 & HR)]].
  - exists n. split; [exact Hn | f_equal; f_equal; lia].
  - exists (snd (raw_recovery_body (enough_fuel w) drive dir w)).
    split; [| exact Hs].
    destruct (raw_recovery_body (enough_fuel w) drive dir w); simpl in *.
    now rewrite Ho.
  - rewrite HR in Hlt. unfold with_reads in Hlt. wsimpl. lia.
Qed.

(** C3 (amended).  When the device refuses a read that the scan needs --
    it allows [n] reads, and the scan makes more than [n] when [limit]
    are allowed -- the [try] block raises at that read, with the [n]
    reads spent: the handler emits [error_occurred] and the method
    returns the empty list, whatever records had been accumulated. *)
Theorem read_failure_returns_no_record drive dir w n limit :
  read_budget w = Some n ->
  (n < reads_made limit drive dir w)%nat ->
  exists w1,
    raw_recovery_body (enough_fuel w) drive dir w = (Raise ReadError, w1)
    /\ read_budget w1 = Some 0%nat
    /\ raw_recovery drive dir w
       = (Ret [],
          with_signals w1
            (signals w1 ++ [error_occurred "Error during raw recovery: read failed"])).
Proof.
  intros Hn Hlt.
  destruct (read_fault_is_fatal drive dir w n limit Hn Hlt) as (w1 & Hb & Hs).
  exists w1. split; [exact Hb |]. split; [exact Hs |].
  apply (raw_recovery_handler drive dir w ReadError w1 Hb).
Qed.

Lemma read_failure_returns_no_record_witness :
  exists w1,
    raw_recovery_body (enough_fuel failing_read_world) raw_drive "out"
                      failing_read_world
    = (Raise ReadError, w1)
    /\ read_budget w1 = Some 0%nat
    /\ raw_recovery raw_drive "out" failing_read_world
       = (Ret [],
          with_signals w1
            (signals w1 ++ [error_occurred "Error during raw recovery: read failed"])).
Proof.
  apply (read_failure_returns_no_record raw_drive "out" failing_read_world 3 10).
  - reflexivity.
  - vm_compute. lia.
Defined.

(** C4, as the specification states it, fails.  In
    [failing_write_world] the second write fails, in the middle of the
    first JPEG: the scan stops with 622 bytes of the device unread,
    returns no record, and never carves the second JPEG, which the same
    device with a sound output directory yields. *)
Lemma write_failure_aborts_the_scan :
  fst (raw_recovery raw_drive "out" failing_write_world) = Ret []
  /\ signals (snd (raw_recovery raw_drive "out" failing_write_world))
     = [status_updated "Scanning drive sectors for image files...";
        error_occurred "Error during raw recovery: write failed"]
  /\ List.length (dev_data (snd (raw_recovery raw_drive "out" failing_write_world))) = 622%nat
  /\ files (snd (raw_recovery raw_drive "out" failing_write_world)) !! "out/recovered_1.jpg" = None
  /\ records (raw_recovery raw_drive "out" (fresh_world two_jpeg_stream))
     = [mkFileInfo "out/recovered_0.jpg" 1026 "jpg" "Recovered" None;
        mkFileInfo "out/recovered_1.jpg" 110 "jpg" "Recovered" None].
Proof.
  repeat split; vm_compute; reflexivity.
Qed.

(** *** Writes *)

Lemma more_writes_emit k s : lockstep (more_writes k) WriteError writes_spent (emit s).
Proof. intros w w' (n & Hn & ->). same_way n Hn. Qed.

Lemma more_writes_path_exists k :
  lockstep (more_writes k) WriteError writes_spent path_exists.
Proof. intros w w' (n & Hn & ->). same_way n Hn. Qed.

Lemma more_writes_read_total_sectors k :
  lockstep (more_writes k) WriteError writes_spent read_total_sectors.
Proof. intros w w' (n & Hn & ->). same_way n Hn. Qed.

Lemma more_writes_is_running k :
  lockstep (more_writes k) WriteError writes_spent is_running.
Proof.
  intros w w' (n & Hn & ->). unfold is_running, with_writes. wsimpl.
  destruct (spend (run_budget w')); same_way n Hn.
Qed.

Lemma more_writes_fileD_read k z :
  lockstep (more_writes k) WriteError writes_spent (fileD_read z).
Proof.
  intros w w' (n & Hn & ->). unfold fileD_read, with_writes. wsimpl.
  destruct (spend (read_budget w')); same_way n Hn.
Qed.

Lemma more_writes_fileN_open k p :
  lockstep (more_writes k) WriteError writes_spent (fileN_open p).
Proof.
  intros w w' (n & Hn & ->). right. split; [reflexivity |].
  exists n. split; [exact Hn |]. unfold fileN_open, with_writes. wsimpl.
  now rewrite Hn.
Qed.

Lemma more_writes_fileN_write k p data :
  lockstep (more_writes k) WriteError writes_spent (fileN_write p data).
Proof.
  intros w w' (n & Hn & ->). unfold fileN_write, with_writes. wsimpl. rewrite Hn.
  destruct n as [| n].
  - left. split; [reflexivity | exact Hn].
  - replace (k + S n)%nat with (S (k + n)) by lia. cbn [spend].
    right. split; [reflexivity |]. exists n. split; reflexivity.
Qed.

Lemma more_writes_getsize k p :
  lockstep (more_writes k) WriteError writes_spent (getsize p).
Proof.
  intros w w' (n & Hn & ->). unfold getsize, with_writes. wsimpl.
  destruct (files w' !! p); same_way n Hn.
Qed.

(** With fewer writes allowed, the [try] block goes the same way until
    a write is refused. *)
Lemma raw_recovery_body_more_writes k fuel drive dir :
  lockstep (more_writes k) WriteError writes_spent (raw_recovery_body fuel drive dir).
Proof.
  apply raw_recovery_body_lockstep;
    auto using more_writes_emit, more_writes_path_exists,
      more_writes_read_total_sectors, more_writes_is_running, more_writes_fileD_read,
      more_writes_fileN_open, more_writes_fileN_write, more_writes_getsize.
Qed.

Lemma write_fault_is_fatal drive dir w n limit :
  write_budget w = Some n ->
  (n < writes_made limit drive dir w)%nat ->
  exists w1,
    raw_recovery_body (enough_fuel w) drive dir w = (Raise WriteError, w1)
    /\ write_budget w1 = Some 0%nat.
Proof.
  intros Hn Hlt. unfold writes_made in Hlt.
  rewrite (proj2 (raw_recovery_budgets drive dir (with_writes w limit))) in Hlt.
  change (enough_fuel (with_writes w limit)) with (enough_fuel w) in Hlt.
  assert (Hle : (n < limit)%nat).
  { destruct (write_budget _) in Hlt; lia. }
  destruct (raw_recovery_body_more_writes (limit - n) (enough_fuel w) drive dir
              (with_writes w limit) w) as [[Ho Hs] | [Ho (n2 & Hn2 & HR)]].
  - exists n. split; [exact Hn | f_equal; f_equal; lia].
  - exists (snd (raw_recovery_body (enough_fuel w) drive dir w)).
    split; [| exact Hs].
    destruct (raw_recovery_body (enough_fuel w) drive dir w); simpl in *.
    now rewrite Ho.
  - rewrite HR in Hlt. unfold with_writes in Hlt. wsimpl. lia.
Qed.

(** C4 (amended).  A failure while writing a carved file is fatal for
    the scan.  When the output directory refuses a write that the scan
    needs -- it allows [n] writes, and the scan makes more than [n] when
    [limit] are allowed -- the [try] block raises at that write, with
    the [n] writes spent: the handler emits [error_occurred] and the
    method returns the empty list, with no record for the file being
    written nor for the files carved before it. *)
Theorem write_failure_returns_no_record drive dir w n limit :
  write_budget w = Some n ->
  (n < writes_made limit drive dir w)%nat ->
  exists w1,
    raw_recovery_body (enough_fuel w) drive dir w = (Raise WriteError, w1)
    /\ write_budget w1 = Some 0%nat
    /\ raw_recovery drive dir w
       = (Ret [],
          with_signals w1
            (signals w1 ++ [error_occurred "Error during raw recovery: write failed"])).
Proof.
  intros Hn Hlt.
  destruct (write_fault_is_fatal drive dir w n limit Hn Hlt) as (w1 & Hb & Hs).
  exists w1. split; [exact Hb |]. split; [exact Hs |].
  apply (raw_recovery_handler drive dir w WriteError w1 Hb).
Qed.

Lemma write_failure_returns_no_record_witness :
  exists w1,
    raw_recovery_body (enough_fuel failing_write_world) raw_drive "out"
                      failing_write_world
    = (Raise WriteError, w1)
    /\ write_budget w1 = Some 0%nat
    /\ raw_recovery raw_drive "out" failing_write_world
       = (Ret [],
          with_signals w1
            (signals w1 ++ [error_occurred "Error during raw recovery: write failed"])).
Proof.
  apply (write_failure_returns_no_record raw_drive "out" failing_write_world 1 10).
  - reflexivity.
  - vm_compute. lia.
Defined.

(** ** The end marker *)

(** C6, as the specification states it, fails for PNG: the slice
    [byte[:bfind+12]] is clipped to the block.  In [late_iend_stream] the
    [IEND] pattern is found at offset 504 of a block of 512 bytes, so 8
    bytes are kept from there, and the file has 512 + 512 bytes. *)
Lemma png_end_marker_is_clipped_to_the_block :
  find (slice_to (slice_from late_iend_stream block_size) block_size)
       (end_signature png) = 504
  /\ len (slice_to (slice_to (slice_from late_iend_stream block_size) block_size)
                   (504 + end_marker_length png)) - 504 = 8
  /\ records (raw_recovery raw_drive "out" (fresh_world late_iend_stream))
     = [mkFileInfo "out/recovered_0.png" 1024 "png" "Recovered" None].
Proof.
  repeat split; vm_compute; reflexivity.
Qed.

Lemma len_app (a b : bytes) : len (a ++ b) = len a + len b.
Proof. unfold len. rewrite length_app. lia. Qed.

Lemma len_firstn (n : Z) (b : bytes) :
  0 <= n -> len (firstn (Z.to_nat n) b) = Z.min n (len b).
Proof. intros Hn. unfold len. rewrite length_firstn. lia. Qed.

Lemma len_slice_from (b : bytes) (k : Z) :
  0 <= k -> k <= len b -> len (slice_from b k) = len b - k.
Proof. intros Hk Hle. unfold len, slice_from in *. rewrite length_skipn. lia. Qed.

Lemma end_signature_length t : len (end_signature t) = match t with jpg => 2 | png => 8 end.
Proof. now destruct t. Qed.

(** C6 (amended).  When the end signature is found at offset [k] of the
    block, the file receives the bytes of the block before [k] and then
    [kept], the bytes kept from [k] on: the 2 bytes of the marker for a
    JPEG; for a PNG 12 bytes, or all that is left of the block from [k]
    when that is less.  Only the type, [k] and the length of the block
    decide: no field of the chunk is read. *)
Theorem bytes_kept_from_the_end_signature
    fuel total t fp fs est v w rn rb wb old k :
  spend (run_budget w) = Some rn ->
  spend (read_budget w) = Some rb ->
  spend (write_budget w) = Some wb ->
  files w !! fp = Some old ->
  truthy (slice_to (dev_data w) block_size) = true ->
  find (slice_to (dev_data w) block_size) (end_signature t) = k ->
  0 <= k ->
  exists kept,
    files (snd (inner_loop (S fuel) total t fp fs est v w)) !! fp
    = Some (old ++ slice_to (slice_to (dev_data w) block_size) k ++ kept)
    /\ kept = firstn (Z.to_nat (end_marker_length t))
                     (slice_from (slice_to (dev_data w) block_size) k)
    /\ len kept = match t with
                  | jpg => 2
                  | png => Z.min 12 (len (slice_to (dev_data w) block_size) - k)
                  end.
Proof.
  intros Hrun Hread Hwrite Hold Hb Hk Hpos.
  pose proof (inner_loop_end_found fuel total t fp fs est v w rn rb wb old k
                Hrun Hread Hwrite Hold Hb Hk Hpos) as H.
  unfold wp in H. destruct H as (v' & _ & Hf & _).
  destruct (BytesFacts.find_found _ _ _ Hk Hpos) as [_ Hlen].
  rewrite end_signature_length in Hlen.
  eexists. split; [| split; [reflexivity |]].
  - rewrite Hf, lookup_insert_eq. f_equal. f_equal.
    apply firstn_split_at; [exact Hpos | destruct t; simpl; lia].
  - rewrite len_firstn by (destruct t; simpl; lia).
    rewrite len_slice_from by (destruct t; lia).
    destruct t; simpl end_marker_length; lia.
Qed.

Lemma bytes_kept_from_the_end_signature_witness :
  exists kept,
    files (snd (inner_loop 1 1000000 jpg "out/recovered_0.jpg" 0 1000
                  (scan_vars (jfif ++ repeat Byte.x41 504)) file_in_progress_world))
      !! "out/recovered_0.jpg"
    = Some ((jfif ++ repeat Byte.x41 504) ++ [] ++ kept)
    /\ len kept = 2.
Proof.
  destruct (bytes_kept_from_the_end_signature
              0 1000000 jpg "out/recovered_0.jpg" 0 1000
              (scan_vars (jfif ++ repeat Byte.x41 504)) file_in_progress_world
              None None None (jfif ++ repeat Byte.x41 504) 0)
    as (kept & H1 & _ & H3);
    try (vm_compute; reflexivity); try lia.
  exists kept. split; [exact H1 | exact H3].
Defined.

(** ** The size estimate of the file in progress *)

(** C7, as the specification states it, fails: the estimate is not
    doubled.  With the seed 1000, the 501st block read for a file exceeds
    half the estimate, and the estimate becomes 1002, not 2000.  In
    [long_jpeg_world] the bar goes from 44 to 45 at the 501st block read
    for the file, and the message sent with it tells 50%, the part of 501
    in 1002, where 2000 would give 25%. *)
Lemma estimate_is_not_doubled :
  1000 / 2 < 501
  /\ adjust_estimate 501 1000 = 1002
  /\ adjust_estimate 501 1000 <> 2 * 1000
  /\ combined_progress (scan_progress 500 1002) = 44
  /\ combined_progress (scan_progress 501 1002) = 45
  /\ file_progress 501 (2 * 1000) = 25
  /\ firstn 2 (skipn 3 (rev (signals (snd (raw_recovery raw_drive "out"
                                                        long_jpeg_world)))))
     = [status_updated "Recovering JPG file (50% complete)"; progress_updated 45].
Proof.
  repeat split; vm_compute; congruence.
Qed.

Lemma adjust_estimate_max fs est : adjust_estimate fs est = Z.max est (2 * fs).
Proof.
  unfold adjust_estimate. destruct (est <? 2 * fs) eqn:E.
  - apply Z.ltb_lt in E. lia.
  - apply Z.ltb_ge in E. lia.
Qed.

Lemma estimate_from_max n : forall fs est,
  estimate_from (S n) fs est = Z.max est (2 * (fs + Z.of_nat (S n))).
Proof.
  induction n as [| n IH]; intros fs est.
  - cbn [estimate_from]. rewrite adjust_estimate_max. lia.
  - change (estimate_from (S (S n)) fs est)
      with (estimate_from (S n) (fs + 1) (adjust_estimate (fs + 1) est)).
    rewrite IH, adjust_estimate_max. lia.
Qed.

(** Programs that differ in the text of their status messages only. *)

Lemma same_bar_fields w w' :
  same_bar w w' ->
  dev_present w = dev_present w' /\ dev_size w = dev_size w'
  /\ dev_data w = dev_data w' /\ read_budget w = read_budget w'
  /\ write_budget w = write_budget w' /\ run_budget w = run_budget w'
  /\ files w = files w'.
Proof.
  intros [H _]. destruct w, w'. unfold with_signals in H. simpl in *.
  injection H as -> -> -> -> -> -> ->. repeat split.
Qed.

Ltac same_bar_subst :=
  match goal with
  | H : same_bar ?w ?w' |- _ =>
      let H1 := fresh in
      let H2 := fresh in
      destruct H as [H1 H2]; destruct w, w'; unfold with_signals in H1;
      simpl in H1, H2; injection H1 as -> -> -> -> -> -> ->
  end.

Lemma sim_ret {A} (a : A) : sim (ret a) (ret a).
Proof. intros w w' H. split; [reflexivity | exact H]. Qed.

Lemma sim_bind {A B} (m m' : M A) (k k' : A -> M B) :
  sim m m' -> (forall a, sim (k a) (k' a)) -> sim (bind m k) (bind m' k').
Proof.
  intros Hm Hk w w' Hw. specialize (Hm w w' Hw). unfold bind, agree in *.
  destruct (m w) as [[a | e |] w1], (m' w') as [[a' | e' |] w1'];
    simpl in Hm; destruct Hm as [Ho Hw1]; try discriminate.
  - injection Ho as <-. apply Hk. exact Hw1.
  - injection Ho as <-. split; [reflexivity | exact Hw1].
  - split; [reflexivity | exact Hw1].
Qed.

Lemma sim_fileD_read n : sim (fileD_read n) (fileD_read n).
Proof.
  intros w w' Hw. same_bar_subst. unfold fileD_read, agree, same_bar. simpl.
  destruct (spend _); simpl; auto.
Qed.

Lemma sim_is_running : sim is_running is_running.
Proof.
  intros w w' Hw. same_bar_subst. unfold is_running, agree, same_bar. simpl.
  destruct (spend _); simpl; auto.
Qed.

Lemma sim_fileN_write p data : sim (fileN_write p data) (fileN_write p data).
Proof.
  intros w w' Hw. same_bar_subst. unfold fileN_write, agree, same_bar. simpl.
  destruct (spend _); simpl; auto.
Qed.

Lemma sim_emit_progress x : sim (emit (progress_updated x)) (emit (progress_updated x)).
Proof.
  intros w w' Hw. same_bar_subst. unfold emit, agree, same_bar. simpl.
  rewrite !progress_of_app. simpl. split; [reflexivity | split; [reflexivity | congruence]].
Qed.

Lemma sim_emit_status m m' : sim (emit (status_updated m)) (emit (status_updated m')).
Proof.
  intros w w' Hw. same_bar_subst. unfold emit, agree, same_bar. simpl.
  rewrite !progress_of_app. simpl. split; [reflexivity | split; [reflexivity | congruence]].
Qed.

Ltac sim_step :=
  lazy beta zeta;
  first [ apply sim_ret
        | apply sim_fileD_read
        | apply sim_is_running
        | apply sim_fileN_write
        | apply sim_emit_progress
        | apply sim_emit_status
        | apply sim_bind; [| intros ?]
        | match goal with
          | |- sim (if ?c then _ else _) (if ?c then _ else _) => destruct c
          end ].

(** The estimate the inner loop starts from changes nothing but the text
    of the status messages. *)
Lemma inner_loop_sim fuel total t fp : forall fs est est' v,
  sim (inner_loop fuel total t fp fs est v) (inner_loop fuel total t fp fs est' v).
Proof.
  induction fuel as [| fuel IH]; intros fs est est' v; rewrite !inner_loop_eq.
  - repeat sim_step. intros w w' Hw. split; [reflexivity | exact Hw].
  - repeat sim_step. apply IH.
Qed.

(** The signals of the blocks of a file. *)

Lemma slice_from_slice_from d a b :
  0 <= a -> 0 <= b -> slice_from (slice_from d a) b = slice_from d (a + b).
Proof.
  intros Ha Hb. unfold slice_from. rewrite skipn_skipn. f_equal. lia.
Qed.

Lemma blocks_post_none t n w w' :
  signals w' = signals w -> dev_data w' = dev_data w -> blocks_post t n w [] w'.
Proof.
  intros Hs Hd. exists []. simpl. rewrite app_nil_r. split; [exact Hs |].
  rewrite Hd. reflexivity.
Qed.

Lemma blocks_post_cons t n w w1 w' p :
  0 <= n ->
  signals w1 = signals w ++ block_signals t n [p] ->
  dev_data w1 = slice_from (dev_data w) block_size ->
  blocks_post t (n + 1) w1 [] w' -> blocks_post t n w [] w'.
Proof.
  intros Hn Hs Hd (ps & Hs' & Hd'). exists (p :: ps). split.
  - rewrite Hs', Hs. cbn [block_signals]. rewrite !app_nil_r, <- !app_assoc. reflexivity.
  - rewrite Hd', Hd. rewrite slice_from_slice_from by (unfold block_size; lia).
    f_equal. cbn [List.length]. lia.
Qed.

Lemma adjust_estimate_seed fs :
  0 <= fs -> adjust_estimate (fs + 1) (Z.max 1000 (2 * fs)) = Z.max 1000 (2 * (fs + 1)).
Proof. intros H. rewrite adjust_estimate_max. lia. Qed.

Ltac close_block Hfs W :=
  match goal with
  | |- blocks_post ?t ?fs ?w [] ?w' =>
      first
        [ apply (blocks_post_cons t fs w W w' None Hfs);
          [ wsimpl; cbn [block_signals app]; now rewrite app_nil_r
          | reflexivity | ]
        | eapply (blocks_post_cons t fs w W w' (Some _) Hfs);
          [ wsimpl; cbn [block_signals app]; rewrite <- app_assoc; reflexivity
          | reflexivity | ] ]
  end.

Lemma inner_loop_signals fuel total t fp : forall fs v w,
  0 <= fs ->
  wp (inner_loop fuel total t fp fs (Z.max 1000 (2 * fs)) v)
     (fun _ w' => blocks_post t fs w [] w') w.
Proof.
  induction fuel as [| fuel IH]; intros fs v w Hfs; rewrite inner_loop_eq.
  - repeat step; apply blocks_post_none; reflexivity.
  - step. step; [step; apply blocks_post_none; reflexivity |].
    step. step; [apply blocks_post_none; reflexivity |].
    rewrite (adjust_estimate_seed fs Hfs).
    repeat step;
      match goal with
      | |- blocks_post _ _ _ _ ?W =>
          close_block Hfs W; apply blocks_post_none; reflexivity
      | |- wp (inner_loop _ _ _ _ _ _ _) _ ?W =>
          eapply wp_mono; [apply IH; lia |];
          intros ? w' Hp; close_block Hfs W; exact Hp
      end.
Qed.

(** The signals of the carving of one file: those of its blocks, then
    at most the message that names the file. *)
Lemma carve_file_signals fuel total dir t pos v w :
  wp (carve_file fuel total dir t pos v)
     (fun _ w' =>
        exists tail,
          (tail = [] \/ exists m, tail = [status_updated m])
          /\ blocks_post t 0 w tail w') w.
Proof.
  unfold carve_file. do 4 step.
  { exists []. split; [now left |]. apply blocks_post_none; reflexivity. }
  step. change 1000 with (Z.max 1000 (2 * 0)).
  eapply wp_mono; [apply inner_loop_signals; lia |].
  wsimpl. intros [v' | e |] w1 (ps & Hs & Hd);
    try (exists []; split; [now left |]; exists ps; split; assumption).
  unfold carve_epilogue. repeat step;
    (eexists; split; [right; eexists; reflexivity |]);
    exists ps; wsimpl; rewrite Hs, Hd, app_nil_r, <- app_assoc; split; reflexivity.
Qed.

(** C7 (amended).  The estimate of the size of the file in progress, in
    blocks, starts at 1000; at each block read for the file it is raised
    to twice the number of blocks read so far when it is below that (it
    is not doubled), so that at the [n]-th block it is the larger of 1000
    and [2 n]: whenever the carving of a file makes the bar move, at the
    [n]-th of the blocks it reads, the message that follows tells the
    part of [n] in that estimate.  The estimate, and the percentage of
    the file computed from it, reach the status message only: two runs of
    the inner loop that differ in the estimate return the same result and
    emit the same progress percentages, write the same files and read the
    same blocks. *)
Theorem estimate_is_raised_and_feeds_only_the_message
    fuel total dir t pos fp fs est est' v w :
  (exists ps tail,
     signals (snd (carve_file fuel total dir t pos v w))
     = signals w ++ block_signals t 0 ps ++ tail
     /\ (tail = [] \/ exists m, tail = [status_updated m])
     /\ dev_data (snd (carve_file fuel total dir t pos v w))
        = slice_from (dev_data w) (block_size * Z.of_nat (List.length ps)))
  /\ adjust_estimate fs est = Z.max est (2 * fs)
  /\ fst (inner_loop fuel total t fp fs est v w)
     = fst (inner_loop fuel total t fp fs est' v w)
  /\ progress_of (signals (snd (inner_loop fuel total t fp fs est v w)))
     = progress_of (signals (snd (inner_loop fuel total t fp fs est' v w)))
  /\ files (snd (inner_loop fuel total t fp fs est v w))
     = files (snd (inner_loop fuel total t fp fs est' v w))
  /\ dev_data (snd (inner_loop fuel total t fp fs est v w))
     = dev_data (snd (inner_loop fuel total t fp fs est' v w)).
Proof.
  split.
  { destruct (carve_file_signals fuel total dir t pos v w)
      as (tail & Htail & ps & Hs & Hd).
    exists ps, tail. auto. }
  split; [apply adjust_estimate_max |].
  destruct (inner_loop_sim fuel total t fp fs est est' v w w) as [Ho Hw].
  { split; reflexivity. }
  split; [exact Ho |]. split; [apply Hw |].
  apply same_bar_fields in Hw. tauto.
Qed.

(** ** The status of the records *)

Lemma raw_recovery_recovered drive dir w :
  Forall (fun r => status r = "Recovered") (records (raw_recovery drive dir w)).
Proof. apply raw_recovery_fuel_recovered. Qed.

(** ** Further properties of the scan *)

(** Termination.  On every device, with or without faults or
    cancellation, [raw_recovery] returns a list: the scan ends, and the
    only exits of the method are its two [return]s. *)
Theorem raw_recovery_always_returns drive dir w :
  exists l w', raw_recovery drive dir w = (Ret l, w').
Proof.
  pose proof (raw_recovery_total drive dir w) as H.
  destruct (raw_recovery drive dir w) as [[l | e |] w1] eqn:E; simpl in H.
  - eauto.
  - unfold raw_recovery, raw_recovery_fuel in E.
    destruct (raw_recovery_body _ _ _ w) as [[l' | e' |] w2]; discriminate.
  - now elim H.
Qed.

Lemma first_signature_occurs sigs b sig j :
  In sig sigs -> starts_with sig (skipn j b) = true -> 0 <= first_signature sigs b.
Proof.
  intros Hin Hs. destruct (Z.le_gt_cases 0 (first_signature sigs b)) as [H | H];
    [exact H |].
  pose proof (first_signature_none sigs b H sig Hin) as Hneg.
  rewrite BytesFacts.find_not_found in Hs by exact Hneg. discriminate.
Qed.

(** Priority of the catalog.  A block that holds a JPEG start signature
    is taken for a JPEG, wherever a PNG signature may stand in it: the
    PNG signature is looked for only when no JPEG signature is found. *)
Theorem jpeg_signatures_come_first b sig k :
  In sig jpg_signatures -> occurs_at sig b k ->
  exists k', scan_signatures b = Some (jpg, k').
Proof.
  intros Hin Hocc. apply occurs_at_starts_with in Hocc. destruct Hocc as [_ Hs].
  pose proof (first_signature_occurs _ _ _ _ Hin Hs) as H.
  unfold scan_signatures. apply Z.leb_le in H. rewrite H. eauto.
Qed.

Lemma jpeg_signatures_come_first_witness :
  exists k', scan_signatures (png_signature ++ jfif) = Some (jpg, k').
Proof.
  apply (jpeg_signatures_come_first (png_signature ++ jfif) jfif 8).
  - left. reflexivity.
  - split; [lia | reflexivity].
Defined.

(** The inner loop and the closing read leave [rcvd] and the records
    alone. *)
Lemma inner_loop_keeps_records fuel total t fp : forall fs est v w,
  wp (inner_loop fuel total t fp fs est v) (keeps_records v) w.
Proof.
  induction fuel as [| fuel IH]; intros fs est v w; rewrite inner_loop_eq.
  - repeat step; simpl; auto.
  - repeat step; simpl; auto;
      (eapply wp_mono; [apply IH |]; intros [v' | e |] w' Hk; simpl in *; auto).
Qed.

Lemma outer_advance_keeps_records total v w :
  wp (outer_advance total v) (keeps_records v) w.
Proof. unfold outer_advance. repeat step; simpl; auto. Qed.

Lemma carve_file_numbered fuel total dir t pos v w :
  0 <= rcvd v -> numbered dir (rcvd v) (recovered_files v) ->
  wp (carve_file fuel total dir t pos v) (numbered_post dir) w.
Proof.
  intros Hn Hnum. unfold carve_file. do 4 step; [exact I |].
  step. eapply wp_mono; [apply inner_loop_keeps_records |].
  intros [v' | e |] w' Hk; simpl in Hk; auto. destruct Hk as [Hr Hf].
  unfold carve_epilogue. repeat step; simpl; auto.
  rewrite Hr, Hf. split; [lia |].
  eapply numbered_snoc; eauto.
Qed.

Lemma outer_loop_numbered fuel total dir : forall v w,
  0 <= rcvd v -> numbered dir (rcvd v) (recovered_files v) ->
  wp (outer_loop fuel total dir v) (numbered_post dir) w.
Proof.
  induction fuel as [| fuel IH]; intros v w Hn Hnum; rewrite outer_loop_eq.
  - repeat step; simpl; auto.
  - step; [step; simpl; auto |].
    step. step; [step; simpl; auto |].
    step.
    assert (H1 : wp (match scan_signatures (byte v) with
                     | Some (file_type, found_pos) =>
                         carve_file fuel total dir file_type found_pos v
                     | None => ret v
                     end) (numbered_post dir) (with_run w b)).
    { destruct (scan_signatures (byte v)) as [[t pos] |].
      - now apply carve_file_numbered.
      - step. simpl. auto. }
    eapply wp_mono; [exact H1 |].
    intros [v1 | e |] w1 Hpost; simpl in Hpost; auto. destruct Hpost as [Hn1 Hnum1].
    step. eapply wp_mono; [apply outer_advance_keeps_records |].
    intros [v2 | e |] w2 Hk; simpl in Hk; auto. destruct Hk as [Hr Hf].
    apply IH; rewrite Hr, ?Hf; assumption.
Qed.

Lemma numbered_below dir n l :
  numbered dir n l ->
  forall r, In r l -> exists k t, k < n /\ path r = recovered_path dir k t.
Proof.
  induction 1 as [| n l r t Hnum IH Hn Hp]; intros r' Hin; [elim Hin |].
  apply in_app_or in Hin. destruct Hin as [Hin | [<- | []]].
  - destruct (IH r' Hin) as (k & t' & Hk & Hp'). exists k, t'. split; [lia | exact Hp'].
  - exists n, t. split; [lia | exact Hp].
Qed.

Lemma numbered_nodup dir n l : numbered dir n l -> List.NoDup (map path l).
Proof.
  induction 1 as [| n l r t Hnum IH Hn Hp]; [constructor |].
  rewrite map_app. apply List.NoDup_app; [exact IH | repeat constructor; auto |].
  intros p Hin [<- | []]. apply in_map_iff in Hin. destruct Hin as (r' & E & Hr').
  destruct (numbered_below dir n l Hnum r' Hr') as (k & t' & Hk & Hp').
  rewrite Hp, Hp' in E. apply TextFacts.recovered_path_counter in E. lia.
Qed.

(** Unique output paths.  The paths of the records returned by one scan
    are pairwise distinct: each holds the value of the counter [rcvd] at
    the time of its file. *)
Theorem output_paths_are_unique drive dir w :
  List.NoDup (map path (records (raw_recovery drive dir w))).
Proof.
  assert (H : wp (raw_recovery_body (enough_fuel w) drive dir)
                 (fun o _ => match o with
                             | Ret l => List.NoDup (map path l)
                             | _ => True
                             end) w).
  { unfold raw_recovery_body. do 5 step; [step; exact I |].
    do 4 step; [exact I |]. step.
    eapply wp_mono;
      [apply outer_loop_numbered; wsimpl; [lia | constructor] |].
    intros [v | e |] w1 Hpost; simpl in Hpost; auto.
    repeat step. eapply numbered_nodup. apply Hpost. }
  unfold wp in H. unfold records, raw_recovery, raw_recovery_fuel.
  destruct (raw_recovery_body (enough_fuel w) drive dir w) as [[l | e |] w1];
    simpl in *; auto; constructor.
Qed.

(** The scenario of the specification: a JFIF header, 100 bytes and the
    end marker give one file of 110 bytes, of type [jpg] and status
    ['Recovered']. *)
Theorem single_jpeg_scenario :
  fst (raw_recovery raw_drive "out"
         (fresh_world (jfif ++ repeat Byte.x41 100 ++ [Byte.xff; Byte.xd9])))
  = Ret [mkFileInfo "out/recovered_0.jpg" 110 "jpg" "Recovered" None]
  /\ signals (snd (raw_recovery raw_drive "out"
                     (fresh_world (jfif ++ repeat Byte.x41 100 ++ [Byte.xff; Byte.xd9]))))
     = [status_updated "Scanning drive sectors for image files...";
        status_updated "Recovered file 1: recovered_0.jpg";
        progress_updated 98;
        status_updated "Scan complete. Found 1 files."].
Proof.
  split; vm_compute; reflexivity.
Qed.

End CarverClaims.

(* ================================================================== *)
(** * Facts about the verifier *)
(* ================================================================== *)



Module VerifierFacts.
Import Bytes Verifier VerifierVocabulary.

Section WithLibraries.

Variable sha256_hex : bytes -> string.
Variable image_probe : bytes -> option (string * Z * Z).

Local Abbreviation verify_one := (verify_one sha256_hex image_probe).
Local Abbreviation verify_pass := (verify_pass sha256_hex image_probe).
Local Abbreviation verify_loop := (verify_loop sha256_hex image_probe).
Local Abbreviation verify_files := (verify_files sha256_hex image_probe).
Local Abbreviation verified := (verified sha256_hex image_probe).
Local Abbreviation settled := (settled sha256_hex image_probe).

Lemma verify_loop_pass dir : forall recs n d acc,
  verify_loop dir n d recs acc
  = (acc ++ snd (verify_pass dir n d recs), snd (fst (verify_pass dir n d recs))).
Proof.
  induction recs as [| fi rest IH]; intros n d acc; simpl.
  - now rewrite app_nil_r.
  - destruct (verify_one dir n d fi) as [[n' d'] fi'].
    rewrite IH. destruct (verify_pass dir n' d' rest) as [[n1 d1] outs]. simpl.
    now rewrite <- app_assoc.
Qed.

Lemma verify_pass_app dir : forall pre post n d,
  verify_pass dir n d (pre ++ post)
  = let '(n1, d1, out1) := verify_pass dir n d pre in
    let '(n2, d2, out2) := verify_pass dir n1 d1 post in
    (n2, d2, out1 ++ out2).
Proof.
  induction pre as [| fi pre IH]; intros post n d; simpl.
  - now destruct (verify_pass dir n d post) as [[n2 d2] out2].
  - destruct (verify_one dir n d fi) as [[n' d'] fi'].
    rewrite IH. destruct (verify_pass dir n' d' pre) as [[n1 d1] out1].
    now destruct (verify_pass dir n1 d1 post) as [[n2 d2] out2].
Qed.

Lemma verify_pass_length dir : forall recs n d,
  List.length (snd (verify_pass dir n d recs)) = List.length recs.
Proof.
  induction recs as [| fi rest IH]; intros n d; simpl; [reflexivity |].
  destruct (verify_one dir n d fi) as [[n' d'] fi'].
  specialize (IH n' d'). destruct (verify_pass dir n' d' rest) as [[n1 d1] outs].
  simpl in *. now rewrite IH.
Qed.

Lemma verify_one_status dir n d fi :
  In (status (snd (verify_one dir n d fi))) verifier_statuses.
Proof.
  unfold Verifier.verify_one, verifier_statuses.
  destruct (files d !! path fi); simpl; [| auto].
  destruct (verify_image_integrity _ _ _ _); simpl; [auto |].
  destruct (move_ok d _ _); simpl; auto.
Qed.

Lemma verify_pass_statuses dir : forall recs n d,
  Forall (fun r => In (status r) verifier_statuses) (snd (verify_pass dir n d recs)).
Proof.
  induction recs as [| fi rest IH]; intros n d; simpl; [constructor |].
  pose proof (verify_one_status dir n d fi) as H1.
  destruct (verify_one dir n d fi) as [[n' d'] fi'].
  specialize (IH n' d'). destruct (verify_pass dir n' d' rest) as [[n1 d1] outs].
  simpl in *. constructor; assumption.
Qed.

(** ** One record *)

Lemma verify_image_integrity_ext d d' p t :
  files d !! p = files d' !! p ->
  verify_image_integrity image_probe d p t = verify_image_integrity image_probe d' p t.
Proof. unfold verify_image_integrity. now intros ->. Qed.

Lemma calculate_file_hash_ext d d' p :
  files d !! p = files d' !! p ->
  calculate_file_hash sha256_hex d p = calculate_file_hash sha256_hex d' p.
Proof. unfold calculate_file_hash. now intros ->. Qed.

Lemma verify_one_verified dir n d fi : verified dir n d fi (verify_one dir n d fi).
Proof.
  unfold Verifier.verify_one, calculate_file_hash, move.
  destruct (files d !! path fi) as [c |] eqn:Hc; [| now constructor].
  cbn [type set_hash path].
  destruct (verify_image_integrity image_probe d (path fi) (type fi)) eqn:Hv;
    [now constructor |].
  destruct (move_ok d (path fi) (corrupted_path dir (n + 1) (path fi))) eqn:Hm;
    now constructor.
Qed.

Lemma verify_one_move_ok dir n d fi :
  move_ok (snd (fst (verify_one dir n d fi))) = move_ok d
  /\ makedirs_ok (snd (fst (verify_one dir n d fi))) = makedirs_ok d.
Proof. destruct (verify_one_verified dir n d fi); simpl; auto. Qed.

Lemma verify_one_counter dir n d fi : n <= fst (fst (verify_one dir n d fi)).
Proof. destruct (verify_one_verified dir n d fi); simpl; lia. Qed.

(** [verify_one] reads the disk at the path of the record only. *)
Lemma verify_one_ext dir n d d' fi :
  files d !! path fi = files d' !! path fi ->
  move_ok d = move_ok d' ->
  fst (fst (verify_one dir n d fi)) = fst (fst (verify_one dir n d' fi))
  /\ snd (verify_one dir n d fi) = snd (verify_one dir n d' fi).
Proof.
  intros Hf Hm. unfold Verifier.verify_one.
  rewrite (verify_image_integrity_ext d d') by exact Hf.
  rewrite (calculate_file_hash_ext d d') by exact Hf.
  rewrite Hf, Hm.
  destruct (files d' !! path fi); simpl; auto.
  destruct (verify_image_integrity _ _ _ _); simpl; auto.
  destruct (move_ok d' _ _); simpl; auto.
Qed.

(** ** One pass *)

Lemma verify_pass_cons dir n d fi rest :
  verify_pass dir n d (fi :: rest)
  = (fst (fst (verify_pass dir (fst (fst (verify_one dir n d fi)))
                 (snd (fst (verify_one dir n d fi))) rest)),
     snd (fst (verify_pass dir (fst (fst (verify_one dir n d fi)))
                 (snd (fst (verify_one dir n d fi))) rest)),
     snd (verify_one dir n d fi)
     :: snd (verify_pass dir (fst (fst (verify_one dir n d fi)))
               (snd (fst (verify_one dir n d fi))) rest)).
Proof.
  simpl. destruct (verify_one dir n d fi) as [[n' d'] fi']. simpl.
  now destruct (verify_pass dir n' d' rest) as [[n1 d1] outs].
Qed.

Lemma verify_pass_move_ok dir : forall recs n d,
  move_ok (snd (fst (verify_pass dir n d recs))) = move_ok d
  /\ makedirs_ok (snd (fst (verify_pass dir n d recs))) = makedirs_ok d.
Proof.
  induction recs as [| fi rest IH]; intros n d; [simpl; auto |].
  rewrite verify_pass_cons. cbn [fst snd].
  destruct (IH (fst (fst (verify_one dir n d fi))) (snd (fst (verify_one dir n d fi))))
    as [H1 H2].
  destruct (verify_one_move_ok dir n d fi) as [H3 H4]. split; congruence.
Qed.

(** A pass leaves alone every path that is neither the path of one of its
    records nor a quarantine name above its counter. *)
Lemma verify_pass_frame dir x : forall recs n d,
  (forall r, In r recs -> path r <> x) ->
  (forall k p, n < k -> x <> corrupted_path dir k p) ->
  files (snd (fst (verify_pass dir n d recs))) !! x = files d !! x.
Proof.
  induction recs as [| fi rest IH]; intros n d Hsrc Hdst; [reflexivity |].
  rewrite verify_pass_cons. cbn [fst snd].
  pose proof (verify_one_counter dir n d fi) as Hn.
  rewrite IH.
  - destruct (verify_one_verified dir n d fi); cbn [fst snd files with_files]; auto.
    rewrite lookup_insert_ne by (apply not_eq_sym, Hdst; lia).
    apply lookup_delete_ne. apply Hsrc. now left.
  - intros r Hr. apply Hsrc. now right.
  - intros k p Hk. apply Hdst. lia.
Qed.

(** The paths of the records a pass returns: those it was given, or
    quarantine names above its counter. *)
Lemma verify_pass_paths dir : forall recs n d r',
  In r' (snd (verify_pass dir n d recs)) ->
  (exists r, In r recs /\ path r' = path r)
  \/ (exists k p, n < k /\ path r' = corrupted_path dir k p).
Proof.
  induction recs as [| fi rest IH]; intros n d r' Hin; [elim Hin |].
  rewrite verify_pass_cons in Hin. cbn [fst snd] in Hin.
  pose proof (verify_one_counter dir n d fi) as Hn.
  destruct Hin as [<- | Hin].
  - destruct (verify_one_verified dir n d fi); cbn [snd path set_status set_hash set_path];
      try (left; exists fi; split; [now left | reflexivity]).
    right. exists (n + 1), (path fi). split; [lia | reflexivity].
  - destruct (IH _ _ _ Hin) as [(r & Hr & Hp) | (k & p0 & Hk & Hp)].
    + left. exists r. split; [now right | exact Hp].
    + right. exists k, p0. split; [lia | exact Hp].
Qed.

Lemma above_not_quarantine dir n r k p :
  above dir n r -> k <= n -> path r <> corrupted_path dir k p.
Proof.
  intros [Hout | (k' & p' & Hk' & Hp)] Hk Heq.
  - rewrite Heq, TextFacts.corrupted_path_in_dir in Hout. discriminate.
  - rewrite Hp in Heq. apply TextFacts.corrupted_path_counter in Heq. lia.
Qed.

(** Second pass: records that replay on [d1] are verified to the same
    statuses and hashes from any disk that agrees with [d1] on their
    paths. *)
Lemma settled_second_pass dir d1 : forall out n g,
  settled dir d1 n out ->
  List.NoDup (map path out) ->
  move_ok g = move_ok d1 ->
  (forall r, In r out -> files g !! path r = files d1 !! path r) ->
  map status (snd (verify_pass dir n g out)) = map status out
  /\ map hash (snd (verify_pass dir n g out)) = map hash out.
Proof.
  induction out as [| r rest IH]; intros n g Hs Hnd Hm Hg; [simpl; auto |].
  destruct Hs as (Hst & Hh & Hab & Hs).
  rewrite verify_pass_cons. cbn [fst snd map].
  destruct (verify_one_ext dir n g d1 r (Hg r (or_introl eq_refl)) Hm) as [En Er].
  rewrite Er, Hst, Hh, En.
  inversion Hnd as [| ? ? Hnotin Hnd']; subst.
  destruct (IH (fst (fst (verify_one dir n d1 r)))
               (snd (fst (verify_one dir n g r))) Hs Hnd') as [H1 H2].
  - destruct (verify_one_move_ok dir n g r) as [H _]. congruence.
  - intros r' Hr'. rewrite <- (Hg r' (or_intror Hr')).
    assert (Hne : path r' <> path r).
    { intros E. apply Hnotin. rewrite <- E. now apply in_map. }
    rewrite List.Forall_forall in Hab. specialize (Hab r' Hr').
    rewrite <- En in Hab.
    destruct (verify_one_verified dir n g r); cbn [fst snd files with_files] in *; auto.
    rewrite lookup_insert_ne.
    + now apply lookup_delete_ne, not_eq_sym.
    + apply not_eq_sym. eapply above_not_quarantine; [exact Hab | lia].
  - now rewrite H1, H2.
Qed.

(** The path of a verified record: the one it had, or the quarantine
    name made from the new counter. *)
Lemma verified_path dir n d fi res :
  verified dir n d fi res ->
  path (snd res) = path fi
  \/ (path (snd res) = corrupted_path dir (fst (fst res)) (path fi)
      /\ fst (fst res) = n + 1).
Proof. destruct 1; cbn; auto. Qed.

(** Verifying a record again, on the files its verification left, gives
    the same counter, status and hash, provided the file was outside the
    quarantine directory, quarantined files can be moved, and a move that
    failed fails again. *)
Lemma verify_one_replay dir n d fi mk2 mv2 :
  in_dir dir (path fi) = false ->
  (forall src dst, in_dir dir src = true -> mv2 src dst = true) ->
  (forall src dst, in_dir dir src = false -> move_ok d src dst = false ->
                   mv2 src dst = false) ->
  let n' := fst (fst (verify_one dir n d fi)) in
  let d' := later_disk (snd (fst (verify_one dir n d fi))) mk2 mv2 in
  let r' := snd (verify_one dir n d fi) in
  fst (fst (verify_one dir n d' r')) = n'
  /\ status (snd (verify_one dir n d' r')) = status r'
  /\ hash (snd (verify_one dir n d' r')) = hash r'.
Proof.
  intros Hout Hmv Hfail n' d' r'. subst n' d' r'. unfold later_disk.
  destruct (verify_one_verified dir n d fi) as [Hc | c Hc Hv | c Hc Hv Hm | c Hc Hv Hm];
    cbn [fst snd].
  - unfold Verifier.verify_one. cbn [path set_status files]. rewrite Hc. cbn. auto.
  - unfold Verifier.verify_one, calculate_file_hash, verify_image_integrity in *.
    cbn [path set_status set_hash type files] in *. rewrite Hc in *.
    rewrite Hv. cbn. auto.
  - unfold Verifier.verify_one, calculate_file_hash.
    cbn [path set_status set_hash set_path type files with_files].
    rewrite lookup_insert_eq.
    replace (verify_image_integrity image_probe _ _ (type fi)) with false.
    + cbn [move_ok].
      rewrite Hmv by apply TextFacts.corrupted_path_in_dir. cbn. auto.
    + rewrite <- Hv. unfold verify_image_integrity. cbn [files with_files].
      now rewrite lookup_insert_eq, Hc.
  - pose proof (Hfail _ _ Hout Hm) as Hm2.
    unfold Verifier.verify_one, calculate_file_hash, verify_image_integrity in *.
    cbn [path set_status set_hash type files move_ok] in *. rewrite Hc in *.
    rewrite Hv, Hm2. cbn. auto.
Qed.

(** First pass: on records with distinct paths outside the quarantine
    directory, the records returned replay on the files the pass leaves,
    under any later oracle that moves quarantined files and repeats the
    failures of the first. *)
Lemma first_pass_settled dir mk2 mv2 : forall recs n d,
  Forall (fun r => in_dir dir (path r) = false) recs ->
  List.NoDup (map path recs) ->
  (forall src dst, in_dir dir src = true -> mv2 src dst = true) ->
  (forall src dst, in_dir dir src = false -> move_ok d src dst = false ->
                   mv2 src dst = false) ->
  settled dir (later_disk (snd (fst (verify_pass dir n d recs))) mk2 mv2) n
          (snd (verify_pass dir n d recs))
  /\ List.NoDup (map path (snd (verify_pass dir n d recs)))
  /\ Forall (above dir n) (snd (verify_pass dir n d recs)).
Proof.
  induction recs as [| fi rest IH]; intros n d Hout Hnd Hmv Hfail.
  { simpl. repeat split; constructor. }
  rewrite verify_pass_cons. cbn [fst snd].
  inversion Hout as [| ? ? Hfi Hrest]; subst.
  inversion Hnd as [| ? ? Hnotin Hnd']; subst.
  pose proof (verify_one_verified dir n d fi) as Hver.
  pose proof (verify_one_replay dir n d fi mk2 mv2 Hfi Hmv Hfail) as Hrep.
  cbn zeta in Hrep.
  pose proof (verify_one_counter dir n d fi) as Hn.
  destruct (verify_one_move_ok dir n d fi) as [Hmo _].
  pose proof (verified_path dir n d fi _ Hver) as Hpath.
  set (n' := fst (fst (verify_one dir n d fi))) in *.
  set (d' := snd (fst (verify_one dir n d fi))) in *.
  set (r' := snd (verify_one dir n d fi)) in *.
  assert (Hfail' : forall src dst, in_dir dir src = false ->
                     move_ok d' src dst = false -> mv2 src dst = false).
  { intros src dst Hs. rewrite Hmo. now apply Hfail. }
  destruct (IH n' d' Hrest Hnd' Hmv Hfail') as (Hs & Hnd1 & Hab).
  set (d1 := snd (fst (verify_pass dir n' d' rest))) in *.
  set (out := snd (verify_pass dir n' d' rest)) in *.
  (* the record just verified is left alone by the rest of the pass *)
  assert (Hrest_out : forall r, In r rest -> in_dir dir (path r) = false).
  { now apply List.Forall_forall. }
  assert (Hsrc : forall r, In r rest -> path r <> path r').
  { intros r Hr E. destruct Hpath as [Hp | [Hp _]].
    - apply Hnotin. rewrite <- Hp, <- E. now apply in_map.
    - specialize (Hrest_out r Hr).
      rewrite E, Hp, TextFacts.corrupted_path_in_dir in Hrest_out. discriminate. }
  assert (Hdst : forall k p, n' < k -> path r' <> corrupted_path dir k p).
  { intros k p Hk E. destruct Hpath as [Hp | [Hp _]].
    - rewrite Hp in E. rewrite E, TextFacts.corrupted_path_in_dir in Hfi. discriminate.
    - rewrite Hp in E. apply TextFacts.corrupted_path_counter in E. lia. }
  assert (Hframe : files (later_disk d1 mk2 mv2) !! path r'
                   = files (later_disk d' mk2 mv2) !! path r').
  { unfold later_disk. cbn [files]. apply verify_pass_frame; assumption. }
  destruct (verify_one_ext dir n (later_disk d1 mk2 mv2) (later_disk d' mk2 mv2) r'
              Hframe eq_refl) as [En Er].
  destruct Hrep as (Hrn & Hrs & Hrh).
  split; [| split].
  - cbn [VerifierVocabulary.settled]. rewrite En, Er, Hrn. auto.
  - cbn [map]. constructor; [| exact Hnd1].
    intros Hin. apply in_map_iff in Hin. destruct Hin as (r'' & E & Hr'').
    destruct (verify_pass_paths dir rest n' d' r'' Hr'')
      as [(r & Hr & Hp) | (k & p & Hk & Hp)].
    + apply (Hsrc r Hr). congruence.
    + apply (Hdst k p Hk). congruence.
  - constructor.
    + destruct Hpath as [Hp | [Hp Hn']].
      * left. now rewrite Hp.
      * right. exists n', (path fi). split; [lia | exact Hp].
    + eapply Forall_impl; [exact Hab |].
      intros r [Ho | (k & p & Hk & Hp)]; [now left |].
      right. exists k, p. split; [lia | exact Hp].
Qed.

End WithLibraries.

End VerifierFacts.


(* ================================================================== *)
(** * Properties of the verifier *)
(* ================================================================== *)

Module VerifierClaims.
Import Bytes Verifier VerifierVocabulary VerifierFacts VerifierExamples.

Section WithLibraries.

Variable sha256_hex : bytes -> string.
Variable image_probe : bytes -> option (string * Z * Z).

Local Abbreviation verify_one := (verify_one sha256_hex image_probe).
Local Abbreviation verify_pass := (verify_pass sha256_hex image_probe).
Local Abbreviation verify_files := (verify_files sha256_hex image_probe).

Lemma verify_files_pass recs dir d :
  makedirs_ok d = true ->
  verify_files recs dir d
  = (snd (verify_pass dir 0 d recs), snd (fst (verify_pass dir 0 d recs))).
Proof.
  intros H. unfold Verifier.verify_files. rewrite H.
  now rewrite verify_loop_pass.
Qed.

(** C8.  Let a record come after the records [pre] in the list, and let
    [n] and [dp] be the counter and the disk once [pre] is verified.  If
    its file exists on [dp], is judged invalid, and cannot be moved to
    its quarantine name, then the record appears at its place in the
    result with the status ['Corrupted (not moved)'], its path unchanged
    and its hash; the records after it are verified as well, the result
    being as long as the list. *)
Theorem failed_quarantine_move_is_recorded dir d pre fi post c :
  makedirs_ok d = true ->
  files (snd (fst (verify_pass dir 0 d pre))) !! path fi = Some c ->
  verify_image_integrity image_probe (snd (fst (verify_pass dir 0 d pre)))
                         (path fi) (type fi) = false ->
  move_ok (snd (fst (verify_pass dir 0 d pre))) (path fi)
          (corrupted_path dir (fst (fst (verify_pass dir 0 d pre)) + 1) (path fi))
  = false ->
  nth_error (fst (verify_files (pre ++ fi :: post) dir d)) (List.length pre)
  = Some (mkFileInfo (path fi) (size fi) (type fi) "Corrupted (not moved)"
                     (Some (sha256_hex c)))
  /\ List.length (fst (verify_files (pre ++ fi :: post) dir d))
     = List.length (pre ++ fi :: post).
Proof.
  intros Hmk Hc Hv Hm. rewrite (verify_files_pass _ _ _ Hmk). cbn [fst].
  split; [| apply verify_pass_length].
  rewrite verify_pass_app.
  pose proof (verify_pass_length sha256_hex image_probe dir pre 0 d) as Hlen.
  destruct (verify_pass dir 0 d pre) as [[n dp] out1]. cbn [fst snd] in *.
  rewrite verify_pass_cons.
  destruct (VerifierVocabulary.verify_pass _ _ dir _ _ post) as [[n2 d2] out2] eqn:E.
  cbn [fst snd]. rewrite nth_error_app2 by lia. rewrite Hlen, Nat.sub_diag.
  cbn [nth_error]. f_equal.
  unfold Verifier.verify_one, calculate_file_hash.
  cbn [path type set_hash]. rewrite Hc, Hv, Hm. reflexivity.
Qed.

(** C9 (amended).  Let the records name pairwise distinct files outside
    the quarantine directory, as those of raw carving do: their paths
    are pairwise distinct, written in normal form and the way the
    quarantine directory is, on a file system that knows a file by such
    a path.  Let a first verification create its quarantine directory,
    and let the records it returns be verified again on the files it
    left, whether or not the directory can be created again, where a file
    of the quarantine directory can be moved and a move that failed the
    first time fails again.  Then every record gets the same status and
    the same hash as the first time. *)
Theorem second_verification_repeats_the_first recs dir d mk2 mv2 :
  makedirs_ok d = true ->
  normalized dir = true ->
  Forall (fun r => canonical dir (path r) = true) recs ->
  Forall (fun r => in_dir dir (path r) = false) recs ->
  List.NoDup (map path recs) ->
  (forall src dst, in_dir dir src = true -> mv2 src dst = true) ->
  (forall src dst, in_dir dir src = false -> move_ok d src dst = false ->
                   mv2 src dst = false) ->
  map status (fst (verify_files (fst (verify_files recs dir d)) dir
                                (later_disk (snd (verify_files recs dir d)) mk2 mv2)))
  = map status (fst (verify_files recs dir d))
  /\ map hash (fst (verify_files (fst (verify_files recs dir d)) dir
                                 (later_disk (snd (verify_files recs dir d)) mk2 mv2)))
     = map hash (fst (verify_files recs dir d)).
Proof.
  intros Hmk _ _ Hout Hnd Hmv Hfail.
  rewrite (verify_files_pass recs dir d Hmk). cbn [fst snd].
  destruct mk2.
  - destruct (first_pass_settled sha256_hex image_probe dir true mv2 recs 0 d
                Hout Hnd Hmv Hfail) as (Hs & Hnd1 & _).
    rewrite verify_files_pass by reflexivity.
    cbn [fst]. eapply settled_second_pass; eauto.
  - unfold Verifier.verify_files, later_disk. cbn [makedirs_ok fst]. auto.
Qed.

End WithLibraries.

End VerifierClaims.

Module PipelineClaims.
Import Bytes Carver Verifier Vocabulary VerifierVocabulary VerifierFacts VerifierExamples.

Lemma failed_quarantine_move_is_recorded_witness :
  nth_error
    (fst (verify_files toy_sha256_hex toy_image_probe
            [recovered "out/recovered_0.jpg" "jpg" 10;
             recovered "out/recovered_1.jpg" "jpg" 4;
             recovered "out/recovered_2.png" "png" 0]
            quarantine
            (locked_disk {[ "out/recovered_0.jpg" := good_jpeg;
                            "out/recovered_1.jpg" := bad_jpeg ]}))) 1
  = Some (mkFileInfo "out/recovered_1.jpg" 4 "jpg" "Corrupted (not moved)"
                     (Some "sha256-of-4")).
Proof.
  apply (VerifierClaims.failed_quarantine_move_is_recorded
           toy_sha256_hex toy_image_probe quarantine
           (locked_disk {[ "out/recovered_0.jpg" := good_jpeg;
                           "out/recovered_1.jpg" := bad_jpeg ]})
           [recovered "out/recovered_0.jpg" "jpg" 10]
           (recovered "out/recovered_1.jpg" "jpg" 4)
           [recovered "out/recovered_2.png" "png" 0] bad_jpeg);
    vm_compute; reflexivity.
Defined.

(** C9, as the specification states it, fails in two ways; the files
    are the same in both passes but for the moves of the verifier itself.
    (1) A record whose path is the quarantine name of another one is
    ['Missing'] in the first pass and ['Corrupted'] in the second, while
    the other goes from ['Corrupted'] to ['Missing'].
    (2) Where paths are limited in length, the file quarantined by the
    first pass cannot be moved to the longer name of the second pass:
    ['Corrupted'] becomes ['Corrupted (not moved)']. *)
Lemma second_verification_can_differ :
  (let '(out1, out2) :=
     verify_twice [recovered "out/corrupted/corrupted_1_x.jpg" "jpg" 0;
                   recovered "out/x.jpg" "jpg" 0]
                  (easy_disk {[ "out/x.jpg" := [] ]}) in
   map status out1 = ["Missing"; "Corrupted"]
   /\ map status out2 = ["Corrupted"; "Missing"]
   /\ map hash out1 = [None; Some "sha256-of-0"]
   /\ map hash out2 = [Some "sha256-of-0"; Some "sha256-of-0"])
  /\ (let '(out1, out2) :=
        verify_twice [recovered "out/recovered_0.jpg" "jpg" 4]
                     (short_paths_disk {[ "out/recovered_0.jpg" := bad_jpeg ]}) in
      map status out1 = ["Corrupted"]
      /\ map status out2 = ["Corrupted (not moved)"]).
Proof.
  repeat split; vm_compute; reflexivity.
Qed.

Lemma second_verification_repeats_the_first_witness :
  map status
    (fst (verify_files toy_sha256_hex toy_image_probe
            (fst (verify_files toy_sha256_hex toy_image_probe
                    broken_records quarantine broken_disk))
            quarantine
            (later_disk
               (snd (verify_files toy_sha256_hex toy_image_probe
                       broken_records quarantine broken_disk))
               true (fun src _ => in_dir quarantine src))))
  = ["Corrupted"; "Corrupted (not moved)"; "Missing"]
  /\ map hash
       (fst (verify_files toy_sha256_hex toy_image_probe
               (fst (verify_files toy_sha256_hex toy_image_probe
                       broken_records quarantine broken_disk))
               quarantine
               (later_disk
                  (snd (verify_files toy_sha256_hex toy_image_probe
                          broken_records quarantine broken_disk))
                  true (fun src _ => in_dir quarantine src))))
     = [Some "sha256-of-4"; Some "sha256-of-0"; None].
Proof.
  destruct (VerifierClaims.second_verification_repeats_the_first
              toy_sha256_hex toy_image_probe broken_records quarantine broken_disk
              true (fun src _ => in_dir quarantine src))
    as [H1 H2].
  - reflexivity.
  - reflexivity.
  - repeat constructor.
  - repeat constructor.
  - repeat constructor; simpl; intuition discriminate.
  - intros src dst H. exact H.
  - intros src dst H _. exact H.
  - rewrite H1, H2. split; vm_compute; reflexivity.
Defined.

(** C10.  Every record returned by raw carving has the status
    ['Recovered'], which is none of the statuses of the verifier; and
    every record returned by a verification that could create its
    quarantine directory has one of the four statuses ['Missing'], ['OK'],
    ['Corrupted'] and ['Corrupted (not moved)'] (without the directory
    the list comes back as it was given). *)
Theorem statuses_of_carving_and_of_verification
    sha256_hex image_probe drive_path output_dir w recs corrupted_dir d :
  Forall (fun r => status r = "Recovered" /\ ~ In (status r) verifier_statuses)
         (records (raw_recovery drive_path output_dir w))
  /\ ((makedirs_ok d = true
       /\ Forall (fun r => In (status r) verifier_statuses)
                 (fst (verify_files sha256_hex image_probe recs corrupted_dir d)))
      \/ (makedirs_ok d = false
          /\ fst (verify_files sha256_hex image_probe recs corrupted_dir d) = recs)).
Proof.
  split.
  - eapply Forall_impl; [apply CarverClaims.raw_recovery_recovered |].
    intros r Hr. split; [exact Hr |]. rewrite Hr. simpl. intuition discriminate.
  - destruct (makedirs_ok d) eqn:Hmk.
    + left. split; [reflexivity |].
      rewrite (VerifierClaims.verify_files_pass _ _ _ _ _ Hmk). cbn [fst].
      apply verify_pass_statuses.
    + right. split; [reflexivity |]. unfold verify_files. now rewrite Hmk.
Qed.

End PipelineClaims.

(* ================================================================== *)
(** * The carved files *)
(* ================================================================== *)

Module CarvingFacts.
Import Bytes Carver Vocabulary Logic CarverFacts CarvingVocabulary.

Lemma starts_with_app sig : forall c c',
  starts_with sig c = true -> starts_with sig (c ++ c') = true.
Proof.
  induction sig as [| a sig IH]; intros c c'; simpl; [reflexivity |].
  destruct c as [| b c]; simpl; [discriminate |].
  rewrite !andb_true_iff. intros [H1 H2]. split; [exact H1 | now apply IH].
Qed.

Lemma slice_split (d : bytes) (n : Z) : d = slice_to d n ++ slice_from d n.
Proof. unfold slice_to, slice_from. now rewrite firstn_skipn. Qed.

(** A detection gives a signature of the type it announces. *)
Lemma scan_signatures_typed b t k :
  scan_signatures b = Some (t, k) ->
  0 <= k
  /\ exists sig, In sig (signatures_of t) /\ starts_with sig (slice_from b k) = true.
Proof.
  unfold scan_signatures, slice_from.
  destruct (0 <=? first_signature jpg_signatures b) eqn:E1.
  - intros H. injection H as <- <-. apply Z.leb_le in E1. split; [exact E1 |].
    destruct (first_signature_found _ _ E1) as (sig & Hin & Hf).
    destruct (BytesFacts.find_found _ _ _ Hf E1) as [Hs _].
    exists sig. split; [exact Hin | exact Hs].
  - destruct (0 <=? find b png_signature) eqn:E2; [| discriminate].
    intros H. injection H as <- <-. apply Z.leb_le in E2. split; [exact E2 |].
    destruct (BytesFacts.find_found _ _ _ eq_refl E2) as [Hs _].
    exists png_signature. split; [now left | exact Hs].
Qed.

Lemma detected_at_starts_with data t c :
  detected_at data t c ->
  exists sig, In sig (signatures_of t) /\ starts_with sig c = true.
Proof.
  intros (b & pos & c' & _ & Hscan & ->).
  destruct (scan_signatures_typed _ _ _ Hscan) as (_ & sig & Hin & Hs).
  exists sig. split; [exact Hin | now apply starts_with_app].
Qed.

Lemma carved_update dir data f f' bound bound' r :
  carved dir data f bound r -> f' !! path r = f !! path r -> bound <= bound' ->
  carved dir data f' bound' r.
Proof.
  intros (n & t & c & Hn & Hp & Ht & Hf & Hs & Hdet & Hsl) Hf' Hb.
  exists n, t, c. rewrite Hf'. repeat split; auto; lia.
Qed.

Lemma carved_other_path dir data f bound r n t :
  carved dir data f bound r -> bound <= n -> path r <> recovered_path dir n t.
Proof.
  intros (n' & t' & c & Hn & Hp & _) Hb E. rewrite Hp in E.
  apply TextFacts.recovered_path_counter in E. lia.
Qed.

Lemma untouched_refl dir f : untouched dir f f.
Proof. intros p _. reflexivity. Qed.

Lemma untouched_step dir f0 f f' :
  untouched dir f0 f ->
  (forall p, ~ output_name dir p -> f' !! p = f !! p) ->
  untouched dir f0 f'.
Proof. intros H0 H p Hp. rewrite H by exact Hp. now apply H0. Qed.

(** ** Reading keeps the blocks aligned *)

Lemma slice_to_nil d : slice_to d block_size = [] -> d = [].
Proof. destruct d; [reflexivity | discriminate]. Qed.

Lemma aligned_first_read data :
  if truthy (slice_to data block_size)
  then blocks data = slice_to data block_size :: blocks (slice_from data block_size)
  else slice_from data block_size = [].
Proof.
  destruct (truthy (slice_to data block_size)) eqn:Hb.
  - now apply blocks_unfold.
  - apply slice_to_empty, slice_to_nil in Hb. now rewrite Hb.
Qed.

Lemma aligned_read data v w rb :
  aligned data v w ->
  aligned data (read_into v (slice_to (dev_data w) block_size))
          (with_dev w (slice_from (dev_data w) block_size) rb).
Proof.
  unfold aligned. wsimpl. intros H.
  pose proof (aligned_first_read (dev_data w)) as Hr.
  destruct (truthy (slice_to (dev_data w) block_size)) eqn:Hb; [| exact Hr].
  destruct (truthy (byte v)).
  - destruct H as [bs H]. exists (bs ++ [byte v]).
    rewrite H, Hr, <- app_assoc. reflexivity.
  - rewrite H in Hb. discriminate.
Qed.

Lemma consumed_ext data v w v' w' :
  consumed data v w -> byte v' = byte v -> dev_data w' = dev_data w ->
  consumed data v' w'.
Proof. unfold consumed, aligned. now intros H -> ->. Qed.

Lemma consumed_read data v w rb :
  (exists pre c, data = pre ++ c ++ dev_data w) -> aligned data v w ->
  consumed data (read_into v (slice_to (dev_data w) block_size))
           (with_dev w (slice_from (dev_data w) block_size) rb).
Proof.
  intros (pre & c & H) Ha. split; [| now apply aligned_read].
  exists (pre ++ c). wsimpl. rewrite <- slice_split, <- app_assoc. exact H.
Qed.

Lemma consumed_block data v w :
  consumed data v w -> truthy (byte v) = true -> In (byte v) (blocks data).
Proof.
  intros [_ Ha] Hb. unfold aligned in Ha. rewrite Hb in Ha.
  destruct Ha as [bs ->]. apply in_elt.
Qed.

Ltac open_post := unfold carve_post, inner_post; wsimpl.

(** ** The inner loop *)

Lemma inner_loop_carves data fuel total t fp : forall fs est v w c pre,
  files w !! fp = Some c -> data = pre ++ c ++ dev_data w -> consumed data v w ->
  wp (inner_loop fuel total t fp fs est v) (inner_post data fp c v w) w.
Proof.
  assert (Hstop : forall v w c pre,
            files w !! fp = Some c -> data = pre ++ c ++ dev_data w ->
            consumed data v w ->
            inner_post data fp c v w (Ret v) w).
  { intros v w c pre Hc Hd Hcons. split; [auto |].
    split; [reflexivity | split; [reflexivity | split; [exact Hcons |]]].
    exists []. rewrite app_nil_r. split; [exact Hc |]. now exists pre, (dev_data w). }
  induction fuel as [| fuel IH]; intros fs est v w c pre Hc Hd Hcons;
    rewrite inner_loop_eq.
  - repeat step; try (eapply Hstop; eauto); split; auto.
  - step. step; [step; eapply Hstop; eauto |].
    step. step; [split; auto |].
    pose proof (consumed_read data v w rb (ex_intro _ pre (ex_intro _ c Hd))
                  (proj2 Hcons)) as Hread.
    set (blk := slice_to (dev_data w) block_size) in *.
    set (d' := slice_from (dev_data w) block_size) in *.
    assert (Hsplit : dev_data w = blk ++ d') by apply slice_split.
    assert (Hcons' : forall v0 w0,
              byte v0 = blk -> dev_data w0 = d' -> consumed data v0 w0).
    { intros v0 w0 Hb Hd0. eapply consumed_ext; [exact Hread | exact Hb | exact Hd0]. }
    (* the states after the progress update *)
    assert (Hgen : forall v1 w1,
              byte v1 = blk -> rcvd v1 = rcvd v ->
              recovered_files v1 = recovered_files v ->
              dev_data w1 = d' -> files w1 = files w ->
              wp (if negb (truthy blk) then ret v1
                  else
                    let bfind := find blk (end_signature t) in
                    if 0 <=? bfind then
                      let* _ := fileN_write fp
                                  (slice_to blk (bfind + end_marker_length t)) in
                      ret v1
                    else
                      let* _ := fileN_write fp blk in
                      inner_loop fuel total t fp (fs + 1)
                                 (adjust_estimate (fs + 1) est) v1)
                 (inner_post data fp c v w) w1).
    { intros v1 w1 Hb1 Hr1 Hf1 Hd1 Hfs1.
      destruct (truthy blk) eqn:Htr; cbn [negb].
      - destruct (0 <=? find blk (end_signature t)) eqn:Hfind.
        + step. step; [split; [intros; now rewrite Hfs1 | exact I] |].
          step. open_post. split.
          * intros p Hp. rewrite lookup_insert_ne by auto. now rewrite Hfs1.
          * split; [exact Hr1 | split; [exact Hf1 | split; [now apply Hcons' |]]].
            exists (slice_to blk (find blk (end_signature t) + end_marker_length t)).
            rewrite lookup_insert_eq, Hfs1, Hc. cbn [default]. split; [reflexivity |].
            exists pre,
              (slice_from blk (find blk (end_signature t) + end_marker_length t) ++ d').
            rewrite Hd, Hsplit, <- !app_assoc. do 2 f_equal.
            rewrite !app_assoc. f_equal. apply slice_split.
        + step. step; [split; [intros; now rewrite Hfs1 | exact I] |].
          eapply wp_mono.
          { apply (IH _ _ v1 _ (c ++ blk) pre); wsimpl.
            - now rewrite lookup_insert_eq, Hfs1, Hc.
            - rewrite Hd1, Hd, Hsplit, <- !app_assoc. reflexivity.
            - apply Hcons'; auto. }
          intros o w2 [Hfr Ho]. open_post. split.
          * intros p Hp. rewrite Hfr by exact Hp.
            rewrite lookup_insert_ne by auto. now rewrite Hfs1.
          * destruct o as [v2 | e |]; auto.
            destruct Ho as (Hr2 & Hf2 & Hc2 & c' & Hfc & Hsl).
            split; [congruence | split; [congruence | split; [exact Hc2 |]]].
            exists (blk ++ c'). now rewrite app_assoc.
      - step. open_post. split; [intros; now rewrite Hfs1 |].
        split; [exact Hr1 | split; [exact Hf1 | split; [now apply Hcons' |]]].
        exists []. rewrite app_nil_r, Hfs1. split; [exact Hc |].
        now exists pre, (dev_data w). }
    step. step.
    + do 4 step. apply Hgen; reflexivity.
    + step. apply Hgen; reflexivity.
Qed.

(** ** One file *)

Lemma carve_file_carves dir data f0 fuel total t pos v w :
  scan_signatures (byte v) = Some (t, pos) ->
  untouched dir f0 (files w) -> carve_inv dir data f0 v w ->
  wp (carve_file fuel total dir t pos v) (carve_post dir data f0) w.
Proof.
  intros Hscan Hun (Hcount & Hrecs & Hcons).
  pose proof Hcons as [[pre Hd] _].
  assert (Hblock : In (byte v) (blocks data)).
  { apply (consumed_block data v w Hcons).
    destruct (byte v); [discriminate Hscan | reflexivity]. }
  assert (Hnn : 0 <= rcvd v) by lia.
  set (fp := recovered_path dir (rcvd v) t).
  assert (Hname : output_name dir fp) by (now exists (rcvd v), t).
  assert (Hother : forall f, (forall p, p <> fp -> f !! p = files w !! p) ->
                             untouched dir f0 f).
  { intros f Hf. eapply untouched_step; [exact Hun |].
    intros p Hp. apply Hf. intros ->. now apply Hp. }
  unfold carve_file. fold fp. do 4 step.
  { open_post. split; [| exact I].
    apply Hother. intros p Hp. now rewrite lookup_insert_ne. }
  step. eapply wp_mono.
  { apply (inner_loop_carves data fuel total t fp 0 1000 v _
             (slice_from (byte v) pos) (pre ++ slice_to (byte v) pos)); wsimpl.
    - now rewrite !lookup_insert_eq.
    - rewrite Hd, <- !app_assoc. f_equal. rewrite !app_assoc. f_equal. apply slice_split.
    - eapply consumed_ext; [exact Hcons | reflexivity | reflexivity]. }
  intros o w1 [Hfr Ho]. wsimpl.
  assert (Hfr' : forall p, p <> fp -> files w1 !! p = files w !! p).
  { intros p Hp. rewrite Hfr by exact Hp. now rewrite !lookup_insert_ne by auto. }
  destruct o as [v1 | e |]; try (open_post; split; [now apply Hother | exact I]).
  destruct Ho as (Hr1 & Hf1 & Hc1 & c' & Hfc & Hsl).
  unfold carve_epilogue. repeat step.
  { open_post. split; [now apply Hother | exact I]. }
  open_post. split; [now apply Hother |].
  unfold carve_inv. wsimpl. rewrite Hr1, Hf1. repeat split.
  - rewrite length_app. simpl. lia.
  - apply Forall_app. split.
    + eapply Forall_impl; [exact Hrecs |]. intros r Hr.
      eapply carved_update; [exact Hr | | lia].
      apply Hfr'. eapply carved_other_path; [exact Hr | lia].
    + constructor; [| constructor].
      exists (rcvd v), t, (slice_from (byte v) pos ++ c').
      cbn [path type size]. fold fp.
      match goal with
      | Hsz : files w1 !! fp = Some ?c1 |- context [len ?c1] =>
          assert (Ec : c1 = slice_from (byte v) pos ++ c') by congruence; rewrite Ec
      end.
      split; [lia |]. split; [reflexivity |]. split; [reflexivity |].
      split; [exact Hfc |]. split; [reflexivity |].
      split; [| exact Hsl]. now exists (byte v), pos, c'.
  - apply Hc1.
  - apply Hc1.
Qed.

(** ** The read that closes an iteration *)

Lemma outer_advance_carves dir data f0 total v w :
  untouched dir f0 (files w) -> carve_inv dir data f0 v w ->
  wp (outer_advance total v) (carve_post dir data f0) w.
Proof.
  intros Hun (Hcount & Hrecs & [[pre Hd] Ha]). unfold outer_advance.
  assert (Hc : forall rb, consumed data
                 (read_into v (slice_to (dev_data w) block_size))
                 (with_dev w (slice_from (dev_data w) block_size) rb)).
  { intros rb. apply consumed_read; [now exists pre, (byte v) | exact Ha]. }
  repeat step; (split; [exact Hun | try exact I]);
    (split; [exact Hcount | split; [exact Hrecs | apply Hc]]).
Qed.

(** ** The outer loop *)

Lemma outer_loop_carves dir data f0 fuel total : forall v w,
  untouched dir f0 (files w) -> carve_inv dir data f0 v w ->
  wp (outer_loop fuel total dir v) (carve_post dir data f0) w.
Proof.
  induction fuel as [| fuel IH]; intros v w Hun Hinv; rewrite outer_loop_eq.
  - repeat step; split; auto.
  - step; [step; split; auto |].
    step. step; [step; split; auto |].
    step.
    assert (H1 : wp (match scan_signatures (byte v) with
                     | Some (file_type, found_pos) =>
                         carve_file fuel total dir file_type found_pos v
                     | None => ret v
                     end) (carve_post dir data f0) (with_run w b)).
    { destruct (scan_signatures (byte v)) as [[t pos] |] eqn:Hscan.
      - apply carve_file_carves; auto.
      - step. split; auto. }
    eapply wp_mono; [exact H1 |].
    intros [v1 | e |] w1 [Hun1 Hpost]; [| split; auto | split; auto].
    step. eapply wp_mono; [apply outer_advance_carves; eauto |].
    intros [v2 | e |] w2 [Hun2 Hpost2]; [| split; auto | split; auto].
    apply IH; auto.
Qed.

(** ** The whole scan *)

Lemma raw_recovery_body_carves fuel drive dir w :
  wp (raw_recovery_body fuel drive dir)
     (fun o w' =>
        untouched dir (files w) (files w')
        /\ match o with
           | Ret l =>
               Forall (carved dir (dev_data w) (files w') (Z.of_nat (List.length l))) l
               /\ exists s, signals w'
                            = s ++ [progress_updated 98;
                                    status_updated (scan_complete_msg (List.length l))]
           | _ => True
           end) w.
Proof.
  unfold raw_recovery_body. do 5 step.
  { step. split; [apply untouched_refl | exact I]. }
  do 4 step.
  { split; [apply untouched_refl | exact I]. }
  step. eapply wp_mono.
  { apply (outer_loop_carves dir (dev_data w) (files w)); wsimpl.
    - apply untouched_refl.
    - split; [reflexivity | split; [constructor |]].
      split; wsimpl.
      + exists []. apply slice_split.
      + unfold aligned. wsimpl. pose proof (aligned_first_read (dev_data w)) as Hr.
        destruct (truthy (slice_to (dev_data w) block_size)); [| exact Hr].
        now exists []. }
  intros [v | e |] w1 [Hun Hpost]; [| split; auto | split; auto].
  destruct Hpost as (Hcount & Hrecs & _). repeat step.
  split; [exact Hun |]. split.
  - now rewrite <- Hcount.
  - exists (signals w1). unfold scan_complete_msg. rewrite <- Hcount.
    now rewrite <- app_assoc.
Qed.

(** The method: its records are carved files, the files that are not
    carved files are as they were, and its signals end with the closing
    message or with an error. *)
Lemma raw_recovery_carves drive dir w :
  untouched dir (files w) (files (snd (raw_recovery drive dir w)))
  /\ Forall (carved dir (dev_data w) (files (snd (raw_recovery drive dir w)))
               (Z.of_nat (List.length (records (raw_recovery drive dir w)))))
            (records (raw_recovery drive dir w))
  /\ ((exists s, signals (snd (raw_recovery drive dir w))
                 = s ++ [progress_updated 98;
                         status_updated
                           (scan_complete_msg
                              (List.length (records (raw_recovery drive dir w))))])
      \/ (exists s m, signals (snd (raw_recovery drive dir w)) = s ++ [error_occurred m]
                      /\ records (raw_recovery drive dir w) = [])).
Proof.
  pose proof (raw_recovery_body_carves (enough_fuel w) drive dir w) as H.
  pose proof (raw_recovery_total drive dir w) as Htot.
  unfold wp in H. unfold records, raw_recovery, raw_recovery_fuel in *.
  destruct (raw_recovery_body (enough_fuel w) drive dir w) as [[l | e |] w1];
    cbn [fst snd] in *.
  - destruct H as (Hun & Hrecs & Hs). auto.
  - destruct H as [Hun _]. cbn. repeat split; auto.
    right. eexists _, _. split; reflexivity.
  - now elim Htot.
Qed.

(** ** Two scans that end at once *)




End CarvingFacts.

(* ================================================================== *)
(** * Further properties of the carving engine *)
(* ================================================================== *)

Module CarverExtras.
Import Bytes Carver Vocabulary Logic CarverFacts CarvingVocabulary CarvingFacts Examples.

(** Names and sizes.  Every record returned by a scan names a file that
    the output directory holds when the scan ends; the name is
    [recovered_<n>.<type>] for a number [n] below the number of records,
    and the size of the record is the length of that file. *)
Theorem records_name_the_files_and_their_sizes drive dir w :
  Forall (fun r =>
            exists n t c,
              0 <= n < Z.of_nat (List.length (records (raw_recovery drive dir w)))
              /\ path r = recovered_path dir n t /\ type r = ext t
              /\ files (snd (raw_recovery drive dir w)) !! path r = Some c
              /\ size r = len c)
         (records (raw_recovery drive dir w)).
Proof.
  destruct (raw_recovery_carves drive dir w) as (_ & Hrecs & _).
  eapply Forall_impl; [exact Hrecs |].
  intros r (n & t & c & Hn & Hp & Ht & Hf & Hs & _). now exists n, t, c.
Qed.

(** Contents.  The file of every record holds a run of consecutive
    bytes of the device, as the device was when the scan began, and this
    run begins with a start signature of the type of the record. *)
Theorem carved_files_are_runs_of_the_device drive dir w :
  Forall (fun r =>
            exists c t sig,
              files (snd (raw_recovery drive dir w)) !! path r = Some c
              /\ slice_of c (dev_data w)
              /\ type r = ext t /\ In sig (signatures_of t)
              /\ starts_with sig c = true)
         (records (raw_recovery drive dir w)).
Proof.
  destruct (raw_recovery_carves drive dir w) as (_ & Hrecs & _).
  eapply Forall_impl; [exact Hrecs |].
  intros r (n & t & c & Hn & Hp & Ht & Hf & Hs & Hdet & Hsl).
  destruct (detected_at_starts_with _ _ _ Hdet) as (sig & Hin & Hst).
  now exists c, t, sig.
Qed.

(** The first block.  The file of every record begins with all that the
    block of its detection holds from the signature on: the end signature
    is looked for in the blocks read after that one only, so that a file
    never ends inside the block where it starts. *)
Theorem carved_files_keep_the_rest_of_their_first_block drive dir w :
  Forall (fun r =>
            exists c t b pos c',
              files (snd (raw_recovery drive dir w)) !! path r = Some c
              /\ type r = ext t
              /\ In b (blocks (dev_data w)) /\ scan_signatures b = Some (t, pos)
              /\ c = slice_from b pos ++ c')
         (records (raw_recovery drive dir w)).
Proof.
  destruct (raw_recovery_carves drive dir w) as (_ & Hrecs & _).
  eapply Forall_impl; [exact Hrecs |].
  intros r (n & t & c & Hn & Hp & Ht & Hf & Hs & (b & pos & c' & Hb & Hscan & Hc) & Hsl).
  now exists c, t, b, pos, c'.
Qed.

(** What a scan never writes.  Whatever the device holds and however
    the scan ends, a file whose path is not [recovered_<n>.<jpg|png>] in
    the output directory is after the scan what it was before: neither
    created, nor changed, nor removed. *)
Theorem scan_leaves_the_other_files_alone drive dir w p :
  (forall n t, p <> recovered_path dir n t) ->
  files (snd (raw_recovery drive dir w)) !! p = files w !! p.
Proof.
  intros Hp. destruct (raw_recovery_carves drive dir w) as (Hun & _).
  apply Hun. intros (n & t & E). exact (Hp n t E).
Qed.

Lemma scan_leaves_the_other_files_alone_witness :
  files (snd (raw_recovery raw_drive "out" (fresh_world aligned_stream)))
    !! "out/notes.txt"
  = files (fresh_world aligned_stream) !! "out/notes.txt".
Proof.
  apply (scan_leaves_the_other_files_alone raw_drive "out"
           (fresh_world aligned_stream) "out/notes.txt").
  intros n t H. rewrite TextFacts.recovered_path_eq in H. simpl in H. discriminate H.
Defined.

(** The closing message.  A scan ends in one of two ways: with the
    percentage 98 followed by the message [Scan complete. Found <n>
    files.], where [n] is the number of records it returns; or with an
    [error_occurred] signal, and then it returns no record. *)
Theorem closing_message_counts_the_records drive dir w :
  (exists s,
     signals (snd (raw_recovery drive dir w))
     = s ++ [progress_updated 98;
             status_updated
               ("Scan complete. Found "
                +:+ Text.dec (Z.of_nat (List.length (records (raw_recovery drive dir w))))
                +:+ " files.")])
  \/ (exists s m,
        signals (snd (raw_recovery drive dir w)) = s ++ [error_occurred m]
        /\ records (raw_recovery drive dir w) = []).
Proof.
  destruct (raw_recovery_carves drive dir w) as (_ & _ & H). exact H.
Qed.





(** Files without an end.  When the scan is stopped, or the device is
    exhausted, right after a start signature was found, the file just
    opened is closed with what the block held from the signature on, and
    it is recorded like any other, with the status ['Recovered']: a
    record does not tell whether the end signature was met. *)
Theorem unfinished_file_is_recorded fuel total dir t pos v w wb :
  spend (write_budget w) = Some wb ->
  run_budget w = Some 0%nat
  \/ (dev_data w = [] /\ fuel <> 0%nat /\ spend (read_budget w) <> None) ->
  exists v' w',
    carve_file fuel total dir t pos v w = (Ret v', w')
    /\ recovered_files v'
       = recovered_files v
         ++ [mkFileInfo (recovered_path dir (rcvd v) t)
                        (len (slice_from (byte v) pos)) (ext t) "Recovered" None]
    /\ files w' !! recovered_path dir (rcvd v) t = Some (slice_from (byte v) pos).
Proof.
  intros Hwb Hcase.
  set (fp := recovered_path dir (rcvd v) t).
  set (c := slice_from (byte v) pos).
  assert (H : wp (carve_file fuel total dir t pos v)
                 (fun o w' =>
                    exists v', o = Ret v'
                      /\ recovered_files v'
                         = recovered_files v
                           ++ [mkFileInfo fp (len c) (ext t) "Recovered" None]
                      /\ files w' !! fp = Some c) w).
  { unfold carve_file. fold fp c. do 4 step; [congruence |].
    assert (wb0 = wb) by congruence. subst wb0.
    rewrite lookup_insert_eq. cbn [default app].
    step.
    assert (Hin : wp (inner_loop fuel total t fp 0 1000 v)
                     (fun o w' =>
                        exists v', o = Ret v'
                          /\ rcvd v' = rcvd v /\ recovered_files v' = recovered_files v
                          /\ files w' !! fp = Some c)
                     (with_files (with_files w (<[fp:=[]]> (files w)) (write_budget w))
                        (<[fp:=c]> (<[fp:=[]]> (files w))) wb)).
    { rewrite inner_loop_eq. step. step.
      - step. exists v. wsimpl. rewrite lookup_insert_eq. auto.
      - destruct Hcase as [Hrun | (Hdev & Hfuel & Hrd)];
          [rewrite Hrun in *; discriminate |].
        destruct fuel as [| fuel']; [now elim Hfuel |].
        step. step; [contradiction |].
        rewrite Hdev. unfold slice_to, slice_from. rewrite firstn_nil, skipn_nil.
        cbn [truthy]. repeat step; try discriminate;
          (eexists; wsimpl; rewrite lookup_insert_eq; auto). }
    eapply wp_mono; [exact Hin |].
    intros o w1 (v1 & -> & Hr1 & Hf1 & Hc1).
    unfold carve_epilogue. repeat step; [congruence |].
    eexists. split; [reflexivity |]. wsimpl. rewrite Hf1.
    assert (c0 = c) by congruence. subst c0. auto. }
  unfold wp in H. destruct (carve_file fuel total dir t pos v w) as [o w'].
  destruct H as (v' & Ho & Hr & Hf). cbn [fst snd] in *. subst o. eauto.
Qed.

Lemma unfinished_file_is_recorded_witness :
  exists v' w',
    carve_file 5 1000000 "out" jpg 500 (scan_vars (slice_to aligned_stream block_size))
               (mkWorld true None (slice_from aligned_stream block_size)
                        None None (Some 0%nat) ∅ [])
    = (Ret v', w')
    /\ recovered_files v'
       = [mkFileInfo "out/recovered_0.jpg" 12 "jpg" "Recovered" None]
    /\ files w' !! "out/recovered_0.jpg"
       = Some (jfif ++ [Byte.x41; Byte.x41; Byte.x41; Byte.x41]).
Proof.
  exact (unfinished_file_is_recorded 5 1000000 "out" jpg 500
           (scan_vars (slice_to aligned_stream block_size))
           (mkWorld true None (slice_from aligned_stream block_size)
                    None None (Some 0%nat) ∅ [])
           None eq_refl (or_introl eq_refl)).
Defined.

End CarverExtras.

(* ================================================================== *)
(** * The quarantine *)
(* ================================================================== *)

Module QuarantineFacts.
Import Bytes Verifier VerifierVocabulary VerifierFacts QuarantineVocabulary.

Section WithLibraries.

Variable sha256_hex : bytes -> string.
Variable image_probe : bytes -> option (string * Z * Z).

Local Abbreviation verify_one := (verify_one sha256_hex image_probe).
Local Abbreviation verify_pass := (verify_pass sha256_hex image_probe).
Local Abbreviation verify_files := (verify_files sha256_hex image_probe).
Local Abbreviation verified := (verified sha256_hex image_probe).
Local Abbreviation accounted := (accounted sha256_hex image_probe).

Lemma verify_files_as_pass recs dir d :
  makedirs_ok d = true ->
  verify_files recs dir d
  = (snd (verify_pass dir 0 d recs), snd (fst (verify_pass dir 0 d recs))).
Proof.
  intros H. unfold Verifier.verify_files. rewrite H.
  now rewrite verify_loop_pass.
Qed.

Lemma outside_not_quarantine dir x k p :
  in_dir dir x = false -> x <> corrupted_path dir k p.
Proof.
  intros H ->. rewrite TextFacts.corrupted_path_in_dir in H. discriminate.
Qed.

(** One record of a pass keeps its size and its type; its path is kept,
    or is a quarantine name made from the path it had. *)
Lemma verify_one_fields dir n d fi :
  0 <= n ->
  size (snd (verify_one dir n d fi)) = size fi
  /\ type (snd (verify_one dir n d fi)) = type fi
  /\ (path (snd (verify_one dir n d fi)) = path fi
      \/ (status (snd (verify_one dir n d fi)) = "Corrupted"
          /\ exists k, 0 < k
               /\ path (snd (verify_one dir n d fi)) = corrupted_path dir k (path fi))).
Proof.
  intros Hn. destruct (verify_one_verified sha256_hex image_probe dir n d fi);
    cbn; repeat split; auto.
  right. split; [reflexivity |]. exists (n + 1). split; [lia | reflexivity].
Qed.

Lemma verify_pass_fields dir : forall recs n d,
  0 <= n ->
  Forall2 (fun fi r =>
             size r = size fi /\ type r = type fi
             /\ (path r = path fi
                 \/ (status r = "Corrupted"
                     /\ exists k, 0 < k /\ path r = corrupted_path dir k (path fi))))
          recs (snd (verify_pass dir n d recs)).
Proof.
  induction recs as [| fi rest IH]; intros n d Hn; [constructor |].
  rewrite verify_pass_cons. cbn [snd]. constructor.
  - now apply verify_one_fields.
  - apply IH. pose proof (verify_one_counter sha256_hex image_probe dir n d fi). lia.
Qed.

(** The records a pass has moved bear quarantine names above its
    counter. *)
Lemma verify_pass_quarantined dir : forall recs n d r',
  In r' (snd (verify_pass dir n d recs)) -> status r' = "Corrupted" ->
  exists k p, n < k /\ path r' = corrupted_path dir k p.
Proof.
  induction recs as [| fi rest IH]; intros n d r' Hin Hst; [elim Hin |].
  rewrite verify_pass_cons in Hin. cbn [fst snd] in Hin.
  pose proof (verify_one_counter sha256_hex image_probe dir n d fi) as Hn.
  destruct Hin as [<- | Hin].
  - destruct (verify_one_verified sha256_hex image_probe dir n d fi);
      cbn in Hst; try discriminate.
    exists (n + 1), (path fi). split; [lia | reflexivity].
  - destruct (IH _ _ _ Hin Hst) as (k & p & Hk & Hp).
    exists k, p. split; [lia | exact Hp].
Qed.

Lemma verify_pass_quarantine_nodup dir : forall recs n d,
  List.NoDup (map path (quarantined (snd (verify_pass dir n d recs)))).
Proof.
  induction recs as [| fi rest IH]; intros n d; [constructor |].
  rewrite verify_pass_cons. cbn [snd]. unfold quarantined. cbn [List.filter].
  fold (quarantined (snd (verify_pass dir (fst (fst (verify_one dir n d fi)))
                            (snd (fst (verify_one dir n d fi))) rest))).
  destruct (String.eqb (status (snd (verify_one dir n d fi))) "Corrupted") eqn:E;
    [| apply IH].
  cbn [map]. constructor; [| apply IH].
  intros Hin. apply in_map_iff in Hin. destruct Hin as (r'' & Ep & Hr'').
  apply filter_In in Hr''. destruct Hr'' as [Hr'' Hs''].
  apply String.eqb_eq in Hs''.
  destruct (verify_pass_quarantined dir _ _ _ _ Hr'' Hs'') as (k & p & Hk & Hp).
  rewrite Hp in Ep.
  destruct (verify_one_verified sha256_hex image_probe dir n d fi);
    cbn in E; try discriminate.
  cbn [fst snd path set_status set_path] in *.
  apply TextFacts.corrupted_path_counter in Ep. lia.
Qed.

Lemma accounted_ext dir d0 d0' d1 fi r :
  files d0 !! path fi = files d0' !! path fi ->
  accounted dir d0' d1 fi r -> accounted dir d0 d1 fi r.
Proof.
  intros Hf H. pose proof (verify_image_integrity_ext image_probe d0 d0' _ (type fi) Hf) as Hv.
  destruct H; [constructor 1 | econstructor 2 | econstructor 3 | econstructor 4];
    eauto; congruence.
Qed.

(** A pass over records with distinct paths outside the quarantine
    directory accounts for each of them, judged on any disk that agrees
    with the disk of the pass on the paths of the records. *)
Lemma verify_pass_accounted dir : forall recs n d d0,
  0 <= n ->
  (forall r, In r recs -> files d0 !! path r = files d !! path r) ->
  Forall (fun r => in_dir dir (path r) = false) recs ->
  List.NoDup (map path recs) ->
  Forall2 (accounted dir d0 (snd (fst (verify_pass dir n d recs))))
          recs (snd (verify_pass dir n d recs)).
Proof.
  induction recs as [| fi rest IH]; intros n d d0 Hn Hd0 Hout Hnd; [constructor |].
  rewrite verify_pass_cons. cbn [fst snd].
  inversion Hout as [| ? ? Hfi Hrest]; subst.
  inversion Hnd as [| ? ? Hnotin Hnd']; subst.
  pose proof (verify_one_verified sha256_hex image_probe dir n d fi) as Hver.
  pose proof (verify_one_counter sha256_hex image_probe dir n d fi) as Hcnt.
  set (n' := fst (fst (verify_one dir n d fi))) in *.
  set (d' := snd (fst (verify_one dir n d fi))) in *.
  set (r' := snd (verify_one dir n d fi)) in *.
  assert (Hrest_out : forall r, In r rest -> in_dir dir (path r) = false).
  { now apply List.Forall_forall. }
  assert (Hrest_ne : forall r, In r rest -> path r <> path fi).
  { intros r Hr E. apply Hnotin. rewrite <- E. now apply in_map. }
  (* the rest of the pass leaves alone the old and the new path *)
  assert (Hframe : forall x,
            x = path fi \/ x = corrupted_path dir n' (path fi) ->
            files (snd (fst (verify_pass dir n' d' rest))) !! x = files d' !! x).
  { intros x Hx. apply verify_pass_frame.
    - intros r Hr E. destruct Hx as [-> | ->].
      + now apply (Hrest_ne r).
      + specialize (Hrest_out r Hr).
        rewrite E, TextFacts.corrupted_path_in_dir in Hrest_out. discriminate.
    - intros k p Hk E. destruct Hx as [-> | ->].
      + rewrite E, TextFacts.corrupted_path_in_dir in Hfi. discriminate.
      + apply TextFacts.corrupted_path_counter in E. lia. }
  assert (Hne : path fi <> corrupted_path dir (n + 1) (path fi)).
  { now apply outside_not_quarantine. }
  constructor.
  - apply (accounted_ext dir d0 d); [apply Hd0; now left |].
    subst n' d' r'.
    destruct Hver as [Hc | c Hc Hv | c Hc Hv Hm | c Hc Hv Hm];
      cbn [fst snd] in *.
    + constructor 1; [exact Hc |]. rewrite Hframe by auto. exact Hc.
    + econstructor 2; eauto. rewrite Hframe by auto. exact Hc.
    + econstructor 3; eauto; try lia.
      * rewrite Hframe by auto. cbn [files with_files].
        rewrite lookup_insert_ne by auto. apply lookup_delete_eq.
      * rewrite Hframe by auto. cbn [files with_files]. apply lookup_insert_eq.
    + econstructor 4; eauto. rewrite Hframe by auto. exact Hc.
  - apply IH; auto; [lia |].
    intros r Hr. rewrite (Hd0 r) by now right.
    subst n' d' r'. destruct Hver; cbn [fst snd files with_files] in *; auto.
    rewrite lookup_insert_ne
      by (apply not_eq_sym, outside_not_quarantine; now apply Hrest_out).
    symmetry. apply lookup_delete_ne. apply not_eq_sym. now apply Hrest_ne.
Qed.

End WithLibraries.

End QuarantineFacts.

(* ================================================================== *)
(** * Further properties of the verifier *)
(* ================================================================== *)

Module VerifierExtras.
Import Bytes Verifier VerifierVocabulary VerifierFacts VerifierExamples.
Import QuarantineVocabulary QuarantineFacts.

Section WithLibraries.

Variable sha256_hex : bytes -> string.
Variable image_probe : bytes -> option (string * Z * Z).

Local Abbreviation verify_pass := (verify_pass sha256_hex image_probe).
Local Abbreviation verify_files := (verify_files sha256_hex image_probe).

(** Order, sizes and types.  A verification returns one record for each
    record it was given, in the same order; it leaves the size and the
    type of every record as they were, and changes a path only into the
    quarantine name made from it, together with the status
    ['Corrupted']. *)
Theorem verification_keeps_order_size_and_type recs dir d :
  Forall2 (fun fi r =>
             size r = size fi /\ type r = type fi
             /\ (path r = path fi
                 \/ (status r = "Corrupted"
                     /\ exists k, 0 < k /\ path r = corrupted_path dir k (path fi))))
          recs (fst (verify_files recs dir d)).
Proof.
  destruct (makedirs_ok d) eqn:Hmk.
  - rewrite (verify_files_as_pass _ _ _ _ _ Hmk). cbn [fst].
    apply verify_pass_fields. lia.
  - unfold Verifier.verify_files. rewrite Hmk. cbn [fst].
    induction recs; constructor; auto.
Qed.

(** No collision in the quarantine.  The files moved by one
    verification go to pairwise distinct paths, whatever their names
    were: no quarantined file overwrites another one of the same pass. *)
Theorem quarantine_names_do_not_collide recs dir d :
  makedirs_ok d = true ->
  List.NoDup (map path (quarantined (fst (verify_files recs dir d)))).
Proof.
  intros Hmk. rewrite (verify_files_as_pass _ _ _ _ _ Hmk). cbn [fst].
  apply verify_pass_quarantine_nodup.
Qed.

(** Files that are not listed.  A verification leaves alone every file
    that is outside the quarantine directory and is not the file of one
    of the records, all paths being written in normal form and the way
    the quarantine directory is, so that two of them that differ name
    two files. *)
Theorem verification_leaves_the_other_files_alone recs dir d x :
  normalized dir = true -> canonical dir x = true ->
  Forall (fun r => canonical dir (path r) = true) recs ->
  (forall r, In r recs -> path r <> x) -> in_dir dir x = false ->
  files (snd (verify_files recs dir d)) !! x = files d !! x.
Proof.
  intros _ _ _ Hsrc Hout. destruct (makedirs_ok d) eqn:Hmk.
  - rewrite (verify_files_as_pass _ _ _ _ _ Hmk). cbn [snd].
    apply verify_pass_frame; [exact Hsrc |].
    intros k p _. now apply outside_not_quarantine.
  - unfold Verifier.verify_files. now rewrite Hmk.
Qed.


(** Contents.  On records that name pairwise distinct files outside the
    quarantine directory (their paths are pairwise distinct, in normal
    form and written the way the quarantine directory is), every file is
    found after the verification, with the content it had, at the path
    its record then gives; and a file whose record has changed path has
    left the path it had. *)
Theorem verified_records_lead_to_their_files recs dir d :
  normalized dir = true ->
  Forall (fun r => canonical dir (path r) = true) recs ->
  Forall (fun r => in_dir dir (path r) = false) recs ->
  List.NoDup (map path recs) ->
  Forall2 (fun fi r =>
             files (snd (verify_files recs dir d)) !! path r = files d !! path fi
             /\ (path r <> path fi ->
                 files (snd (verify_files recs dir d)) !! path fi = None))
          recs (fst (verify_files recs dir d)).
Proof.
  intros _ _ Hout Hnd. destruct (makedirs_ok d) eqn:Hmk.
  - rewrite (verify_files_as_pass _ _ _ _ _ Hmk). cbn [fst snd].
    eapply Forall2_impl.
    { apply (verify_pass_accounted sha256_hex image_probe dir recs 0 d d);
        auto; lia. }
    intros fi r Hacc.
    destruct Hacc as [Hc H1 | c Hc Hv H1 | c k Hc Hv Hk H1 H2 | c Hc Hv H1];
      cbn [path set_status set_hash set_path]; rewrite Hc;
      (split; [assumption | intros Hne; try assumption; now elim Hne]).
  - unfold Verifier.verify_files. rewrite Hmk. cbn [fst snd].
    clear. induction recs; constructor; auto. split; [reflexivity | intros H; now elim H].
Qed.

End WithLibraries.

Lemma quarantine_names_do_not_collide_witness :
  List.NoDup
    (map path
       (quarantined
          (fst (verify_files toy_sha256_hex toy_image_probe
                  [recovered "a/x.jpg" "jpg" 4; recovered "b/x.jpg" "jpg" 4]
                  quarantine
                  (easy_disk {[ "a/x.jpg" := bad_jpeg; "b/x.jpg" := bad_jpeg ]}))))).
Proof.
  apply (quarantine_names_do_not_collide toy_sha256_hex toy_image_probe
           [recovered "a/x.jpg" "jpg" 4; recovered "b/x.jpg" "jpg" 4]
           quarantine
           (easy_disk {[ "a/x.jpg" := bad_jpeg; "b/x.jpg" := bad_jpeg ]})).
  reflexivity.
Defined.

Lemma verification_leaves_the_other_files_alone_witness :
  files (snd (verify_files toy_sha256_hex toy_image_probe carved_records quarantine
                (easy_disk {[ "out/recovered_1.jpg" := bad_jpeg;
                              "out/notes.txt" := good_jpeg ]})))
    !! "out/notes.txt"
  = Some good_jpeg.
Proof.
  rewrite (verification_leaves_the_other_files_alone toy_sha256_hex toy_image_probe
             carved_records quarantine
             (easy_disk {[ "out/recovered_1.jpg" := bad_jpeg;
                           "out/notes.txt" := good_jpeg ]})
             "out/notes.txt").
  - reflexivity.
  - reflexivity.
  - reflexivity.
  - repeat constructor.
  - intros r [<- | [<- | [<- | []]]]; discriminate.
  - reflexivity.
Defined.


Lemma verified_records_lead_to_their_files_witness :
  Forall2 (fun fi r =>
             files (snd (verify_files toy_sha256_hex toy_image_probe carved_records
                           quarantine carved_disk)) !! path r
             = files carved_disk !! path fi
             /\ (path r <> path fi ->
                 files (snd (verify_files toy_sha256_hex toy_image_probe carved_records
                               quarantine carved_disk)) !! path fi = None))
          carved_records
          (fst (verify_files toy_sha256_hex toy_image_probe carved_records quarantine
                  carved_disk)).
Proof.
  apply (verified_records_lead_to_their_files toy_sha256_hex toy_image_probe
           carved_records quarantine carved_disk).
  - reflexivity.
  - repeat constructor.
  - repeat constructor.
  - repeat constructor; simpl; intuition discriminate.
Defined.

End VerifierExtras.

(* ================================================================== *)
(** * Facts about a run *)
(* ================================================================== *)

Module RunFacts.
Import Bytes Carver Vocabulary Logic CarverFacts Strings Host RunVocabulary.
Import CarvingVocabulary CarvingFacts.
Import Report Existing Worker.

(** ** Sequencing *)

Lemma bind_ret {A B} (m : M A) (k : A -> M B) w a w' :
  m w = (Ret a, w') -> bind m k w = k a w'.
Proof. unfold bind. now intros ->. Qed.

Lemma bind_raise {A B} (m : M A) (k : A -> M B) w e w' :
  m w = (Raise e, w') -> bind m k w = (Raise e, w').
Proof. unfold bind. now intros ->. Qed.

Lemma only_files_changed_refl w : only_files_changed w w.
Proof. now destruct w. Qed.

Lemma only_files_changed_trans w1 w2 w3 :
  only_files_changed w1 w2 -> only_files_changed w2 w3 -> only_files_changed w1 w3.
Proof.
  unfold only_files_changed. intros H1 H2. rewrite H2 at 1. rewrite H1 at 1.
  reflexivity.
Qed.

Lemma only_files_changed_with_files w f wb :
  only_files_changed w (with_files w f wb).
Proof. reflexivity. Qed.

Lemma only_files_changed_fields w w' :
  only_files_changed w w' ->
  signals w' = signals w /\ dev_data w' = dev_data w
  /\ run_budget w' = run_budget w /\ read_budget w' = read_budget w
  /\ dev_present w' = dev_present w /\ dev_size w' = dev_size w.
Proof. intros ->. repeat split. Qed.

Lemma file_operation_ret {A} (a : A) : file_operation (ret a).
Proof. intros w. split; [now exists a | apply only_files_changed_refl]. Qed.

Lemma file_operation_bind {A B} (m : M A) (k : A -> M B) :
  file_operation m -> (forall a, file_operation (k a)) -> file_operation (bind m k).
Proof.
  intros Hm Hk w. destruct (Hm w) as [[a Ha] Hw]. unfold bind.
  destruct (m w) as [o w1]. cbn [fst snd] in *. subst o.
  destruct (Hk a w1) as [Hb Hw1]. split; [exact Hb |].
  eapply only_files_changed_trans; eauto.
Qed.

(** ** The flag through a scan *)

Section Flag.

Variable Q : option nat -> Prop.
Hypothesis Q_spend : forall rb rb', Q rb -> spend rb = Some rb' -> Q rb'.

Local Ltac flag := wsimpl; eauto using Q_spend.

Lemma inner_loop_flag fuel total t fp : forall fs est v w,
  Q (run_budget w) ->
  wp (inner_loop fuel total t fp fs est v) (fun _ w' => Q (run_budget w')) w.
Proof.
  induction fuel as [| fuel IH]; intros fs est v w HQ; rewrite inner_loop_eq.
  - repeat step; flag.
  - repeat step; try apply IH; flag.
Qed.

Lemma carve_file_flag fuel total dir t pos v w :
  Q (run_budget w) ->
  wp (carve_file fuel total dir t pos v) (fun _ w' => Q (run_budget w')) w.
Proof.
  intros HQ. unfold carve_file. do 4 step; [flag |].
  step. eapply wp_mono; [apply inner_loop_flag; flag |].
  intros [v' | e |] w' HQ'; auto.
  unfold carve_epilogue. repeat step; flag.
Qed.

Lemma outer_advance_flag total v w :
  Q (run_budget w) ->
  wp (outer_advance total v) (fun _ w' => Q (run_budget w')) w.
Proof. intros HQ. unfold outer_advance. repeat step; flag. Qed.

Lemma outer_loop_flag fuel total dir : forall v w,
  Q (run_budget w) ->
  wp (outer_loop fuel total dir v) (fun _ w' => Q (run_budget w')) w.
Proof.
  induction fuel as [| fuel IH]; intros v w HQ; rewrite outer_loop_eq.
  - repeat step; flag.
  - step; [step; flag |].
    step. step; [step; flag |].
    step.
    assert (H1 : wp (match scan_signatures (byte v) with
                     | Some (file_type, found_pos) =>
                         carve_file fuel total dir file_type found_pos v
                     | None => ret v
                     end) (fun _ w' => Q (run_budget w')) (with_run w b)).
    { destruct (scan_signatures (byte v)) as [[t pos] |].
      - apply carve_file_flag. flag.
      - step. flag. }
    eapply wp_mono; [exact H1 |].
    intros [v1 | e |] w1 HQ1; auto.
    step. eapply wp_mono; [apply outer_advance_flag; exact HQ1 |].
    intros [v2 | e |] w2 HQ2; auto.
Qed.

Lemma raw_recovery_flag drive dir w :
  Q (run_budget w) -> Q (run_budget (snd (raw_recovery drive dir w))).
Proof.
  intros HQ.
  assert (H : wp (raw_recovery_body (enough_fuel w) drive dir)
                 (fun _ w' => Q (run_budget w')) w).
  { unfold raw_recovery_body. do 5 step; [step; flag |].
    do 4 step; [flag |].
    step. eapply wp_mono; [apply outer_loop_flag; flag |].
    intros [v | e |] w1 HQ1; auto. }
  unfold wp in H. unfold raw_recovery, raw_recovery_fuel.
  destruct (raw_recovery_body (enough_fuel w) drive dir w) as [[l | e |] w1];
    cbn [fst snd] in *; auto.
Qed.

End Flag.

(** ** The percentages of a scan that starts after other signals *)

Lemma appended_progress_status before prev s m :
  appended_progress before prev s ->
  appended_progress before prev (s ++ [status_updated m]).
Proof.
  intros (l & Hl & H). exists l. rewrite progress_of_app. simpl.
  now rewrite app_nil_r.
Qed.

Lemma appended_progress_progress before prev s x :
  appended_progress before prev s -> prev < x -> x <= 95 ->
  appended_progress before x (s ++ [progress_updated x]).
Proof.
  intros (l & Hl & Hinc & Hall & Hprev) Hx Hx95. exists (l ++ [x]).
  rewrite progress_of_app, Hl. simpl. rewrite <- app_assoc.
  split; [reflexivity |]. split; [| split].
  - eapply increasing_from_snoc; eauto. lia.
  - apply Forall_app. split.
    + eapply Forall_impl; [exact Hall |]. simpl. intros; lia.
    + constructor; [lia | constructor].
  - lia.
Qed.

(** A scan appends its percentages to the signals it finds: they
    increase strictly from 0 and end at 98 at most. *)
Lemma raw_recovery_appends_progress drive dir w :
  exists l,
    progress_of (signals (snd (raw_recovery drive dir w)))
    = progress_of (signals w) ++ l
    /\ increasing_from 0 l /\ Forall (fun p => p <= 98) l.
Proof.
  pose proof (raw_recovery_body_inv (appended_progress (signals w))
                (appended_progress_status (signals w))
                (appended_progress_progress (signals w))
                (enough_fuel w) drive dir w) as H.
  assert (H0 : forall m, appended_progress (signals w) 0
                           (signals w ++ [status_updated m])).
  { intros m. apply appended_progress_status. exists [].
    rewrite app_nil_r. repeat split; simpl; auto; lia. }
  specialize (H H0). unfold wp in H. unfold raw_recovery, raw_recovery_fuel.
  assert (Hle : forall prev l, Forall (fun y => y <= prev) l -> prev <= 95 ->
                               Forall (fun p => p <= 98) l).
  { intros prev l Hall Hp. eapply Forall_impl; [exact Hall |]. simpl. intros; lia. }
  destruct (raw_recovery_body (enough_fuel w) drive dir w) as [[l | e |] w1];
    cbn [fst snd] in *.
  - destruct H as [_ (prev & s & m & Hs & l' & Hl & Hinc & Hall & Hprev)].
    exists (l' ++ [98]). rewrite Hs, progress_of_app, Hl. simpl.
    rewrite <- app_assoc. split; [reflexivity |]. split.
    + eapply increasing_from_snoc; eauto; lia.
    + apply Forall_app. split; [eapply Hle; eauto; lia |].
      constructor; [lia | constructor].
  - destruct H as (prev & l' & Hl & Hinc & Hall & Hprev).
    exists l'. cbn. rewrite progress_of_app, Hl. simpl. rewrite app_nil_r.
    split; [reflexivity |]. split; [exact Hinc | eapply Hle; eauto; lia].
  - destruct H as (prev & l' & Hl & Hinc & Hall & Hprev).
    exists l'. split; [exact Hl |]. split; [exact Hinc | eapply Hle; eauto; lia].
Qed.

(** A scan returns a list. *)
Lemma raw_recovery_ret drive dir w :
  exists l, fst (raw_recovery drive dir w) = Ret l.
Proof.
  pose proof (raw_recovery_total drive dir w) as H.
  unfold raw_recovery, raw_recovery_fuel in *.
  destruct (raw_recovery_body (enough_fuel w) drive dir w) as [[l | e |] w1];
    cbn in *; eauto. now elim H.
Qed.

(** ** The operations on files *)

Lemma file_attempt_ret {A} (a : A) : file_attempt (ret a).
Proof. intros w. split; [discriminate | apply only_files_changed_refl]. Qed.

Lemma file_attempt_bind {A B} (m : M A) (k : A -> M B) :
  file_attempt m -> (forall a, file_attempt (k a)) -> file_attempt (bind m k).
Proof.
  intros Hm Hk w. destruct (Hm w) as [Ho Hw]. unfold bind.
  destruct (m w) as [[a | e |] w1]; cbn [fst snd] in *.
  - destruct (Hk a w1) as [Hb Hw1]. split; [exact Hb |].
    eapply only_files_changed_trans; eauto.
  - split; [discriminate | exact Hw].
  - now elim Ho.
Qed.

Lemma report_open_attempt h p : file_attempt (report_open h p).
Proof.
  intros w. unfold report_open. destruct (open_ok h p); cbn.
  - split; [discriminate | reflexivity].
  - split; [discriminate | apply only_files_changed_refl].
Qed.

Lemma report_write_attempt p text : file_attempt (report_write p text).
Proof.
  intros w. unfold report_write, fileN_write. destruct (spend (write_budget w)); cbn.
  - split; [discriminate | reflexivity].
  - split; [discriminate | apply only_files_changed_refl].
Qed.

Lemma write_all_attempt p texts : file_attempt (write_all p texts).
Proof.
  induction texts as [| t rest IH]; simpl.
  - apply file_attempt_ret.
  - apply file_attempt_bind; [apply report_write_attempt | intros _; exact IH].
Qed.

Lemma write_rows_attempt row p : forall file_list i,
  file_attempt (write_rows row p i file_list).
Proof.
  induction file_list as [| f rest IH]; intros i; simpl.
  - apply file_attempt_ret.
  - apply file_attempt_bind; [apply report_write_attempt | intros _; apply IH].
Qed.

Lemma write_html_attempt h file_list report_path scan_type target_path :
  file_attempt (write_html h file_list report_path scan_type target_path).
Proof.
  unfold write_html.
  repeat (apply file_attempt_bind; [| intros ?]);
    auto using report_open_attempt, report_write_attempt, write_rows_attempt,
               file_attempt_ret.
Qed.

Lemma write_text_attempt h file_list report_path scan_type target_path :
  file_attempt (write_text h file_list report_path scan_type target_path).
Proof.
  unfold write_text. cbv zeta.
  repeat (apply file_attempt_bind; [| intros ?]);
    auto using report_open_attempt, report_write_attempt, write_all_attempt,
               write_rows_attempt, file_attempt_ret.
Qed.

(** No exception leaves [generate_report]. *)
Lemma generate_report_file_operation h file_list report_path scan_type target_path :
  file_operation (generate_report h file_list report_path scan_type target_path).
Proof.
  intros w. unfold generate_report.
  destruct (write_html_attempt h file_list report_path scan_type target_path w)
    as [Ho Hw].
  destruct (write_html _ _ _ _ _ w) as [[p | e |] w1]; cbn [fst snd] in *.
  - split; [eauto | exact Hw].
  - destruct (write_text_attempt h file_list report_path scan_type target_path w1)
      as [Ho1 Hw1].
    destruct (write_text _ _ _ _ _ w1) as [[p | e1 |] w2]; cbn [fst snd] in *.
    + split; [eauto | eapply only_files_changed_trans; eauto].
    + split; [eauto | eapply only_files_changed_trans; eauto].
    + now elim Ho1.
  - now elim Ho.
Qed.

Lemma extract_one_file_operation h out root file st :
  file_operation (extract_one h out root file st).
Proof.
  intros w. unfold extract_one. destruct st as [n l].
  destruct (negb (supported _)); [split; [eauto | apply only_files_changed_refl] |].
  destruct (files w !! _); [| split; [eauto | apply only_files_changed_refl]].
  destruct (copy h _ _) as [| [part |]]; cbn [fst snd];
    (split; [eauto | first [reflexivity | apply only_files_changed_refl]]).
Qed.

Lemma extract_files_file_operation h out root : forall names st,
  file_operation (extract_files h out root names st).
Proof.
  induction names as [| f rest IH]; intros st; simpl.
  - apply file_operation_ret.
  - apply file_operation_bind; [apply extract_one_file_operation | intros; apply IH].
Qed.

Lemma extract_tree_file_operation h out : forall listing st,
  file_operation (extract_tree h out listing st).
Proof.
  induction listing as [| [root names] rest IH]; intros st; simpl.
  - apply file_operation_ret.
  - apply file_operation_bind; [apply extract_files_file_operation | intros; apply IH].
Qed.

Lemma extract_images_file_operation h src out :
  file_operation (extract_images h src out).
Proof.
  unfold extract_images. destruct (negb (makedirs_ok h out)).
  - apply file_operation_ret.
  - apply file_operation_bind; [apply extract_tree_file_operation |].
    intros st. apply file_operation_ret.
Qed.

Lemma verify_file_operation sha256_hex image_probe h file_list dir :
  file_operation (verify sha256_hex image_probe h file_list dir).
Proof.
  intros w. unfold verify.
  destruct (Verifier.verify_files _ _ _ _ _) as [out d]. cbn [fst snd].
  split; [eauto | reflexivity].
Qed.

(** ** Weakest preconditions of the parts of a run *)

Lemma wp_file_operation {A} (m : M A) Q w :
  file_operation m ->
  (forall a w', only_files_changed w w' -> Q (Ret a) w') ->
  wp m Q w.
Proof.
  intros Hm HQ. unfold wp. destruct (Hm w) as [[a Ha] Hw]. rewrite Ha. now apply HQ.
Qed.

Lemma wp_raw_recovery drive dir Q w :
  (forall l w', fst (raw_recovery drive dir w) = Ret l ->
                snd (raw_recovery drive dir w) = w' -> Q (Ret l) w') ->
  wp (raw_recovery drive dir) Q w.
Proof.
  intros HQ. unfold wp. destruct (raw_recovery_ret drive dir w) as [l Hl].
  rewrite Hl. now apply HQ.
Qed.

(** ** A run *)

Section Run.

Variable sha256_hex : bytes -> string.
Variable image_probe : bytes -> option (string * Z * Z).

Local Abbreviation run_recovery_body := (run_recovery_body sha256_hex image_probe).
Local Abbreviation run_recovery := (run_recovery sha256_hex image_probe).

Section Flagged.

Variable Q0 : option nat -> Prop.
Hypothesis Q0_spend : forall rb rb', Q0 rb -> spend rb = Some rb' -> Q0 rb'.

(** The [try] block of a run: its percentages, its last look at the
    flag, and what it leaves alone when it copies existing images. *)
Lemma run_recovery_body_wp h st t o w :
  Q0 (run_budget w) ->
  wp (run_recovery_body h st t o)
     (fun out w' =>
        exists l rb,
          Q0 rb
          /\ progress_of (signals w') = progress_of (signals w) ++ 0 :: l ++ [100]
          /\ increasing_from 0 l /\ Forall (fun p => p <= 98) l
          /\ (st = "Existing Images" ->
              l = [] /\ dev_data w' = dev_data w /\ read_budget w' = read_budget w)
          /\ match spend rb with
             | None => out = Ret None
             | Some _ =>
                 exists fs,
                   out = Ret (Some (mkCompletion fs o
                                      (Text.join o "recovery_report.html")))
             end) w.
Proof.
  intros HQ. unfold Worker.run_recovery_body. cbv zeta.
  do 4 step.
  (* the two ways of gathering files meet in one state *)
  assert (Hgather : forall (k : list Entry -> M (option Completion)) Q,
            (forall fs w1 l,
               progress_of (signals w1) = progress_of (signals w) ++ 0 :: l ->
               increasing_from 0 l -> Forall (fun p => p <= 98) l ->
               Q0 (run_budget w1) ->
               (st = "Existing Images" ->
                l = [] /\ dev_data w1 = dev_data w /\ read_budget w1 = read_budget w) ->
               wp (k fs) Q w1) ->
            wp (let* all_files :=
                  if String.eqb st "Existing Images" then
                    let* _ := emit (status_updated "Scanning for existing images...") in
                    let* extracted := extract_images h t o in
                    ret (map extracted_entry extracted)
                  else
                    let* _ := emit (status_updated "Performing raw recovery...") in
                    let* recovered := raw_recovery (raw_path_of t) o in
                    let* _ := emit (status_updated "Verifying recovered files...") in
                    let* verified := verify sha256_hex image_probe h recovered
                                       (Text.join o "corrupted") in
                    ret (map carved_entry verified) in
                k all_files) Q
               (with_signals
                  (with_signals w
                     (signals w
                      ++ [status_updated
                            ("Initializing " +:+ st +:+ " on " +:+ t +:+ "...")]))
                  ((signals w
                    ++ [status_updated
                          ("Initializing " +:+ st +:+ " on " +:+ t +:+ "...")])
                   ++ [progress_updated 0]))).
  { intros k Q Hk. apply wp_bind.
    destruct (String.eqb st "Existing Images") eqn:Est.
    - do 3 step.
      apply wp_file_operation; [apply extract_images_file_operation |].
      intros extracted w1 Hw1. step.
      apply only_files_changed_fields in Hw1. wsimpl.
      destruct Hw1 as (Hs & Hd & Hr & Hrd & _).
      apply (Hk _ _ []).
      + rewrite Hs, !progress_of_app. simpl. now rewrite !app_nil_r.
      + exact I.
      + constructor.
      + now rewrite Hr.
      + intros _. repeat split; auto.
    - do 3 step.
      apply wp_raw_recovery. intros recovered w1 _ Hw1.
      match type of Hw1 with snd (raw_recovery ?d ?o0 ?w0) = _ =>
        destruct (raw_recovery_appends_progress d o0 w0) as (l & Hl & Hinc & Hall);
        pose proof (raw_recovery_flag Q0 Q0_spend d o0 w0) as Hflag
      end.
      rewrite Hw1 in Hl, Hflag. wsimpl. specialize (Hflag HQ).
      do 3 step.
      apply wp_file_operation; [apply verify_file_operation |].
      intros verified w2 Hw2. step.
      apply only_files_changed_fields in Hw2. wsimpl.
      destruct Hw2 as (Hs & Hd & Hr & _).
      apply (Hk _ _ l).
      + rewrite Hs, progress_of_app, Hl, !progress_of_app. simpl.
        now rewrite !app_nil_r, <- app_assoc.
      + exact Hinc.
      + exact Hall.
      + now rewrite Hr.
      + intros E. rewrite E in Est. discriminate. }
  apply Hgather. intros fs w1 l Hl Hinc Hall Hflag Hex.
  do 3 step.
  apply wp_file_operation; [apply generate_report_file_operation |].
  intros report w2 Hw2. apply only_files_changed_fields in Hw2. wsimpl.
  destruct Hw2 as (Hs & Hd & Hr & Hrd & _).
  assert (Hprog : forall s, progress_of ((signals w1 ++ [status_updated s])
                                           ++ [progress_updated 100])
                            = progress_of (signals w) ++ 0 :: l ++ [100]).
  { intros s. rewrite !progress_of_app, Hl. simpl.
    now rewrite app_nil_r, <- app_assoc. }
  assert (Hex' : st = "Existing Images" ->
                 l = [] /\ dev_data w2 = dev_data w /\ read_budget w2 = read_budget w).
  { intros E. destruct (Hex E) as (H1 & H2 & H3). repeat split; congruence. }
  do 4 step.
  - step. exists l, (run_budget w2). wsimpl.
    split; [now rewrite Hr |]. split; [rewrite Hs; apply Hprog |].
    split; [exact Hinc |]. split; [exact Hall |]. split; [exact Hex' |].
    match goal with H : spend _ = None |- _ => rewrite H end. reflexivity.
  - step. exists l, (run_budget w2). wsimpl.
    split; [now rewrite Hr |]. split; [rewrite Hs; apply Hprog |].
    split; [exact Hinc |]. split; [exact Hall |]. split; [exact Hex' |].
    match goal with H : spend _ = Some _ |- _ => rewrite H end. eauto.
Qed.

End Flagged.

End Run.

(** The handler of [run_recovery] has nothing to catch. *)
Lemma run_recovery_is_its_body sha256_hex image_probe h st t o w :
  run_recovery sha256_hex image_probe h st t o w
  = run_recovery_body sha256_hex image_probe h st t o w
  /\ exists c, fst (run_recovery_body sha256_hex image_probe h st t o w) = Ret c.
Proof.
  pose proof (run_recovery_body_wp sha256_hex image_probe (fun _ => True)
                (fun _ _ _ _ => I) h st t o w I) as H.
  unfold wp in H. destruct H as (l & rb & _ & _ & _ & _ & _ & Hout).
  unfold Worker.run_recovery.
  destruct (Worker.run_recovery_body sha256_hex image_probe h st t o w) as [out w'].
  cbn [fst] in *.
  destruct (spend rb); [destruct Hout as [fs ->] | subst out]; eauto.
Qed.

Lemma length_append a : forall b,
  String.length (a +:+ b) = (String.length a + String.length b)%nat.
Proof.
  induction a as [| c a IH]; intros b; [reflexivity |].
  change (String c a +:+ b) with (String c (a +:+ b)).
  cbn [String.length]. now rewrite IH.
Qed.

Lemma substring_length n : forall s, (String.length (substring 0 n s) <= n)%nat.
Proof.
  induction n as [| n IH]; intros [| c s]; simpl; try lia.
  specialize (IH s). lia.
Qed.



End RunFacts.

(* ================================================================== *)
(** * Properties of a run *)
(* ================================================================== *)

Module WorkerExtras.
Import Bytes Carver Vocabulary Logic CarverFacts Strings Host RunVocabulary RunFacts.
Import Report Existing Worker Examples VerifierExamples.

(** The device path.  Whatever target the user chose, the scan is given
    a path that begins with [\\.\]; a target that is a device path
    already is kept, and of any other one only the first two characters
    that follow its leading backslashes are kept, so that the device path
    has six characters at most. *)
Theorem raw_path_is_a_device_path target_path :
  String.prefix "\\.\" (raw_path_of target_path) = true
  /\ raw_path_of (raw_path_of target_path) = raw_path_of target_path
  /\ (String.prefix "\\.\" target_path = false ->
      (String.length (raw_path_of target_path) <= 6)%nat).
Proof.
  assert (H : String.prefix "\\.\" (raw_path_of target_path) = true).
  { unfold raw_path_of. destruct (String.prefix "\\.\" target_path) eqn:E;
      [exact E | apply TextFacts.prefix_append]. }
  split; [exact H |]. split.
  - unfold raw_path_of at 1. now rewrite H.
  - intros E. unfold raw_path_of. rewrite E.
    pose proof (substring_length 2 (strip "\" target_path)) as Hl.
    rewrite length_append. change (String.length "\\.\") with 4%nat. lia.
Qed.

(** The progress bar of a run.  Whatever the scan type, the device, the
    faults and the time of a stop, the percentages of a run are 0, then
    the percentages of the scan, which increase strictly and end at 98 at
    most, then 100: the bar starts at 0, never goes back, and always
    reaches 100. *)
Theorem run_progress_goes_from_0_to_100
    sha256_hex image_probe h scan_type target_path output_dir w :
  exists l,
    progress_of (signals (snd (run_recovery sha256_hex image_probe h scan_type
                                 target_path output_dir w)))
    = progress_of (signals w) ++ 0 :: l ++ [100]
    /\ increasing_from 0 l /\ Forall (fun p => p <= 98) l.
Proof.
  destruct (run_recovery_is_its_body sha256_hex image_probe h scan_type target_path
              output_dir w) as [-> _].
  pose proof (run_recovery_body_wp sha256_hex image_probe (fun _ => True)
                (fun _ _ _ _ => I) h scan_type target_path output_dir w I) as H.
  unfold wp in H. destruct H as (l & rb & _ & Hp & Hinc & Hall & _).
  now exists l.
Qed.

(** Completion.  A run of a worker that is never stopped ends with
    [recovery_complete]; the report it announces is
    [recovery_report.html] in the output directory, whether or not that
    file could be written. *)
Theorem a_run_that_is_not_stopped_completes
    sha256_hex image_probe h scan_type target_path output_dir w :
  never_stopped w ->
  exists fs,
    fst (run_recovery sha256_hex image_probe h scan_type target_path output_dir w)
    = Ret (Some (mkCompletion fs output_dir
                   (Text.join output_dir "recovery_report.html"))).
Proof.
  intros Hw.
  destruct (run_recovery_is_its_body sha256_hex image_probe h scan_type target_path
              output_dir w) as [-> _].
  assert (Hsp : forall rb rb' : option nat,
            rb = None -> spend rb = Some rb' -> rb' = None).
  { intros rb rb' -> Hs. simpl in Hs. congruence. }
  pose proof (run_recovery_body_wp sha256_hex image_probe (fun rb => rb = None) Hsp
                h scan_type target_path output_dir w Hw) as H.
  unfold wp in H. destruct H as (l & rb & -> & _ & _ & _ & _ & Hout).
  exact Hout.
Qed.

Lemma a_run_that_is_not_stopped_completes_witness :
  exists fs,
    fst (run_recovery toy_sha256_hex toy_image_probe quiet_host
           "USB Scan" "E:\" "out" (fresh_world aligned_stream))
    = Ret (Some (mkCompletion fs "out" (Text.join "out" "recovery_report.html"))).
Proof.
  exact (a_run_that_is_not_stopped_completes toy_sha256_hex toy_image_probe
           quiet_host "USB Scan" "E:\" "out" (fresh_world aligned_stream) eq_refl).
Defined.

(** After a stop.  Nothing sets [_is_running] again: every run of a
    worker that was stopped once, whatever its scan type and its target,
    ends without [recovery_complete]. *)
Theorem a_stopped_worker_never_completes
    sha256_hex image_probe h scan_type target_path output_dir w :
  fst (run_recovery sha256_hex image_probe h scan_type target_path output_dir
         (snd (stop w)))
  = Ret None.
Proof.
  destruct (run_recovery_is_its_body sha256_hex image_probe h scan_type target_path
              output_dir (snd (stop w))) as [-> _].
  assert (Hsp : forall rb rb' : option nat,
            rb = Some 0%nat -> spend rb = Some rb' -> rb' = Some 0%nat).
  { intros rb rb' -> Hs. simpl in Hs. congruence. }
  pose proof (run_recovery_body_wp sha256_hex image_probe
                (fun rb => rb = Some 0%nat) Hsp
                h scan_type target_path output_dir (snd (stop w)) eq_refl) as H.
  unfold wp in H. destruct H as (l & rb & -> & _ & _ & _ & _ & Hout).
  exact Hout.
Qed.

(** Existing images.  A run that copies existing images does not read
    the device, and its percentages are 0 and 100 only. *)
Theorem copying_existing_images_leaves_the_device_alone
    sha256_hex image_probe h target_path output_dir w :
  dev_data (snd (run_recovery sha256_hex image_probe h "Existing Images"
                   target_path output_dir w)) = dev_data w
  /\ read_budget (snd (run_recovery sha256_hex image_probe h "Existing Images"
                         target_path output_dir w)) = read_budget w
  /\ progress_of (signals (snd (run_recovery sha256_hex image_probe h
                                  "Existing Images" target_path output_dir w)))
     = progress_of (signals w) ++ [0; 100].
Proof.
  destruct (run_recovery_is_its_body sha256_hex image_probe h "Existing Images"
              target_path output_dir w) as [-> _].
  pose proof (run_recovery_body_wp sha256_hex image_probe (fun _ => True)
                (fun _ _ _ _ => I) h "Existing Images" target_path output_dir w I) as H.
  unfold wp in H. destruct H as (l & rb & _ & Hp & _ & _ & Hex & _).
  destruct (Hex eq_refl) as (-> & Hd & Hr). auto.
Qed.



End WorkerExtras.

(* ================================================================== *)
(** * The reads of a scan *)
(* ================================================================== *)

Module ReadsFacts.
Import Bytes Carver Vocabulary Logic CarverFacts CarverClaims Examples ReadsVocabulary.














End ReadsFacts.

(* ================================================================== *)
(** * A device that fails before its end *)
(* ================================================================== *)

Module ReadsExtras.
Import Bytes Carver Vocabulary Logic CarverFacts CarverClaims Examples.
Import ReadsVocabulary ReadsFacts.





End ReadsExtras.
